(** * bootlogger: denial-record parser, merge sweep and rule synthesis

    A shallow embedding of [debug-tools/bootlogger/AuditToAllow.cpp],
    [LoggerInternal.h] and the two log filters and the merge sweep of
    [Logger.cpp].

    Conventions of the embedding:
    - [std::string] is [string]; [std::set<std::string>] is [gset string],
      iterated in the order of [std::less<std::string>] (see [set_iter]);
      [std::map<std::string, std::string>] is [gmap string string];
      [std::vector<AvcContext>] is [list AvcContext], updated by index.
    - A constructor or function that can run off the end of a container or
      throw returns an [outcome].
    - [ALOGW]/[ALOGE] calls are collected as a list of [diag]. *)

From Stdlib Require Import Ascii ZArith Lia.
From stdpp Require Import base option list gmap strings sorting.

Local Open Scope Z_scope.
Local Open Scope nat_scope.
Local Open Scope stdpp_scope.

(** ** Characters and strings *)

Module Str.

(** [std::isspace] in the classic locale. *)
Definition isspace (a : ascii) : bool :=
  match a with
  | " " | "009" | "010" | "011" | "012" | "013" => true
  | _ => false
  end%char.

Definition isdigit (a : ascii) : bool :=
  (48 <=? nat_of_ascii a) && (nat_of_ascii a <=? 57).

Definition in_range (lo hi a : ascii) : bool :=
  (nat_of_ascii lo <=? nat_of_ascii a) && (nat_of_ascii a <=? nat_of_ascii hi).

Definition isalnum (a : ascii) : bool :=
  isdigit a || in_range "a"%char "z"%char a || in_range "A"%char "Z"%char a.

(** [str.size()] *)
Fixpoint size (s : string) : nat :=
  match s with
  | EmptyString => 0
  | String _ s' => S (size s')
  end.

(** [str.substr(n)] for [n <= size] *)
Fixpoint drop (n : nat) (s : string) : string :=
  match n, s with
  | 0, _ => s
  | S _, EmptyString => EmptyString
  | S n', String _ s' => drop n' s'
  end.

(** [str.substr(0, n)] *)
Fixpoint take (n : nat) (s : string) : string :=
  match n, s with
  | 0, _ => EmptyString
  | S _, EmptyString => EmptyString
  | S n', String a s' => String a (take n' s')
  end.

Fixpoint starts_with (needle s : string) : bool :=
  match needle, s with
  | EmptyString, _ => true
  | String _ _, EmptyString => false
  | String a n', String b s' => if Ascii.eqb a b then starts_with n' s' else false
  end.

(** [s.find(needle)]: index of the first occurrence, [None] for [npos]. *)
Fixpoint find (needle s : string) : option nat :=
  if starts_with needle s then Some 0
  else match s with
       | EmptyString => None
       | String _ s' => S <$> find needle s'
       end.

(** [s.find(c)] for a character. *)
Fixpoint find_char (c : ascii) (s : string) : option nat :=
  match s with
  | EmptyString => None
  | String a s' => if Ascii.eqb a c then Some 0 else S <$> find_char c s'
  end.

Fixpoint last (s : string) : option ascii :=
  match s with
  | EmptyString => None
  | String a EmptyString => Some a
  | String _ s' => last s'
  end.

Fixpoint forallb (p : ascii → bool) (s : string) : bool :=
  match s with
  | EmptyString => true
  | String a s' => p a && forallb p s'
  end.

(** The loop [while (iss >> line) lines.emplace_back(line)]: the maximal
    runs of non-space characters, in order.  [cur] is the token being
    read. *)
Fixpoint tokens_go (cur : string) (s : string) : list string :=
  match s with
  | EmptyString => match cur with EmptyString => [] | _ => [cur] end
  | String a s' =>
      if isspace a
      then match cur with
           | EmptyString => tokens_go EmptyString s'
           | _ => cur :: tokens_go EmptyString s'
           end
      else tokens_go (cur +:+ String a EmptyString) s'
  end.

Definition tokens (s : string) : list string := tokens_go EmptyString s.

(** Words joined by single spaces. *)
Fixpoint unwords (l : list string) : string :=
  match l with
  | [] => EmptyString
  | [w] => w
  | w :: l' => w +:+ String " "%char (unwords l')
  end.

(** [std::stringstream(s) >> x] for [int x]: skip leading white space, an
    optional sign, then decimal digits; the extraction fails when there is
    no digit or the value does not fit an [int]. *)
Fixpoint skipws (s : string) : string :=
  match s with
  | String a s' => if isspace a then skipws s' else s
  | EmptyString => EmptyString
  end.

Fixpoint read_digits (acc : option Z) (s : string) : option Z :=
  match s with
  | String a s' =>
      if isdigit a
      then read_digits
             (Some (10 * default 0%Z acc + Z.of_nat (nat_of_ascii a - 48))%Z) s'
      else acc
  | EmptyString => acc
  end.

Definition read_int (s : string) : option Z :=
  let s1 := skipws s in
  let '(neg, s2) :=
    match s1 with
    | String "+"%char r => (false, r)
    | String "-"%char r => (true, r)
    | _ => (false, s1)
    end in
  match read_digits None s2 with
  | None => None
  | Some v =>
      let x := if neg then (- v)%Z else v in
      if ((-2147483648 <=? x) && (x <=? 2147483647))%Z then Some x else None
  end.

End Str.

(** ** [std::regex] (ECMAScript grammar): the fragment the sources use *)

Module Regex.

Inductive regex : Type :=
| Eps                              (* the empty pattern *)
| Lit (c : ascii)                  (* an ordinary or escaped character *)
| Class (p : ascii → bool)         (* \s, \w, ., [...] *)
| Seq (r1 r2 : regex)
| Plus (r : regex)                 (* r+ , greedy *)
| Opt (r : regex)                  (* r? , greedy *)
| Group (i : nat) (r : regex)      (* the i-th marked sub-expression *)
| Bol                              (* ^ *)
| Eol.                             (* $ *)

(** A string of ordinary characters. *)
Fixpoint lit (s : string) : regex :=
  match s with
  | EmptyString => Eps
  | String a s' => Seq (Lit a) (lit s')
  end.

(** Concatenation of a list of patterns. *)
Definition seqs (rs : list regex) : regex := foldr Seq Eps rs.

Definition space : regex := Class Str.isspace.                      (* \s *)
Definition wordchar (a : ascii) : bool :=
  Str.isalnum a || Ascii.eqb a "_"%char.
Definition word : regex := Class wordchar.                          (* \w *)
Definition is_dot (a : ascii) : bool :=
  negb (Ascii.eqb a "010"%char || Ascii.eqb a "013"%char).
Definition anychar : regex := Class is_dot.                         (* . *)

(** [e.mark_count()] *)
Fixpoint mark_count (r : regex) : nat :=
  match r with
  | Seq r1 r2 => mark_count r1 + mark_count r2
  | Plus r | Opt r => mark_count r
  | Group _ r => S (mark_count r)
  | _ => 0
  end.

Fixpoint groups (r : regex) : list nat :=
  match r with
  | Seq r1 r2 => groups r1 ++ groups r2
  | Plus r | Opt r => groups r
  | Group i r => i :: groups r
  | _ => []
  end.

(** The sub-matches: entry [0] is the whole match, entry [i] the [i]-th
    marked sub-expression, [None] when it did not take part. *)
Abbreviation caps := (list (option string)).

(** Entering a quantified sub-pattern forgets the captures inside it. *)
Definition reset (r : regex) (c : caps) : caps :=
  foldr (λ i c, <[i:=None]> c) c (groups r).

(** Greedy repetition of [body], zero or more times, then [k]; an
    iteration that consumes nothing is rejected. *)
Fixpoint star_loop {A} (body : string → caps → (string → caps → option A) → option A)
    (k : string → caps → option A) (fuel : nat) (s : string) (c : caps) : option A :=
  match fuel with
  | 0 => k s c
  | S fuel' =>
      match body s c (λ s' c',
               if Str.size s' <? Str.size s then star_loop body k fuel' s' c'
               else None) with
      | Some x => Some x
      | None => k s c
      end
  end.

(** Backtracking matcher in continuation-passing style: [rmatch n r s c k]
    matches [r] at the front of [s], the rest of an input of [n]
    characters, and hands what is left to [k]. *)
Fixpoint rmatch {A} (n : nat) (r : regex) (s : string) (c : caps)
    (k : string → caps → option A) {struct r} : option A :=
  match r with
  | Eps => k s c
  | Lit a =>
      match s with
      | String b s' => if Ascii.eqb a b then k s' c else None
      | EmptyString => None
      end
  | Class p =>
      match s with
      | String b s' => if p b then k s' c else None
      | EmptyString => None
      end
  | Seq r1 r2 => rmatch n r1 s c (λ s' c', rmatch n r2 s' c' k)
  | Opt r1 =>
      match rmatch n r1 s (reset r1 c) k with
      | Some x => Some x
      | None => k s c
      end
  | Plus r1 =>
      let body := λ s c k', rmatch n r1 s (reset r1 c) k' in
      body s c (λ s' c', star_loop body k (Str.size s') s' c')
  | Group i r1 =>
      rmatch n r1 s c
        (λ s' c', k s' (<[i:=Some (Str.take (Str.size s - Str.size s') s)]> c'))
  | Bol => if Str.size s =? n then k s c else None
  | Eol => match s with EmptyString => k s c | _ => None end
  end.

(** [std::smatch] after a successful match. *)
Record smatch := { subs : caps }.

(** [m.size()] *)
Definition msize (m : smatch) : nat := length (subs m).

(** [m.str(i)]: the empty string for a sub-expression that did not match. *)
Definition str (m : smatch) (i : nat) : string :=
  default EmptyString (mjoin (subs m !! i)).

Definition init (r : regex) : caps := replicate (S (mark_count r)) None.

Definition whole (s s' : string) (c : caps) : option smatch :=
  Some {| subs := <[0:=Some (Str.take (Str.size s - Str.size s') s)]> c |}.

(** [std::regex_match(s, m, r)]: the whole of [s] matches. *)
Definition regex_match (r : regex) (s : string) : option smatch :=
  rmatch (Str.size s) r s (init r)
    (λ s' c, match s' with EmptyString => whole s s' c | _ => None end).

(** [std::regex_search(s, m, r)]: the leftmost match. *)
Fixpoint search_from (n : nat) (r : regex) (s : string) : option smatch :=
  match rmatch n r s (init r) (whole s) with
  | Some m => Some m
  | None =>
      match s with
      | EmptyString => None
      | String _ s' => search_from n r s'
      end
  end.

Definition regex_search (r : regex) (s : string) : option smatch :=
  search_from (Str.size s) r s.

End Regex.

(** ** LoggerInternal.h: the data model *)

(** What a call that can leave the defined behaviour of the program comes
    to. *)
Inductive outcome (A : Type) : Type :=
| Done (a : A)
| OutOfRange   (* an iterator is moved or read beyond [end()], or a buffer
                  is read beyond its size *)
| Thrown.      (* an exception leaves the call: [std::out_of_range] of
                  [string_view::substr], [std::length_error] of [append] *)
Arguments Done {A} a.
Arguments OutOfRange {A}.
Arguments Thrown {A}.

(** The messages of the [ALOGW] and [ALOGE] calls of the parser. *)
Inductive diag : Type :=
| UnknownStatus (tok : string)      (* Unknown value for ACL status *)
| InvalidInput                      (* Invalid input *)
| Unparsable (tok : string)         (* Unparsable attribute *)
| EmptyValue (key : string)         (* Empty value for key *)
| InvalidPermissive (v : string)    (* Invalid permissive status *)
| FailedToParse.                    (* Failed to parse *)

Record SEContext : Type := { m_context : string }.

Global Instance SEContext_eq_dec : EqDecision SEContext.
Proof. solve_decision. Defined.

(** [struct AvcContext].  The members [granted] and [permissive] have no
    initializer in the source ([stale] has one, and the constructor's
    initializer list resets it). *)
Record AvcContext : Type := mkAvcContext {
  granted : bool;
  operation : gset string;
  scontext : SEContext;
  tcontext : SEContext;
  tclass : string;
  misc_attributes : gmap string string;
  permissive : bool;
  stale : bool
}.

Definition dquote : ascii := "034"%char.
Definition newline : string := String "010"%char EmptyString.

(** ** AuditToAllow.cpp *)

Definition TrimDoubleQuote (str : string) : string :=
  if 2 <? Str.size str then
    match str with
    | String a rest =>
        if Ascii.eqb a dquote && bool_decide (Str.last str = Some dquote)
        then Str.take (Str.size str - 2) rest
        else str
    | EmptyString => str
    end
  else str.

(** The character class [[\w-]]. *)
Definition name_char (a : ascii) : bool :=
  Regex.wordchar a || Ascii.eqb a "-"%char.

(** [^u:(object_)?r:([\w-]+):s0(.+)?$] *)
Definition kSEContextRegex : Regex.regex :=
  Regex.seqs
    [ Regex.Bol; Regex.lit "u:"; Regex.Opt (Regex.Group 1 (Regex.lit "object_"));
      Regex.lit "r:";
      Regex.Group 2
        (Regex.Plus (Regex.Class name_char));
      Regex.lit ":s0"; Regex.Opt (Regex.Group 3 (Regex.Plus Regex.anychar));
      Regex.Eol ].

(** [SEContext::SEContext(std::string)] *)
Definition SEContext_ctor (context : string) : SEContext :=
  match Regex.regex_match kSEContextRegex context with
  | Some m => {| m_context := Regex.str m 2 |}
  | None => {| m_context := context |}
  end.

(** [misc_attributes.emplace(k, v)]: an existing key keeps its value. *)
Definition emplace (k v : string) (m : gmap string string) : gmap string string :=
  match m !! k with
  | Some _ => m
  | None => <[k:=v]> m
  end.

(** [operation.insert(tok)] *)
Definition op_insert (tok : string) (ops : gset string) : gset string :=
  ops ∪ {[tok]}.

(** [do { operation.insert( *it); } while ( *(++it) != "}");] where [rest] is
    the part of [lines] from [it] on.  The result is the part of [lines] from
    the closing brace on. *)
Fixpoint op_loop (rest : list string) (ops : gset string)
    : outcome (list string * gset string) :=
  match rest with
  | [] => OutOfRange
  | tok :: rest' =>
      let ops' := op_insert tok ops in
      match rest' with
      | [] => OutOfRange
      | t :: _ => if String.eqb t "}" then Done (rest', ops') else op_loop rest' ops'
      end
  end.

(** The body of the attribute loop for the token [tok]. *)
Definition attr_body (tok : string) (st : gmap string string * list diag)
    : gmap string string * list diag :=
  match Str.find_char "="%char tok with
  | None => (st.1, st.2 ++ [Unparsable tok])
  | Some idx =>
      (emplace (Str.take idx tok) (TrimDoubleQuote (Str.drop (idx + 1) tok)) st.1,
       st.2)
  end.

(** [do { ... } while (++it != lines.end());] entered with [it] at [tok] and
    [rest] behind it. *)
Fixpoint attr_loop (tok : string) (rest : list string)
    (st : gmap string string * list diag) : gmap string string * list diag :=
  let st' := attr_body tok st in
  match rest with
  | [] => st'
  | t :: rest' => attr_loop t rest' st'
  end.

(** [AvcContext::findOrDie(std::string &, const std::string &)]: the value
    found, the map after the erase, and the diagnostic. *)
Definition findOrDie (key : string) (m : gmap string string)
    : option string * gmap string string * list diag :=
  match m !! key with
  | Some v => (Some v, delete key m, [])
  | None => (None, m, [EmptyValue key])
  end.

(** [AvcContext::findOrDie(SEContext &, const std::string &)] *)
Definition findOrDie_ctx (key : string) (m : gmap string string)
    : option SEContext * gmap string string * list diag :=
  let '(v, m', d) := findOrDie key m in (SEContext_ctor <$> v, m', d).

(** The members [granted] and [permissive] have no initializer, and the
    initializer list of the constructor is [stale(true)] alone: until the
    constructor assigns them they are indeterminate.  [u] stands for what the
    storage of the object holds in their place. *)
Record Indeterminate : Type := { any_granted : bool; any_permissive : bool }.

(** The object under construction before any member is assigned:
    [stale(true)], empty containers and strings, [granted] and [permissive]
    indeterminate. *)
Definition AvcContext_init (u : Indeterminate) : AvcContext :=
  {| granted := any_granted u; operation := ∅;
     scontext := {| m_context := EmptyString |};
     tcontext := {| m_context := EmptyString |};
     tclass := EmptyString; misc_attributes := ∅;
     permissive := any_permissive u; stale := true |}.

(** Lines 73 to 99 of the constructor: the required keys.  [permissive] is
    assigned in the two branches of success only. *)
Definition AvcContext_finish (u : Indeterminate) (granted0 : bool) (ops : gset string)
    (st : gmap string string * list diag) : AvcContext * list diag :=
  let m0 := st.1 in
  let pit := m0 !! "permissive" in
  let '(sc, m1, d1) := findOrDie_ctx "scontext" m0 in
  let '(tc, m2, d2) := findOrDie_ctx "tcontext" m1 in
  let '(cl, m3, d3) := findOrDie "tclass" m2 in
  let ret := bool_decide (is_Some sc) && bool_decide (is_Some tc)
             && bool_decide (is_Some cl) && bool_decide (is_Some pit) in
  let partial (m : gmap string string) (p : bool) (st : bool) :=
    {| granted := granted0; operation := ops;
       scontext := default (scontext (AvcContext_init u)) sc;
       tcontext := default (tcontext (AvcContext_init u)) tc;
       tclass := default EmptyString cl;
       misc_attributes := m; permissive := p; stale := st |} in
  let log := st.2 ++ d1 ++ d2 ++ d3 in
  if ret then
    let v := default EmptyString pit in
    match Str.read_int v with
    | Some 0%Z => (partial (delete "permissive" m3) false false, log)
    | Some 1%Z => (partial (delete "permissive" m3) true false, log)
    | _ => (partial m3 (any_permissive u) true,
            log ++ [InvalidPermissive v; FailedToParse])
    end
  else (partial m3 (any_permissive u) true, log ++ [FailedToParse]).

(** Lines 42 to 99 of the constructor, on the vector [lines] of tokens. *)
Definition AvcContext_of_tokens (u : Indeterminate) (lines : list string)
    : outcome (AvcContext * list diag) :=
  match lines with
  | [] => OutOfRange
  | _ :: it =>                                            (* ++it: skip avc: *)
      match it with
      | [] => OutOfRange
      | status :: it =>
          if String.eqb status "granted" || String.eqb status "denied" then
            let granted0 := String.eqb status "granted" in
            match it with                                 (* ++it; ++it *)
            | [] => OutOfRange
            | _ :: it =>
                match op_loop it ∅ with
                | Done (it, ops) =>
                    match it with                         (* ++it; ++it *)
                    | _ :: _ :: [] =>
                        Done ({| granted := granted0; operation := ops;
                                 scontext := scontext (AvcContext_init u);
                                 tcontext := tcontext (AvcContext_init u);
                                 tclass := EmptyString; misc_attributes := ∅;
                                 permissive := any_permissive u; stale := true |},
                              [InvalidInput])
                    | _ :: _ :: tok :: rest =>
                        Done (AvcContext_finish u granted0 ops
                                (attr_loop tok rest (∅, [])))
                    | _ => OutOfRange
                    end
                | OutOfRange => OutOfRange
                | Thrown => Thrown
                end
            end
          else Done (AvcContext_init u, [UnknownStatus status])
      end
  end.

(** [AvcContext::AvcContext(const std::string_view)], for an object whose
    storage holds [u]. *)
Definition AvcContext_ctor (u : Indeterminate) (string : string)
    : outcome (AvcContext * list diag) :=
  match Str.find "avc:" string with
  | None => Thrown
  | Some pos =>
      let sub_str := Str.drop pos string in
      AvcContext_of_tokens u (Str.tokens sub_str)
  end.

(** Two records are mergeable when these four members are equal. *)
Definition mergable (a b : AvcContext) : bool :=
  Bool.eqb (granted a) (granted b)
  && bool_decide (scontext a = scontext b)
  && bool_decide (tcontext a = tcontext b)
  && String.eqb (tclass a) (tclass b).

Definition set_stale (b : bool) (a : AvcContext) : AvcContext :=
  {| granted := granted a; operation := operation a; scontext := scontext a;
     tcontext := tcontext a; tclass := tclass a;
     misc_attributes := misc_attributes a; permissive := permissive a;
     stale := b |}.

Definition set_operation (ops : gset string) (a : AvcContext) : AvcContext :=
  {| granted := granted a; operation := ops; scontext := scontext a;
     tcontext := tcontext a; tclass := tclass a;
     misc_attributes := misc_attributes a; permissive := permissive a;
     stale := stale a |}.

(** [AvcContext::operator+=] on two distinct objects: [this] and [other]
    after the call. *)
Definition plus_assign (this other : AvcContext) : AvcContext * AvcContext :=
  if negb (stale this) && negb (stale other) then
    if mergable this other
    then (set_operation (operation this ∪ operation other) this,
          set_stale true other)
    else (this, other)
  else (this, other).

(** The elements of a [std::set<std::string>] in iteration order. *)
Definition set_iter (X : gset string) : list string :=
  merge_sort String.le (elements X).

Fixpoint concat_str (l : list string) : string :=
  match l with
  | [] => EmptyString
  | x :: l' => x +:+ concat_str l'
  end.

(** [operator<<(std::ostream &, const AvcContext &)]: the characters
    written. *)
Definition print_AvcContext (context : AvcContext) : string :=
  if stale context || (size (operation context) =? 0) then EmptyString
  else if bool_decide ("sys_admin" ∈ operation context) then EmptyString
  else
    "allow " +:+ m_context (scontext context) +:+ " "
      +:+ m_context (tcontext context) +:+ ":" +:+ tclass context +:+ " "
      +:+ match size (operation context) with
          | 1 => default EmptyString (head (set_iter (operation context)))
          | _ => "{ " +:+ concat_str ((λ op, op +:+ " ") <$> set_iter (operation context))
                   +:+ "}"
          end
      +:+ ";".

(** The [rules] set of [operator<<(std::ostream &, const AvcContexts &)]. *)
Definition rules_of (context : list AvcContext) : gset string :=
  foldl (λ rules entry, rules ∪ {[ print_AvcContext entry +:+ newline ]}) ∅ context.

(** [operator<<(std::ostream &, const AvcContexts &)] *)
Definition print_AvcContexts (context : list AvcContext) : string :=
  concat_str (set_iter (rules_of context)).

(** ** Logger.cpp *)

(** [avc:\s+denied\s+\{(\s\w+)+\s\}\sfor\s] *)
Definition kAvcMessageRegEX : Regex.regex :=
  Regex.seqs
    [ Regex.lit "avc:"; Regex.Plus Regex.space; Regex.lit "denied";
      Regex.Plus Regex.space; Regex.Lit "{"%char;
      Regex.Group 1 (Regex.Plus (Regex.Seq Regex.space (Regex.Plus Regex.word)));
      Regex.space; Regex.Lit "}"%char; Regex.space; Regex.lit "for"; Regex.space ].

(** [AvcFilterContext::filter]: the value returned and [*_ctx] after the
    call ([None] for a null [_ctx]).  [u] is what the storage of the new
    element of the vector holds. *)
Definition AvcFilterContext_filter (u : Indeterminate) (line : string)
    (_ctx : option (list AvcContext))
    : outcome (bool * option (list AvcContext)) :=
  let match_ := bool_decide (is_Some (Regex.regex_search kAvcMessageRegEX line)) in
  let match_ := match_ && bool_decide (Str.find "untrusted_app" line = None) in
  match _ctx with
  | Some ctx =>
      if match_ then
        match AvcContext_ctor u line with
        | Done (e, _) => Done (match_, Some (ctx ++ [e]))
        | OutOfRange => OutOfRange
        | Thrown => Thrown
        end
      else Done (match_, _ctx)
  | None => Done (match_, _ctx)
  end.

(** The character classes [[a-zA-z.]] and [[a-zA-z0-9.@:\/]]. *)
Definition prop_name_char (a : ascii) : bool :=
  Str.in_range "a"%char "z"%char a || Str.in_range "A"%char "z"%char a
  || Ascii.eqb a "."%char.

Definition prop_dest_char (a : ascii) : bool :=
  Str.in_range "a"%char "z"%char a || Str.in_range "A"%char "z"%char a
  || Str.in_range "0"%char "9"%char a || Ascii.eqb a "."%char
  || Ascii.eqb a "@"%char || Ascii.eqb a ":"%char || Ascii.eqb a "/"%char.

(** [libc\s+:\s+\w+\s\w+\s\w+\s\w+\s(\"[a-zA-z.]+\")( to \"([a-zA-z0-9.@:\/]+)\")?] *)
Definition kPropertyAccessRegEX : Regex.regex :=
  Regex.seqs
    [ Regex.lit "libc"; Regex.Plus Regex.space; Regex.Lit ":"%char;
      Regex.Plus Regex.space;
      Regex.Plus Regex.word; Regex.space; Regex.Plus Regex.word; Regex.space;
      Regex.Plus Regex.word; Regex.space; Regex.Plus Regex.word; Regex.space;
      Regex.Group 1
        (Regex.seqs [Regex.Lit dquote; Regex.Plus (Regex.Class prop_name_char);
                     Regex.Lit dquote]);
      Regex.Opt
        (Regex.Group 2
           (Regex.seqs [Regex.lit " to "; Regex.Lit dquote;
                        Regex.Group 3 (Regex.Plus (Regex.Class prop_dest_char));
                        Regex.Lit dquote])) ].

(** [libcPropFilterContext::filter]: the value returned and the static
    [propsDenied] after the call. *)
Definition libcPropFilterContext_filter (line : string) (propsDenied : gset string)
    : bool * gset string :=
  match Regex.regex_search kPropertyAccessRegEX line with
  | Some kPropMatch =>
      if Regex.msize kPropMatch =? 3 then (true, propsDenied)
      else if Regex.msize kPropMatch =? 1 then
        let propString := Regex.str kPropMatch 1 in
        if bool_decide (propString ∈ propsDenied) then (false, propsDenied)
        else (true, propsDenied ∪ {[propString]})
      else (false, propsDenied)
  | None => (false, propsDenied)
  end.

(** A sequence of lines through the filter, the static set threaded. *)
Fixpoint libcProp_run (lines : list string) (propsDenied : gset string) : list bool :=
  match lines with
  | [] => []
  | line :: lines' =>
      let '(b, pd) := libcPropFilterContext_filter line propsDenied in
      b :: libcProp_run lines' pd
  end.

(** The body [if (&e1 == &e2) continue; e1 += e2;] of the sweep in [main],
    for the elements at the indices [i] and [j] of the vector. *)
Definition merge_pair (i j : nat) (v : list AvcContext) : list AvcContext :=
  if decide (i = j) then v
  else match v !! i, v !! j with
       | Some e1, Some e2 =>
           let '(e1', e2') := plus_assign e1 e2 in
           <[j:=e2']> (<[i:=e1']> v)
       | _, _ => v
       end.

(** [for (auto &e2 : *kAvcCtx) ...] for a fixed [e1]. *)
Definition merge_inner (i : nat) (v : list AvcContext) : list AvcContext :=
  foldl (λ v j, merge_pair i j v) v (seq 0 (length v)).

(** [for (auto &e1 : *kAvcCtx) for (auto &e2 : *kAvcCtx) ...] *)
Definition merge_sweep (v : list AvcContext) : list AvcContext :=
  foldl (λ v i, merge_inner i v) v (seq 0 (length v)).

(** What [main] hands to [seGenCtx]: the sweep, then the rules. *)
Definition sepolicy_gen (kAvcCtx : list AvcContext) : string :=
  print_AvcContexts (merge_sweep kAvcCtx).

(** ** Vocabulary of the statements *)

(** The four members [operator+=] compares. *)
Definition same_rule_key (a b : AvcContext) : Prop :=
  granted a = granted b ∧ scontext a = scontext b
  ∧ tcontext a = tcontext b ∧ tclass a = tclass b.

(** [other] was merged into [this]: the operations are united in [this] and
    [other] is marked stale. *)
Definition merged_result (this other : AvcContext) : AvcContext * AvcContext :=
  (set_operation (operation this ∪ operation other) this, set_stale true other).

(** The rule line with no operation text. *)
Definition degenerate_rule (a : AvcContext) : string :=
  "allow " +:+ m_context (scontext a) +:+ " " +:+ m_context (tcontext a)
    +:+ ":" +:+ tclass a +:+ " ;".

(** The lines [operator<<] writes for a collection, in the order written. *)
Definition output_lines (context : list AvcContext) : list string :=
  set_iter (rules_of context).

(** Strict lexicographic order of [std::string]. *)
Definition str_lt (a b : string) : Prop := String.le a b ∧ a ≠ b.

(** The rule lines of the records that are not stale. *)
Definition surviving_lines (v : list AvcContext) : list string :=
  print_AvcContext <$> filter (λ e, stale e = false) v.

(** Two records of one rule key, used as concrete inputs. *)
Definition rec_a : AvcContext :=
  {| granted := false; operation := {["ioctl"]};
     scontext := {| m_context := "mydomain" |};
     tcontext := {| m_context := "vendor_device" |};
     tclass := "chr_file"; misc_attributes := ∅;
     permissive := false; stale := false |}.

Definition rec_b : AvcContext :=
  {| granted := false; operation := {["open"]};
     scontext := {| m_context := "mydomain" |};
     tcontext := {| m_context := "vendor_device" |};
     tclass := "chr_file"; misc_attributes := {["ino" := "42"]};
     permissive := true; stale := false |}.

(** A record that is not stale and has no operation. *)
Definition rec_noop : AvcContext :=
  {| granted := false; operation := ∅;
     scontext := {| m_context := "mydomain" |};
     tcontext := {| m_context := "vendor_device" |};
     tclass := "chr_file"; misc_attributes := ∅;
     permissive := false; stale := false |}.

(** A record with the excluded operation among others. *)
Definition rec_admin : AvcContext :=
  {| granted := false; operation := {["sys_admin"; "read"]};
     scontext := {| m_context := "mydomain" |};
     tcontext := {| m_context := "self" |};
     tclass := "capability"; misc_attributes := ∅;
     permissive := false; stale := false |}.

(** A string between double quotes. *)
Definition quoted (s : string) : string :=
  String dquote (s +:+ String dquote EmptyString).

(** A property-only denial and a denial with a destination value. *)
Definition line_prop_only : string :=
  "W libc    : Access denied finding property " +:+ quoted "ro.vendor.foo".

Definition line_prop_dest : string :=
  "W libc    : Unable to set property " +:+ quoted "ctl.start" +:+ " to "
    +:+ quoted "vendor.foo".

(** A denial by an untrusted application, as in the first end-to-end
    scenario. *)
Definition line_untrusted : string :=
  "avc: denied { read write } for comm=" +:+ quoted "foo"
    +:+ " scontext=u:r:untrusted_app:s0 tcontext=u:object_r:sdcard_type:s0"
    +:+ " tclass=dir permissive=1".

(** A denial whose operation list is cut off before the closing brace. *)
Definition line_unterminated : string :=
  "audit: type=1400 avc: denied { read write".

(** A denial as kernels without the [permissive=] field print it. *)
Definition line_no_permissive : string :=
  "avc: denied { read } for pid=1 comm=" +:+ quoted "init"
    +:+ " scontext=u:r:init:s0 tcontext=u:object_r:proc:s0 tclass=file".

(** The record the constructor leaves for [line_no_permissive]:
    [permissive] is not assigned. *)
Definition rec_no_permissive (u : Indeterminate) : AvcContext :=
  {| granted := false; operation := {["read"]};
     scontext := {| m_context := "init" |};
     tcontext := {| m_context := "proc" |};
     tclass := "file";
     misc_attributes := {["pid" := "1"; "comm" := "init"]};
     permissive := any_permissive u; stale := true |}.

(** Storage that holds a set bit in the place of both members. *)
Definition all_set : Indeterminate :=
  {| any_granted := true; any_permissive := true |}.

(** A matcher body that hands its continuation a capture list as long as
    the one it was given. *)
Definition keeps_length {A}
    (body : string → Regex.caps → (string → Regex.caps → option A) → option A) : Prop :=
  ∀ s c k x, body s c k = Some x →
    ∃ s' c', length c' = length c ∧ k s' c' = Some x.

(** *** Notions for the merge sweep *)

(** The members [operator+=] compares, as one value. *)
Definition rule_key (e : AvcContext) : bool * SEContext * SEContext * string :=
  (granted e, scontext e, tcontext e, tclass e).

(** What [operator<<] writes for a record that is not stale, from the
    members it reads. *)
Definition print_live (k : bool * SEContext * SEContext * string)
    (ops : gset string) : string :=
  print_AvcContext
    {| granted := k.1.1.1; operation := ops; scontext := k.1.1.2;
       tcontext := k.1.2; tclass := k.2; misc_attributes := ∅;
       permissive := false; stale := false |}.

(** [w'] is a later state of the vector [w]: same length, same keys at every
    index, and no stale record has come back. *)
Definition evolves (w w' : list AvcContext) : Prop :=
  length w' = length w
  ∧ ∀ p e', w' !! p = Some e' →
      ∃ e, w !! p = Some e ∧ rule_key e = rule_key e'
           ∧ (stale e' = false → stale e = false).

(** The records at [i] and [j] are not both live with one key. *)
Definition settled (i j : nat) (w : list AvcContext) : Prop :=
  ∀ a b, w !! i = Some a → w !! j = Some b →
    stale a = false → stale b = false → rule_key a ≠ rule_key b.

(** Some live record of [w] with key [k] has the operation [x]. *)
Definition in_class (k : bool * SEContext * SEContext * string) (x : string)
    (w : list AvcContext) : Prop :=
  ∃ e, e ∈ w ∧ stale e = false ∧ rule_key e = k ∧ x ∈ operation e.

(** Some live record of [w] has the key [k]. *)
Definition live_key (k : bool * SEContext * SEContext * string)
    (w : list AvcContext) : Prop :=
  ∃ e, e ∈ w ∧ stale e = false ∧ rule_key e = k.

(** Key and operations of a record. *)
Definition key_ops (e : AvcContext)
    : bool * SEContext * SEContext * string * gset string :=
  (rule_key e, operation e).

(** *** The documented shape of a denial line *)

Definition no_space (s : string) : bool :=
  Str.forallb (λ a, negb (Str.isspace a)) s.

(** What the stream extraction yields: not empty and free of white space. *)
Definition is_token (s : string) : Prop :=
  s ≠ EmptyString ∧ no_space s = true.

(** The text [key=value] of a pair. *)
Definition attr_token (kv : string * string) : string :=
  kv.1 +:+ String "="%char kv.2.

Definition status_token (granted0 : bool) : string :=
  if granted0 then "granted" else "denied".

(** Marker, status, the operation names between braces, [for], the pairs. *)
Definition denial_tokens (granted0 : bool) (ops : list string)
    (kvs : list (string * string)) : list string :=
  "avc:" :: status_token granted0 :: "{" :: ops
    ++ "}" :: "for" :: (attr_token <$> kvs).

(** The line: anything that does not hold the marker, then the tokens. *)
Definition denial_line (prefix : string) (granted0 : bool) (ops : list string)
    (kvs : list (string * string)) : string :=
  prefix +:+ Str.unwords (denial_tokens granted0 ops kvs).

Definition required_keys : list string :=
  ["scontext"; "tcontext"; "tclass"; "permissive"].

(** A well-formed pair: its text is one token and the key has no [=]. *)
Definition attr_ok (kv : string * string) : Prop :=
  no_space (attr_token kv) = true ∧ Str.find_char "="%char kv.1 = None.

(** The pairs with the quotes of the values trimmed. *)
Definition trimmed (kvs : list (string * string)) : list (string * string) :=
  (λ kv, (kv.1, TrimDoubleQuote kv.2)) <$> kvs.

(** A context label in the canonical form. *)
Definition canonical_label (object : bool) (name extra : string) : string :=
  "u:" +:+ (if object then "object_" else EmptyString) +:+ "r:" +:+ name
    +:+ ":s0" +:+ extra.

(** The short name a label stands for: the name part of a canonical label,
    the label itself when it is not of the form of [kSEContextRegex]. *)
Inductive short_name : string → string → Prop :=
| short_canonical (object : bool) (name extra : string) :
    name ≠ EmptyString →
    Str.forallb name_char name = true →
    Str.forallb Regex.is_dot extra = true →
    short_name (canonical_label object name extra) name
| short_verbatim (text : string) :
    Regex.regex_match kSEContextRegex text = None →
    short_name text text.

(** *** What a pattern matches *)

(** The strings a pattern stands for, anchors read as the empty string. *)
Fixpoint lang (r : Regex.regex) (m : string) : Prop :=
  match r with
  | Regex.Eps | Regex.Bol | Regex.Eol => m = EmptyString
  | Regex.Lit a => m = String a EmptyString
  | Regex.Class p => ∃ a, m = String a EmptyString ∧ p a = true
  | Regex.Seq r1 r2 => ∃ m1 m2, m = m1 +:+ m2 ∧ lang r1 m1 ∧ lang r2 m2
  | Regex.Plus r1 => ∃ ms, ms ≠ [] ∧ m = concat_str ms ∧ Forall (lang r1) ms
  | Regex.Opt r1 => m = EmptyString ∨ lang r1 m
  | Regex.Group _ r1 => lang r1 m
  end.

(** A matcher body that consumes a string of [L] before its continuation. *)
Definition consumes {A} (L : string → Prop)
    (body : string → Regex.caps → (string → Regex.caps → option A) → option A) : Prop :=
  ∀ s c k x, body s c k = Some x →
    ∃ m s' c', s = m +:+ s' ∧ L m ∧ k s' c' = Some x.

(** The pairs of a denial of [ioctl] on a device node. *)
Definition ioctl_pairs : list (string * string) :=
  [ ("comm", quoted "bar"); ("scontext", "u:r:mydomain:s0");
    ("tcontext", "u:object_r:vendor_device:s0"); ("tclass", "chr_file");
    ("permissive", "0") ].

Definition audit_prefix : string := "type=1400 audit(0.0:7): ".

(** *** Further vocabulary *)

(** The part of a string between its first and its last character. *)
Definition inner (v : string) : string :=
  Str.take (Str.size v - 2) (Str.drop 1 v).

(** A label is canonical: [u:(object_)?r:<name>:s0<extra>] with a name of
    [[\w-]] characters and nothing of a line terminator behind it. *)
Definition is_canonical (text name : string) : Prop :=
  ∃ (object : bool) (extra : string),
    text = canonical_label object name extra
    ∧ name ≠ EmptyString
    ∧ Str.forallb name_char name = true
    ∧ Str.forallb Regex.is_dot extra = true.

(** The string holds the marker somewhere. *)
Definition contains (needle line : string) : Prop :=
  ∃ pre post, line = pre +:+ needle +:+ post.

(** The value of the first pair with the key [k]. *)
Fixpoint first_value (k : string) (kvs : list (string * string)) : option string :=
  match kvs with
  | [] => None
  | kv :: kvs' => if String.eqb kv.1 k then Some kv.2 else first_value k kvs'
  end.

(** The value of the first pair with the key [k], as the constructor stores
    it. *)
Definition stored_value (k : string) (kvs : list (string * string)) : option string :=
  TrimDoubleQuote <$> first_value k kvs.

(** The keys among [scontext], [tcontext] and [tclass] with no pair, in the
    order the constructor asks for them. *)
Definition missing_keys (kvs : list (string * string)) : list string :=
  filter (λ k, first_value k kvs = None) ["scontext"; "tcontext"; "tclass"].

(** The value of [permissive=] reads as [0] or [1]. *)
Definition permissive_value (v : string) : option bool :=
  match Str.read_int v with
  | Some 0%Z => Some false
  | Some 1%Z => Some true
  | _ => None
  end.

(** A token of the attribute part cut at its first [=]: key and raw value. *)
Definition split_attr (tok : string) : option (string * string) :=
  (λ idx, (Str.take idx tok, Str.drop (idx + 1) tok)) <$> Str.find_char "="%char tok.

(** The pairs among the tokens of the attribute part, and the tokens that
    hold no [=]. *)
Definition pairs_of (attrs : list string) : list (string * string) :=
  omap split_attr attrs.

Definition junk_of (attrs : list string) : list string :=
  filter (λ t, Str.find_char "="%char t = None) attrs.

(** A line of the documented shape with any tokens behind [for]. *)
Definition raw_line (prefix : string) (granted0 : bool) (ops attrs : list string)
    : string :=
  prefix +:+ Str.unwords
    ("avc:" :: status_token granted0 :: "{" :: ops ++ "}" :: "for" :: attrs).

(** The record the constructor has built when it gives up before the
    attributes: [permissive] is not assigned. *)
Definition rec_no_attributes (u : Indeterminate) (granted0 : bool)
    (ops : gset string) : AvcContext :=
  {| granted := granted0; operation := ops;
     scontext := scontext (AvcContext_init u);
     tcontext := tcontext (AvcContext_init u);
     tclass := EmptyString; misc_attributes := ∅;
     permissive := any_permissive u; stale := true |}.

(** Pairs with the target class and the enforcement flag given twice. *)
Definition pairs_twice : list (string * string) :=
  [ ("scontext", "u:r:init:s0"); ("tcontext", "u:object_r:proc:s0");
    ("tclass", "file"); ("tclass", "dir");
    ("permissive", "1"); ("permissive", "0") ].

(** Pairs with the source only. *)
Definition pairs_source_only : list (string * string) :=
  [ ("comm", quoted "init"); ("scontext", "u:r:init:s0") ].

(** Pairs with an enforcement flag that is no number. *)
Definition pairs_bad_permissive : list (string * string) :=
  [ ("scontext", "u:r:init:s0"); ("tcontext", "u:object_r:proc:s0");
    ("tclass", "file"); ("permissive", "yes") ].

(** Attribute tokens of a denial on a file whose name holds a space. *)
Definition attrs_spaced_name : list string :=
  [ "name=" +:+ String dquote "My"; "File" +:+ String dquote EmptyString;
    "scontext=u:r:init:s0"; "tcontext=u:object_r:proc:s0"; "tclass=file";
    "permissive=0" ].

(** The tokens of the attribute part that hold a [=]. *)
Definition pair_tokens (attrs : list string) : list string :=
  filter (λ t, Str.find_char "="%char t ≠ None) attrs.

(** A denial whose target, not its source, is an untrusted application. *)
Definition line_untrusted_target : string :=
  "avc: denied { sigkill } for scontext=u:r:init:s0"
    +:+ " tcontext=u:r:untrusted_app_29:s0:c1,c2 tclass=process permissive=0".

(** The operations of the live records of [v] with the key [k]. *)
Definition class_ops (k : bool * SEContext * SEContext * string)
    (v : list AvcContext) : gset string :=
  ⋃ (operation <$> filter (λ e, stale e = false ∧ rule_key e = k) v).

(** [w'] is [w] with operations added to live records and live records
    marked stale, and nothing else. *)
Definition extends (w w' : list AvcContext) : Prop :=
  length w' = length w
  ∧ ∀ p e', w' !! p = Some e' →
      ∃ e, w !! p = Some e
        ∧ rule_key e' = rule_key e
        ∧ misc_attributes e' = misc_attributes e
        ∧ permissive e' = permissive e
        ∧ operation e ⊆ operation e'
        ∧ (stale e = true → e' = e).

(** The record at the index [p] is live. *)
Definition live_at (p : nat) (w : list AvcContext) : Prop :=
  ∃ e, w !! p = Some e ∧ stale e = false.

(** [constexpr int BUF_SIZE] of LoggerInternal.h *)
Definition BUF_SIZE : nat := 4096.

(** ** KernelConfig.cpp *)

(** [enum ConfigValue] *)
Inductive ConfigValue : Type :=
| UNKNOWN | BUILT_IN | STRING | INT | MODULE | UNSET.

Global Instance ConfigValue_eq_dec : EqDecision ConfigValue.
Proof. solve_decision. Defined.

(** Patterns with alternatives, over the patterns of [Regex]. *)
Inductive aregex : Type :=
| APat (r : Regex.regex)
| ASeq (r1 r2 : aregex)
| AAlt (r1 r2 : aregex)            (* r1|r2 , the left one first *)
| AGroup (i : nat) (r : aregex).

Fixpoint amatch {A} (n : nat) (r : aregex) (s : string) (c : Regex.caps)
    (k : string → Regex.caps → option A) {struct r} : option A :=
  match r with
  | APat r0 => Regex.rmatch n r0 s c k
  | ASeq r1 r2 => amatch n r1 s c (λ s' c', amatch n r2 s' c' k)
  | AAlt r1 r2 =>
      match amatch n r1 s c k with
      | Some x => Some x
      | None => amatch n r2 s c k
      end
  | AGroup i r1 =>
      amatch n r1 s c
        (λ s' c', k s' (<[i:=Some (Str.take (Str.size s - Str.size s') s)]> c'))
  end.

(** [std::regex_match(s, r)] without a result object: whether the whole of
    [s] matches. *)
Definition aregex_match (r : aregex) (s : string) : bool :=
  bool_decide (is_Some
    (amatch (Str.size s) r s []
       (λ s' _, match s' with EmptyString => Some () | _ => None end))).

(** [^#\sCONFIG_\w+ is not set$] *)
Definition kDisabledConfig : Regex.regex :=
  Regex.seqs
    [ Regex.Bol; Regex.Lit "#"%char; Regex.space; Regex.lit "CONFIG_";
      Regex.Plus Regex.word; Regex.lit " is not set"; Regex.Eol ].

(** [^CONFIG_\w+=(y|m|(")?(.+)?(")?)$] *)
Definition kEnabledConfig : aregex :=
  ASeq
    (APat (Regex.seqs [ Regex.Bol; Regex.lit "CONFIG_"; Regex.Plus Regex.word;
                        Regex.Lit "="%char ]))
    (ASeq
       (AGroup 1
          (AAlt (APat (Regex.Lit "y"%char))
             (AAlt (APat (Regex.Lit "m"%char))
                (APat (Regex.seqs
                         [ Regex.Opt (Regex.Group 2 (Regex.Lit dquote));
                           Regex.Opt (Regex.Group 3 (Regex.Plus Regex.anychar));
                           Regex.Opt (Regex.Group 4 (Regex.Lit dquote)) ])))))
       (APat Regex.Eol)).

(** [line[i]] for [i <= line.size()]: the null character at [i = size()]. *)
Definition char_at (i : nat) (s : string) : ascii :=
  default "000"%char (String.get i s).

(** The [switch] on the first character of the value. *)
Definition value_of_char (c : ascii) : option ConfigValue :=
  if Ascii.eqb c "y"%char then Some BUILT_IN
  else if Ascii.eqb c "m"%char then Some MODULE
  else if Ascii.eqb c dquote then Some STRING
  else if Ascii.eqb c "-"%char || Str.in_range "0"%char "9"%char c then Some INT
  else None.

(** [outvec.emplace(config, value)]: an existing key keeps its value. *)
Definition config_emplace (k : string) (v : ConfigValue)
    (m : gmap string ConfigValue) : gmap string ConfigValue :=
  match m !! k with
  | Some _ => m
  | None => <[k:=v]> m
  end.

(** What [parseOneConfigLine] logs. *)
Inductive config_diag : Type :=
| UnknownConfigValue (c : ascii)        (* Unknown config value: %c *)
| UnparsableLine (line : string).       (* Unparsable line: '%s' *)

(** [s.substr(0, s.find_first_of(c))] *)
Definition upto (c : ascii) (s : string) : string :=
  match Str.find_char c s with
  | Some i => Str.take i s
  | None => s
  end.

(** [parseOneConfigLine]: the value returned, [outvec] after the call and
    the warnings. *)
Definition parseOneConfigLine (line : string) (outvec : gmap string ConfigValue)
    : outcome (bool * gmap string ConfigValue * list config_diag) :=
  if aregex_match kEnabledConfig line then
    let c := char_at (match Str.find_char "="%char line with
                      | Some i => i + 1
                      | None => 0                       (* npos + 1 *)
                      end) line in
    match value_of_char c with
    | Some value => Done (true, config_emplace (upto "="%char line) value outvec, [])
    | None => Done (true, outvec, [UnknownConfigValue c])
    end
  else if bool_decide (is_Some (Regex.regex_match kDisabledConfig line)) then
    if Str.size line <? 2 then Thrown                    (* line.substr(2) *)
    else
      Done (true, config_emplace (upto " "%char (Str.drop 2 line)) UNSET outvec, [])
  else
    match line with
    | EmptyString => Done (true, outvec, [])
    | String a _ =>
        if Ascii.eqb a "#"%char then Done (true, outvec, [])
        else Done (false, outvec, [UnparsableLine line])
    end.

(** The loop [while (std::getline(ss, line))] over a text: the lines, a last
    one without its newline included.  [cur] is the line being read. *)
Fixpoint getlines_go (cur : string) (s : string) : list string :=
  match s with
  | EmptyString => match cur with EmptyString => [] | _ => [cur] end
  | String a s' =>
      if Ascii.eqb a "010"%char then cur :: getlines_go EmptyString s'
      else getlines_go (cur +:+ String a EmptyString) s'
  end.

Definition getlines (s : string) : list string := getlines_go EmptyString s.

(** The loop [rc |= !parseOneConfigLine(line, out)] of [ReadKernelConfig]. *)
Fixpoint parse_config_lines (lines : list string) (rc : Z)
    (out : gmap string ConfigValue) (log : list config_diag)
    : outcome (Z * gmap string ConfigValue * list config_diag) :=
  match lines with
  | [] => Done (rc, out, log)
  | line :: lines' =>
      match parseOneConfigLine line out with
      | Done (ret, out', d) =>
          parse_config_lines lines' (Z.lor rc (if ret then 0 else 1)) out' (log ++ d)
      | OutOfRange => OutOfRange
      | Thrown => Thrown
      end
  end.

(** What [ReadKernelConfig] gets from the system: the result of [stat] with
    its [errno], the [errno] of a [gzopen] that returns no stream, for every
    call of [gzread] the value it returns with the content of [buf] behind it
    (after the last of them [gzread] returns 0), and the value of
    [errnum == Z_ERRNO ? -errno : errnum] behind [gzerror]. *)
Record config_io : Type := {
  stat_rc : Z;
  stat_errno : Z;
  gzopen_errno : option Z;
  gz_reads : list (Z * string);
  gz_error : Z
}.

(** An [int] stored in a [size_t] of 64 bits. *)
Definition to_size_t (r : Z) : Z := (r mod 2 ^ 64)%Z.

(** What follows the loop of [ReadConfigGz], [len] being 0 there. *)
Definition ReadConfigGz_end (gz_error len : Z) (out : string)
    : outcome (Z * string) :=
  if (len <? 0)%Z then Done (gz_error, out) else Done (0%Z, out).

(** The loop [while ((len = gzread(f, buf.data(), buf.size())) != 0u)] of
    [ReadConfigGz] and what follows it.  [out.append(buf.data(), len)] throws
    [std::length_error] before it copies anything when the string cannot
    grow by [len]; a length of 2^63 or more, which is what a negative [int]
    becomes in [len], is beyond [max_size()] whatever [out] holds.  A length
    between the size of [buf] and that has [append] read beyond [buf]. *)
Fixpoint ReadConfigGz_loop (gz_error : Z) (reads : list (Z * string)) (out : string)
    : outcome (Z * string) :=
  match reads with
  | [] => ReadConfigGz_end gz_error (to_size_t 0) out
  | (r, buf) :: reads' =>
      let len := to_size_t r in
      if (len =? 0)%Z then ReadConfigGz_end gz_error len out
      else if (2 ^ 63 <=? len)%Z then Thrown          (* std::length_error *)
      else if (len <=? Z.of_nat BUF_SIZE)%Z
      then ReadConfigGz_loop gz_error reads' (out +:+ Str.take (Z.to_nat len) buf)
      else OutOfRange                (* append(buf.data(), len) beyond buf *)
  end.

(** [ReadConfigGz]: the value returned and [out] after the call. *)
Definition ReadConfigGz (io : config_io) (out : string) : outcome (Z * string) :=
  match gzopen_errno io with
  | Some e => Done ((- e)%Z, out)
  | None => ReadConfigGz_loop (gz_error io) (gz_reads io) out
  end.

(** [ReadKernelConfig]: the value returned, [out] after the call and the
    warnings. *)
Definition ReadKernelConfig (io : config_io) (out : gmap string ConfigValue)
    : outcome (Z * gmap string ConfigValue * list config_diag) :=
  if (stat_rc io <? 0)%Z then Done ((- stat_errno io)%Z, out, [])
  else
    match ReadConfigGz io EmptyString with
    | Done (rc, buf) =>
        if (rc <? 0)%Z then Done (rc, out, [])
        else parse_config_lines (getlines buf) rc ∅ []
    | OutOfRange => OutOfRange
    | Thrown => Thrown
    end.

(** The part of [main] that decides on the denial filter: whether
    [kAvcFilter] and [kAvcCtx] are still set behind it. *)
Definition avc_filter_kept (io : config_io) : outcome bool :=
  match ReadKernelConfig io ∅ with
  | Done (rc, kConfig, _) =>
      Done (if (rc =? 0)%Z
            then bool_decide (default UNKNOWN (kConfig !! "CONFIG_AUDIT") = BUILT_IN)
            else true)
  | OutOfRange => OutOfRange
  | Thrown => Thrown
  end.

(** *** Vocabulary for the kernel configuration *)

(** [CONFIG_<name>=<value>] *)
Definition enabled_line (name value : string) : string :=
  "CONFIG_" +:+ name +:+ String "="%char value.

(** [# CONFIG_<name> is not set], [a] the white space behind [#]. *)
Definition disabled_line (a : ascii) (name : string) : string :=
  String "#"%char (String a ("CONFIG_" +:+ name +:+ " is not set")).

Definition is_word (name : string) : Prop :=
  name ≠ EmptyString ∧ Str.forallb Regex.wordchar name = true.

(** A line of the form [CONFIG_<name>=<value>]. *)
Definition is_enabled_line (line : string) : Prop :=
  ∃ name value, line = enabled_line name value ∧ is_word name
    ∧ Str.forallb Regex.is_dot value = true.

(** A line [ReadKernelConfig] counts as an error. *)
Definition rejected (line : string) : Prop :=
  line ≠ EmptyString ∧ Str.starts_with "#" line = false ∧ ¬ is_enabled_line line.

(** The line is about the option [key]: it sets it or says it is not set. *)
Definition mentions (line key : string) : Prop :=
  ∃ name, is_word name ∧ key = "CONFIG_" +:+ name
    ∧ ((∃ value, line = enabled_line name value)
       ∨ (∃ a, Str.isspace a = true ∧ line = disabled_line a name)).

(** The line gives the option [key] the value [v]. *)
Definition defines (line key : string) (v : ConfigValue) : Prop :=
  ∃ name, is_word name ∧ key = "CONFIG_" +:+ name
    ∧ ((∃ value, line = enabled_line name value
          ∧ Str.forallb Regex.is_dot value = true
          ∧ value_of_char (char_at 0 value) = Some v)
       ∨ (∃ a, Str.isspace a = true ∧ line = disabled_line a name ∧ v = UNSET)).

(** What [gzread] returns and leaves in [buf] when it reads the piece [c]. *)
Definition read_of (c : string) : Z * string := (Z.of_nat (Str.size c), c).

(** Input and output succeeded and gave [text]: [stat] returned 0, [gzopen]
    a stream, and the calls of [gzread] the text in pieces that fit the
    buffer. *)
Definition io_ok (io : config_io) (text : string) : Prop :=
  stat_rc io = 0%Z ∧ gzopen_errno io = None
  ∧ ∃ chunks, Forall (λ c, 0 < Str.size c ≤ BUF_SIZE) chunks
      ∧ gz_reads io = read_of <$> chunks
      ∧ text = concat_str chunks.

(** A configuration with the audit option set twice and a line that is no
    configuration line. *)
Definition config_text_audit : string :=
  "# Automatically generated" +:+ newline +:+ newline
    +:+ "CONFIG_AUDIT=y" +:+ newline
    +:+ "# CONFIG_MODULES is not set" +:+ newline
    +:+ "CONFIG_AUDIT=m" +:+ newline.

Definition config_text_broken : string :=
  "# CONFIG_AUDIT is not set" +:+ newline +:+ "Linux/arm64 5.10 Kernel Configuration"
    +:+ newline.

(** The text read in one piece. *)
Definition io_of (text : string) : config_io :=
  {| stat_rc := 0; stat_errno := 0; gzopen_errno := None;
     gz_reads := [read_of text]; gz_error := 0 |}.

(** The strings a pattern with alternatives stands for. *)
Fixpoint alang (r : aregex) (m : string) : Prop :=
  match r with
  | APat r0 => lang r0 m
  | ASeq r1 r2 => ∃ m1 m2, m = m1 +:+ m2 ∧ alang r1 m1 ∧ alang r2 m2
  | AAlt r1 r2 => alang r1 m ∨ alang r2 m
  | AGroup _ r1 => alang r1 m
  end.

(** ** Logger.cpp: the reading loop and the output files *)

(** [fgets(buf, n, fp)] on a stream with the characters [fp] left: the
    characters stored, at most [room = n - 1] and none behind the first
    newline, and the stream behind them. *)
Fixpoint fgets_go (room : nat) (fp : string) : string * string :=
  match room, fp with
  | S room', String a fp' =>
      if Ascii.eqb a "010"%char then (String a EmptyString, fp')
      else let '(buf, rest) := fgets_go room' fp' in (String a buf, rest)
  | _, _ => (EmptyString, fp)
  end.

(** [None] for the null pointer [fgets] returns at the end of the stream. *)
Definition fgets (n : nat) (fp : string) : option (string * string) :=
  match fp with
  | EmptyString => None
  | String _ _ => Some (fgets_go (n - 1) fp)
  end.

(** [buf.data()] read as a C string: the characters before the first null
    character. *)
Fixpoint c_str (buf : string) : string :=
  match buf with
  | EmptyString => EmptyString
  | String a buf' =>
      if Ascii.eqb a "000"%char then EmptyString else String a (c_str buf')
  end.

(** [LoggerContext::startLogger] with an open stream: [runs] is the number of
    times the loop finds [*run] true, [handle] the body of the inner loop
    (the filters with their files, then the file of the context itself), [st]
    what it works on.  The stream left and the state at the end. *)
Fixpoint startLogger_loop {St} (handle : string → St → St) (runs : nat)
    (fp : string) (st : St) : string * St :=
  match runs with
  | 0 => (fp, st)
  | S runs' =>
      match fgets 512 fp with
      | Some (buf, fp') =>
          startLogger_loop handle runs' fp'
            (foldl (λ st line, handle line st) st (getlines (c_str buf)))
      | None => startLogger_loop handle runs' fp st
      end
  end.

(** The file of an [OutputContext] that was opened: the characters in the
    file, the characters the stream [ofs] still holds, and [len]. *)
Record OutputContext : Type := {
  on_disk : string;
  pending : string;
  len : nat
}.

Definition OutputContext_init : OutputContext :=
  {| on_disk := EmptyString; pending := EmptyString; len := 0 |}.

(** [OutputContext::operator<<].  [spill] is the number of characters the
    stream library writes to the file on its own while it takes the data. *)
Definition OutputContext_write (data : string) (spill : nat) (o : OutputContext)
    : OutputContext :=
  let len1 := len o + Str.size data in
  let '(disk1, pending1, len2) :=
    if BUF_SIZE <? len1
    then (on_disk o +:+ pending o, EmptyString, 0)       (* ofs.flush(); len = 0 *)
    else (on_disk o, pending o, len1) in
  let pending2 := pending1 +:+ data +:+ newline in       (* ofs << data << "\n" *)
  {| on_disk := disk1 +:+ Str.take spill pending2;
     pending := Str.drop spill pending2;
     len := len2 |}.

(** [OutputContext::~OutputContext]: the body looks at the size of the file
    and removes it when it is 0; [ofs] is closed only behind the body.  The
    file that is left, [None] when it was removed. *)
Definition OutputContext_dtor (o : OutputContext) : option string :=
  if Str.size (on_disk o) =? 0 then None
  else Some (on_disk o +:+ pending o).

(** A sequence of calls of [operator<<], each with what the library does. *)
Definition OutputContext_writes (ws : list (string * nat)) (o : OutputContext)
    : OutputContext :=
  foldl (λ o w, OutputContext_write w.1 w.2 o) o ws.

(** *** Vocabulary for the reading loop *)

(** Neither a newline nor a null character in the line. *)
Definition plain (l : string) : Prop :=
  Str.forallb (λ a, negb (Ascii.eqb a "010"%char) && negb (Ascii.eqb a "000"%char)) l
  = true.

(** The lines, each with its newline. *)
Definition unlines (ls : list string) : string :=
  concat_str ((λ l, l +:+ newline) <$> ls).

(** The number of characters handed to [operator<<]. *)
Definition payload (ws : list (string * nat)) : nat :=
  foldr (λ w n, Str.size w.1 + n) 0 ws.

(** A line of 600 characters and a text of 4100. *)
Definition long_line : string := concat_str (replicate 60 "0123456789").
Definition big_text : string := concat_str (replicate 410 "0123456789").

(** *** From the stream to the rule file *)

(** The body of the loop of [startLogger] as far as the collection goes: the
    denial filter is called with the line; [st] is its [_ctx].  [any] gives
    what the storage of the next element holds, by the collection so far. *)
Definition handle_avc (any : option (list AvcContext) → Indeterminate)
    (line : string) (st : outcome (option (list AvcContext)))
    : outcome (option (list AvcContext)) :=
  match st with
  | Done _ctx =>
      match AvcFilterContext_filter (any _ctx) line _ctx with
      | Done (_, _ctx') => Done _ctx'
      | OutOfRange => OutOfRange
      | Thrown => Thrown
      end
  | OutOfRange => OutOfRange
  | Thrown => Thrown
  end.

(** The operation names between the braces, each behind a space. *)
Fixpoint ops_text (ops : list string) : string :=
  match ops with
  | [] => EmptyString
  | op :: ops' => String " "%char (op +:+ ops_text ops')
  end.

(** A denial of [read] and one of [write] on the same file. *)
Definition attrs_init_proc : list string :=
  [ "scontext=u:r:init:s0"; "tcontext=u:object_r:proc:s0"; "tclass=file";
    "permissive=0" ].

Definition stream_two_denials : list string :=
  [ raw_line audit_prefix false ["read"] attrs_init_proc;
    "logd: started";
    raw_line audit_prefix false ["write"] attrs_init_proc ].

(** A first read that gives a line, then a read that fails. *)
Definition io_failed_read : config_io :=
  {| stat_rc := 0; stat_errno := 0; gzopen_errno := None;
     gz_reads := [read_of "CONFIG_AUDIT=y"; ((-1)%Z, EmptyString)];
     gz_error := (-1)%Z |}.

(** *** Lines with any white space between the tokens *)

(** A run of white space between two tokens. *)
Definition is_blank (s : string) : Prop :=
  s ≠ EmptyString ∧ Str.forallb Str.isspace s = true.

(** The words of [l], each followed by the text of [seps] at its place. *)
Fixpoint spaced (l seps : list string) : string :=
  match l, seps with
  | w :: l', sep :: seps' => w +:+ sep +:+ spaced l' seps'
  | _, _ => EmptyString
  end.

(** The denial line with [seps] between its tokens, one entry for each two
    neighbours, and [trail] behind the last one. *)
Definition denial_line_spaced (prefix : string) (granted0 : bool)
    (ops : list string) (kvs : list (string * string))
    (seps : list string) (trail : string) : string :=
  prefix +:+ spaced (denial_tokens granted0 ops kvs) (seps ++ [trail]).

(** The white space of the line of the second end-to-end scenario as the
    kernel writes it, with two blanks behind [avc:] and behind [denied]. *)
Definition ioctl_seps : list string :=
  ["  "; "  "; " "; " "; " "; " "; " "; " "; " "; " "].

Definition tab : string := String "009"%char EmptyString.

(** *** The rule line of a key *)

(** [allow source target:class operations;] for the names in the order
    given: one name stands alone, more stand between braces. *)
Definition rule_text (k : bool * SEContext * SEContext * string)
    (names : list string) : string :=
  "allow " +:+ m_context k.1.1.2 +:+ " " +:+ m_context k.1.2 +:+ ":" +:+ k.2 +:+ " "
    +:+ match names with
        | [x] => x
        | _ => "{ " +:+ concat_str ((λ op, op +:+ " ") <$> names) +:+ "}"
        end
    +:+ ";".

(** ** Strings and the tokenizer *)

Section Strings.

Implicit Types (s t w cur : string) (a : ascii) (l : list string).

Lemma str_app_nil_r s : s +:+ EmptyString = s.
Proof. induction s as [|a s IH]; simpl; [done|]. unfold String.app. simpl. by f_equal. Qed.

Lemma str_app_cons a s t : String a s +:+ t = String a (s +:+ t).
Proof. done. Qed.

Lemma str_app_assoc s t w : (s +:+ t) +:+ w = s +:+ (t +:+ w).
Proof.
  induction s as [|a s IH]; [done|]. rewrite !str_app_cons. by f_equal.
Qed.

Lemma str_size_app s t : Str.size (s +:+ t) = Str.size s + Str.size t.
Proof. induction s as [|a s IH]; [done|]. rewrite str_app_cons. simpl. by f_equal. Qed.

Lemma str_take_app s t : Str.take (Str.size s) (s +:+ t) = s.
Proof.
  induction s as [|a s IH]; [by destruct t|]. rewrite str_app_cons. simpl. by f_equal.
Qed.

Lemma str_drop_app s t : Str.drop (Str.size s) (s +:+ t) = t.
Proof. induction s as [|a s IH]; [done|]. by rewrite str_app_cons. Qed.

Lemma str_forallb_app p s t :
  Str.forallb p (s +:+ t) = Str.forallb p s && Str.forallb p t.
Proof.
  induction s as [|a s IH]; [done|]. rewrite str_app_cons. simpl.
  by rewrite IH, andb_assoc.
Qed.

Lemma ascii_eqb_refl a : Ascii.eqb a a = true.
Proof. by apply Ascii.eqb_eq. Qed.

Lemma starts_with_app needle s : Str.starts_with needle (needle +:+ s) = true.
Proof.
  induction needle as [|a n IH]; [done|]. rewrite str_app_cons. simpl.
  by rewrite ascii_eqb_refl.
Qed.

Lemma starts_with_longer needle t s :
  Str.size needle ≤ Str.size t →
  Str.starts_with needle (t +:+ s) = Str.starts_with needle t.
Proof.
  revert t. induction needle as [|a n IH]; intros t Hle; [done|].
  destruct t as [|b t]; simpl in Hle; [lia|]. rewrite str_app_cons. simpl.
  destruct (Ascii.eqb a b); [|done]. apply IH. lia.
Qed.

Lemma find_unfold needle s :
  Str.find needle s
  = if Str.starts_with needle s then Some 0
    else match s with
         | EmptyString => None
         | String _ s' => S <$> Str.find needle s'
         end.
Proof. by destruct s. Qed.

(** The first occurrence of the marker is not moved by what follows it. *)
Lemma find_app needle prefix s :
  Str.find needle (prefix +:+ needle) = Some (Str.size prefix) →
  Str.find needle (prefix +:+ needle +:+ s) = Some (Str.size prefix).
Proof.
  induction prefix as [|a p IH].
  - intros _. change (EmptyString +:+ needle +:+ s) with (needle +:+ s).
    by rewrite find_unfold, starts_with_app.
  - rewrite !str_app_cons. intros H. rewrite find_unfold in H.
    assert (Str.starts_with needle (String a (p +:+ needle)) = false
            ∧ Str.find needle (p +:+ needle) = Some (Str.size p)) as [Hs Hf].
    { destruct (Str.starts_with needle (String a (p +:+ needle))); [done|].
      split; [done|].
      destruct (Str.find needle (p +:+ needle)); simpl in H; congruence. }
    assert (Str.starts_with needle (String a (p +:+ needle +:+ s)) = false) as Hs'.
    { rewrite <- Hs, <- str_app_assoc, <- str_app_cons.
      apply starts_with_longer. simpl. rewrite str_size_app. lia. }
    rewrite find_unfold, Hs', (IH Hf). done.
Qed.

Lemma tokens_go_word w cur s :
  no_space w = true →
  Str.tokens_go cur (w +:+ s) = Str.tokens_go (cur +:+ w) s.
Proof.
  revert cur. induction w as [|a w IH]; intros cur Hw.
  - by rewrite str_app_nil_r.
  - rewrite str_app_cons. simpl in Hw. apply andb_true_iff in Hw as [Ha Hw].
    simpl. destruct (Str.isspace a); [done|].
    rewrite (IH _ Hw), str_app_assoc. done.
Qed.

Lemma tokens_go_end w : w ≠ EmptyString → Str.tokens_go w EmptyString = [w].
Proof. by destruct w. Qed.

Lemma tokens_go_space w s :
  w ≠ EmptyString →
  Str.tokens_go w (String " "%char s) = w :: Str.tokens_go EmptyString s.
Proof. by destruct w. Qed.

(** Tokens joined by single spaces are read back as they are. *)
Lemma tokens_unwords l : Forall is_token l → Str.tokens (Str.unwords l) = l.
Proof.
  unfold Str.tokens. induction 1 as [|w l [Hne Hw] Hl IH]; [done|].
  destruct l as [|w' l].
  - simpl. rewrite <- (str_app_nil_r w) at 1.
    rewrite (tokens_go_word _ _ _ Hw). by apply tokens_go_end.
  - change (Str.unwords (w :: w' :: l))
      with (w +:+ String " "%char (Str.unwords (w' :: l))).
    rewrite (tokens_go_word _ _ _ Hw). change (EmptyString +:+ w) with w.
    rewrite (tokens_go_space _ _ Hne). by rewrite IH.
Qed.

(** White space behind the text adds no token. *)
Lemma tokens_go_trail cur s trail :
  Str.forallb Str.isspace trail = true →
  Str.tokens_go cur (s +:+ trail) = Str.tokens_go cur s.
Proof.
  intros Ht. revert cur. induction s as [|a s IH]; intros cur.
  - change (EmptyString +:+ trail) with trail. revert cur.
    induction trail as [|b t IHt]; intros cur; [done|].
    simpl in Ht. apply andb_true_iff in Ht as [Hb Ht]. simpl. rewrite Hb.
    specialize (IHt Ht EmptyString). simpl in IHt. rewrite IHt. by destruct cur.
  - rewrite str_app_cons. simpl. rewrite !IH. done.
Qed.

(** White space in front of the text adds no token. *)
Lemma tokens_go_skip sep s :
  Str.forallb Str.isspace sep = true →
  Str.tokens_go EmptyString (sep +:+ s) = Str.tokens_go EmptyString s.
Proof.
  induction sep as [|a sep IH]; [done|].
  simpl. intros [Ha Hsep]%andb_true_iff. rewrite Ha. by apply IH.
Qed.

(** A run of white space ends the token being read. *)
Lemma tokens_go_blank w sep s :
  w ≠ EmptyString → is_blank sep →
  Str.tokens_go w (sep +:+ s) = w :: Str.tokens_go EmptyString s.
Proof.
  intros Hw [Hne Hsep]. destruct sep as [|a sep]; [done|].
  simpl in Hsep. apply andb_true_iff in Hsep as [Ha Hsep].
  rewrite str_app_cons. simpl. rewrite Ha, (tokens_go_skip _ _ Hsep).
  by destruct w.
Qed.

(** Tokens with any white space between them are read back as they are. *)
Lemma tokens_spaced l seps trail :
  Forall is_token l → Forall is_blank seps →
  Str.forallb Str.isspace trail = true →
  length l = S (length seps) →
  Str.tokens (spaced l (seps ++ [trail])) = l.
Proof.
  unfold Str.tokens. intros Hl. revert seps.
  induction Hl as [|w l [Hne Hw] Hl IH]; intros seps Hseps Htrail Hlen; [done|].
  destruct seps as [|sep seps].
  - destruct l; [|done]. cbn [app spaced].
    rewrite (tokens_go_word _ _ _ Hw). change (EmptyString +:+ w) with w.
    rewrite str_app_nil_r.
    pose proof (tokens_go_trail w EmptyString trail Htrail) as H.
    change (EmptyString +:+ trail) with trail in H. rewrite H.
    by destruct w.
  - apply Forall_cons in Hseps as [Hsep Hseps]. cbn [app spaced].
    rewrite (tokens_go_word _ _ _ Hw). change (EmptyString +:+ w) with w.
    rewrite (tokens_go_blank _ _ _ Hne Hsep).
    rewrite IH; [done..|]. simpl in Hlen. lia.
Qed.

(** Single spaces are one way to set the tokens apart. *)
Lemma spaced_unwords l :
  l ≠ [] → spaced l (replicate (length l - 1) " " ++ [EmptyString]) = Str.unwords l.
Proof.
  induction l as [|w l IH]; [done|]. intros _.
  destruct l as [|w' l].
  - simpl. by rewrite str_app_nil_r.
  - replace (length (w :: w' :: l) - 1) with (S (length (w' :: l) - 1))
      by (simpl; lia).
    cbn [replicate app].
    change (spaced (w :: w' :: l) (" " :: ?xs))
      with (w +:+ " " +:+ spaced (w' :: l) xs).
    rewrite IH by done. done.
Qed.

End Strings.

(** ** The size of a match result *)

Section MatchSize.

Import Regex.

Lemma reset_length r (c : caps) : length (reset r c) = length c.
Proof.
  unfold reset. induction (groups r) as [|i l IH]; [done|].
  cbn [foldr]. by rewrite length_insert.
Qed.

Lemma star_loop_length {A} (body : string → caps → _ → option A) k fuel s c x :
  keeps_length body →
  star_loop body k fuel s c = Some x →
  ∃ s' c', length c' = length c ∧ k s' c' = Some x.
Proof.
  intros Hbody. revert s c.
  induction fuel as [|fuel IH]; intros s c; simpl; [by eauto|].
  destruct (body s c _) as [y|] eqn:Hb; [|by eauto].
  intros [= ->]. apply Hbody in Hb as (s1 & c1 & Hlen & Hk).
  destruct (Str.size s1 <? Str.size s); [|done].
  apply IH in Hk as (s2 & c2 & Hlen2 & Hk). exists s2, c2. split; [congruence|done].
Qed.

Lemma rmatch_length {A} n r : keeps_length (λ s c k, @rmatch A n r s c k).
Proof.
  induction r as [|a|p|r1 IH1 r2 IH2|r1 IH1|r1 IH1|i r1 IH1| |];
    intros s c k x; simpl.
  - by eauto.
  - destruct s as [|b s']; [done|]. destruct (Ascii.eqb a b); [by eauto|done].
  - destruct s as [|b s']; [done|]. destruct (p b); [by eauto|done].
  - intros H. apply IH1 in H as (s1 & c1 & Hl1 & H).
    apply IH2 in H as (s2 & c2 & Hl2 & H). exists s2, c2. split; [congruence|done].
  - intros H. apply IH1 in H as (s1 & c1 & Hl1 & H).
    apply star_loop_length in H as (s2 & c2 & Hl2 & H).
    + exists s2, c2. split; [|done]. rewrite Hl2, Hl1. apply reset_length.
    + intros s0 c0 k0 x0 H0. apply IH1 in H0 as (s3 & c3 & Hl3 & H0).
      exists s3, c3. split; [|done]. rewrite Hl3. apply reset_length.
  - destruct (rmatch n r1 s (reset r1 c) k) as [y|] eqn:H1; [|by eauto].
    intros [= ->]. apply IH1 in H1 as (s1 & c1 & Hl1 & H1).
    exists s1, c1. split; [|done]. rewrite Hl1. apply reset_length.
  - intros H. apply IH1 in H as (s1 & c1 & Hl1 & H).
    eexists _, _. split; [|exact H]. by rewrite length_insert.
  - destruct (Str.size s =? n); [by eauto|done].
  - destruct s; [by eauto|done].
Qed.

Lemma search_from_size n r s m :
  search_from n r s = Some m → msize m = S (mark_count r).
Proof.
  induction s as [|a s IH]; simpl.
  - destruct (rmatch n r _ _ _) as [m'|] eqn:H; [|done]. intros [= ->].
    apply rmatch_length in H as (s1 & c1 & Hl & [= <-]).
    unfold msize. simpl. rewrite length_insert, Hl. apply length_replicate.
  - destruct (rmatch n r _ _ _) as [m'|] eqn:H; [|by apply IH]. intros [= ->].
    apply rmatch_length in H as (s1 & c1 & Hl & [= <-]).
    unfold msize. simpl. rewrite length_insert, Hl. apply length_replicate.
Qed.

(** [m.size()] after a successful [regex_search] is [1 + mark_count()]. *)
Lemma regex_search_size r s m :
  regex_search r s = Some m → msize m = S (mark_count r).
Proof. apply search_from_size. Qed.

End MatchSize.

(** ** The property filter *)

(** Every match of [kPropertyAccessRegEX] has four sub-matches, so neither
    [size() == 3] nor [size() == 1] holds and the filter matches no line. *)
Lemma libcProp_filter_false line propsDenied :
  libcPropFilterContext_filter line propsDenied = (false, propsDenied).
Proof.
  unfold libcPropFilterContext_filter.
  destruct (Regex.regex_search _ _) as [m|] eqn:Hm; [|done].
  apply regex_search_size in Hm. by rewrite Hm.
Qed.

Lemma libcProp_run_false lines propsDenied :
  libcProp_run lines propsDenied = replicate (length lines) false.
Proof.
  revert propsDenied. induction lines as [|line lines IH]; intros pd; simpl; [done|].
  rewrite libcProp_filter_false. by rewrite IH.
Qed.

(** C3: on a property-only denial the filter returns [false] already the
    first time, and on a denial with a destination value it returns [false]
    as well, although [kPropertyAccessRegEX] matches both lines. *)
Theorem property_filter_matches_nothing :
  is_Some (Regex.regex_search kPropertyAccessRegEX line_prop_only)
  ∧ libcProp_run [line_prop_only; line_prop_only] ∅ = [false; false]
  ∧ is_Some (Regex.regex_search kPropertyAccessRegEX line_prop_dest)
  ∧ libcProp_run [line_prop_dest; line_prop_dest] ∅ = [false; false].
Proof.
  split; [vm_compute; eauto|]. split; [apply libcProp_run_false|].
  split; [vm_compute; eauto|]. apply libcProp_run_false.
Qed.

(** ** Context labels *)

Section RegexLabel.

Import Regex.
Context {A : Type}.
Implicit Types (s w : string) (c : caps) (k : string → caps → option A).

Lemma rmatch_lit n l s c k : rmatch n (lit l) (l +:+ s) c k = k s c.
Proof.
  induction l as [|a l IH]; [done|]. rewrite str_app_cons. simpl.
  by rewrite ascii_eqb_refl.
Qed.

Lemma star_class (body : string → caps → (string → caps → option A) → option A)
    (p : ascii → bool) w s c k x fuel :
  (∀ s c k', body s c k'
     = match s with
       | String b s' => if p b then k' s' c else None
       | EmptyString => None
       end) →
  Str.size w ≤ fuel → Str.forallb p w = true →
  match s with EmptyString => True | String b _ => p b = false end →
  k s c = Some x →
  star_loop body k fuel (w +:+ s) c = Some x.
Proof.
  intros Hbody Hfuel Hw Hs Hk. revert fuel Hfuel.
  induction w as [|a w IH]; intros fuel Hfuel.
  - change (EmptyString +:+ s) with s. destruct fuel as [|fuel]; [done|].
    simpl. rewrite Hbody. destruct s as [|b s]; [by rewrite Hk|]. by rewrite Hs, Hk.
  - rewrite str_app_cons. simpl in Hw, Hfuel. apply andb_true_iff in Hw as [Ha Hw].
    destruct fuel as [|fuel]; [lia|]. simpl. rewrite Hbody, Ha.
    rewrite (proj2 (Nat.ltb_lt _ _)) by lia.
    rewrite (IH Hw fuel) by lia. done.
Qed.

Lemma rmatch_plus_class n (p : ascii → bool) w s c k x :
  w ≠ EmptyString → Str.forallb p w = true →
  match s with EmptyString => True | String b _ => p b = false end →
  k s c = Some x →
  rmatch n (Plus (Class p)) (w +:+ s) c k = Some x.
Proof.
  intros Hne Hw Hs Hk. destruct w as [|a w]; [done|].
  rewrite str_app_cons. simpl in Hw. apply andb_true_iff in Hw as [Ha Hw].
  cbn [rmatch]. rewrite Ha. apply (star_class _ p); try done.
  rewrite str_size_app. lia.
Qed.

Lemma rmatch_opt_take n r s c k x :
  rmatch n r s (reset r c) k = Some x → rmatch n (Opt r) s c k = Some x.
Proof. intros H. simpl. by rewrite H. Qed.

Lemma rmatch_opt_skip n r s c k :
  rmatch n r s (reset r c) k = None → rmatch n (Opt r) s c k = k s c.
Proof. intros H. simpl. by rewrite H. Qed.

Lemma rmatch_Seq n r1 r2 s c k :
  rmatch n (Seq r1 r2) s c k = rmatch n r1 s c (λ s' c', rmatch n r2 s' c' k).
Proof. done. Qed.

Lemma rmatch_Group n i r s c k :
  rmatch n (Group i r) s c k
  = rmatch n r s c
      (λ s' c', k s' (<[i:=Some (Str.take (Str.size s - Str.size s') s)]> c')).
Proof. done. Qed.

Lemma rmatch_Bol s c k : rmatch (Str.size s) Bol s c k = k s c.
Proof. simpl. by rewrite Nat.eqb_refl. Qed.

End RegexLabel.

Section Labels.

Import Regex.

Lemma str_size_sub s t : Str.size (s +:+ t) - Str.size t = Str.size s.
Proof. rewrite str_size_app. lia. Qed.

Lemma SEContext_ctor_canonical o name extra :
  name ≠ EmptyString → Str.forallb name_char name = true →
  Str.forallb is_dot extra = true →
  SEContext_ctor (canonical_label o name extra) = {| m_context := name |}.
Proof.
  intros Hne Hname Hextra. unfold SEContext_ctor.
  assert (∃ m, regex_match kSEContextRegex (canonical_label o name extra) = Some m
               ∧ str m 2 = name) as (m & -> & ->); [|done].
  unfold regex_match.
  set (final := λ (s' : string) (c : caps), match s' with EmptyString => _ | _ => _ end).
  assert (∀ c, ∃ m, final EmptyString c = Some m
                    ∧ str m 2 = default EmptyString (mjoin (c !! 2))) as Hfinal.
  { intros c. eexists. split; [reflexivity|]. unfold str. simpl.
    by rewrite list_lookup_insert_ne. }
  clearbody final.
  unfold kSEContextRegex, seqs. cbn [foldr].
  rewrite rmatch_Seq, rmatch_Bol.
  unfold canonical_label.
  rewrite rmatch_Seq, rmatch_lit, rmatch_Seq.
  change (init _) with [@None string; None; None; None].
  generalize (Str.size ("u:" +:+ (if o then "object_" else EmptyString) +:+ "r:"
                          +:+ name +:+ ":s0" +:+ extra)).
  intros N.
  assert (∀ c : caps, length c = 4 →
            ∃ m, rmatch N (Seq (lit "r:")
                   (Seq (Group 2 (Plus (Class name_char)))
                      (Seq (lit ":s0")
                         (Seq (Opt (Group 3 (Plus anychar))) (Seq Eol Eps)))))
                   ("r:" +:+ name +:+ ":s0" +:+ extra) c final = Some m
                 ∧ str m 2 = name) as Hrest.
  { intros c Hc.
    rewrite rmatch_Seq, rmatch_lit, rmatch_Seq, rmatch_Group.
    destruct (Hfinal (<[3:=if extra is EmptyString then c !!! 3 else Some extra]>
                        (<[2:=Some name]> c))) as (m & Hm & Hstr).
    exists m. split.
    - apply rmatch_plus_class; [done..|].
      rewrite str_size_sub, str_take_app, rmatch_Seq, rmatch_lit, rmatch_Seq.
      destruct extra as [|a extra].
      + rewrite rmatch_opt_skip by reflexivity. simpl. rewrite <- Hm. f_equal.
        symmetry. apply list_insert_id. rewrite list_lookup_insert_ne by done.
        apply list_lookup_lookup_total_lt. lia.
      + apply rmatch_opt_take. rewrite rmatch_Group.
        rewrite <- (str_app_nil_r (String a extra)).
        apply rmatch_plus_class; [done..|].
        rewrite str_app_nil_r. simpl. rewrite <- Hm. f_equal.
        change (reset (Group 3 (Plus anychar)) (<[2:=Some name]> c))
          with (<[3:=@None string]> (<[2:=Some name]> c)).
        rewrite list_insert_insert_eq. f_equal. f_equal. f_equal.
        pose proof (str_take_app extra EmptyString) as Ht. by rewrite str_app_nil_r in Ht.
    - rewrite Hstr. rewrite list_lookup_insert_ne by done.
      rewrite list_lookup_insert_eq by lia. done. }
  destruct o.
  - destruct (Hrest (<[1:=Some "object_"]> [None; None; None; None]))
      as (m & Hm & Hstr); [done|].
    exists m. split; [|done].
    apply rmatch_opt_take. rewrite rmatch_Group, rmatch_lit.
    by rewrite str_size_sub, str_take_app.
  - destruct (Hrest [None; None; None; None]) as (m & Hm & Hstr); [done|].
    exists m. split; [|done].
    change (EmptyString +:+ "r:" +:+ name +:+ ":s0" +:+ extra)
      with (String "r" (":" +:+ name +:+ ":s0" +:+ extra)).
    rewrite rmatch_opt_skip by reflexivity.
    exact Hm.
Qed.

End Labels.

Lemma SEContext_ctor_short text n :
  short_name text n → SEContext_ctor text = {| m_context := n |}.
Proof.
  intros [o name extra Hne Hname Hextra | t Ht].
  - by apply SEContext_ctor_canonical.
  - unfold SEContext_ctor. by rewrite Ht.
Qed.

(** ** The constructor on a line of the documented shape *)

Section ParserShape.

Implicit Types (ops : list string) (kvs : list (string * string)).
Implicit Types (m : gmap string string) (k v : string).

Lemma op_loop_ops ops (acc : gset string) rest :
  ops ≠ [] → Forall (λ op, op ≠ "}") ops →
  op_loop (ops ++ "}" :: rest) acc = Done ("}" :: rest, acc ∪ list_to_set ops).
Proof.
  intros Hne Hops. revert acc.
  induction Hops as [|op ops Hop Hops IH]; intros acc; [done|].
  destruct ops as [|op2 ops].
  - simpl. unfold op_insert. by rewrite (right_id_L ∅ (∪)).
  - change (op_loop ((op :: op2 :: ops) ++ "}" :: rest) acc)
      with (if String.eqb op2 "}" then Done (op2 :: ops ++ "}" :: rest, op_insert op acc)
            else op_loop ((op2 :: ops) ++ "}" :: rest) (op_insert op acc)).
    apply Forall_cons in Hops as Hops'. destruct Hops' as [Hop2 _].
    apply String.eqb_neq in Hop2. rewrite Hop2, IH by done.
    unfold op_insert. rewrite (list_to_set_cons op). by rewrite (assoc_L (∪)).
Qed.

Lemma str_last_app s a : Str.last (s +:+ String a EmptyString) = Some a.
Proof.
  induction s as [|b s IH]; [done|]. rewrite str_app_cons. simpl. rewrite IH.
  by destruct s.
Qed.

Lemma str_last_split s a :
  Str.last s = Some a → s = Str.take (Str.size s - 1) s +:+ String a EmptyString.
Proof.
  induction s as [|b s IH]; [done|]. destruct s as [|c s].
  - by intros [= ->].
  - intros H. specialize (IH H). simpl in IH |- *.
    rewrite Nat.sub_0_r in IH. rewrite str_app_cons. by rewrite <- IH.
Qed.

(** Quotes are stripped from a value exactly when it is a non-empty string
    between two double quotes. *)
Lemma TrimDoubleQuote_quoted s :
  s ≠ EmptyString → TrimDoubleQuote (quoted s) = s.
Proof.
  intros Hs. unfold TrimDoubleQuote, quoted.
  assert (Str.size (String dquote (s +:+ String dquote EmptyString))
          = Str.size s + 2) as Hsize.
  { simpl. rewrite str_size_app. simpl. lia. }
  rewrite Hsize. destruct s as [|a s]; [done|].
  assert ((2 <? Str.size (String a s) + 2) = true) as ->
    by (apply Nat.ltb_lt; simpl; lia).
  assert (Str.last (String dquote (String a s +:+ String dquote EmptyString))
          = Some dquote) as ->.
  { change (String dquote (String a s +:+ String dquote EmptyString))
      with (String dquote (String a s) +:+ String dquote EmptyString).
    apply str_last_app. }
  rewrite ascii_eqb_refl, bool_decide_eq_true_2 by done. cbn [andb].
  rewrite Nat.add_sub. apply str_take_app.
Qed.

Lemma TrimDoubleQuote_other v :
  (∀ s, s ≠ EmptyString → v ≠ quoted s) → TrimDoubleQuote v = v.
Proof.
  intros Hv. unfold TrimDoubleQuote.
  destruct (2 <? Str.size v) eqn:Hsize; [|done]. apply Nat.ltb_lt in Hsize.
  destruct v as [|a rest]; [done|].
  destruct (Ascii.eqb a dquote) eqn:Ha; [|done]. apply Ascii.eqb_eq in Ha as ->.
  destruct (bool_decide _) eqn:Hl; [|done]. apply bool_decide_eq_true in Hl.
  exfalso. destruct rest as [|b rest]; [simpl in Hsize; lia|].
  assert (Str.last (String b rest) = Some dquote) as Hl' by done.
  apply str_last_split in Hl'.
  apply (Hv (Str.take (Str.size (String b rest) - 1) (String b rest))).
  - simpl. rewrite Nat.sub_0_r. destruct rest; [simpl in Hsize; lia|done].
  - unfold quoted. by rewrite <- Hl'.
Qed.

Lemma find_char_attr k v :
  Str.find_char "="%char k = None →
  Str.find_char "="%char (k +:+ String "="%char v) = Some (Str.size k).
Proof.
  induction k as [|a k IH]; [done|]. rewrite str_app_cons. simpl.
  destruct (Ascii.eqb a "="); [done|].
  destruct (Str.find_char "=" k); [done|]. intros _. by rewrite IH.
Qed.

Lemma drop_attr k v : Str.drop (Str.size k + 1) (k +:+ String "="%char v) = v.
Proof. induction k as [|a k IH]; [done|]. by rewrite str_app_cons. Qed.

Lemma attr_body_token kv (st : gmap string string * list diag) :
  Str.find_char "="%char kv.1 = None →
  attr_body (attr_token kv) st = (emplace kv.1 (TrimDoubleQuote kv.2) st.1, st.2).
Proof.
  intros H. unfold attr_body, attr_token.
  by rewrite (find_char_attr _ _ H), str_take_app, drop_attr.
Qed.

Lemma attr_loop_tokens kvs kv (st : gmap string string * list diag) :
  Forall attr_ok (kv :: kvs) →
  attr_loop (attr_token kv) (attr_token <$> kvs) st
  = (foldl (λ m kv, emplace kv.1 kv.2 m) st.1 (trimmed (kv :: kvs)), st.2).
Proof.
  revert kv st. induction kvs as [|kv' kvs IH]; intros kv st H.
  - apply Forall_cons in H as [[_ Hk] _]. simpl. by rewrite attr_body_token.
  - apply Forall_cons in H as [[_ Hk] H].
    change (attr_loop (attr_token kv) (attr_token <$> kv' :: kvs) st)
      with (attr_loop (attr_token kv') (attr_token <$> kvs)
              (attr_body (attr_token kv) st)).
    rewrite (IH _ _ H), attr_body_token by done. done.
Qed.

Lemma emplace_union k v m : emplace k v m = m ∪ {[k := v]}.
Proof.
  unfold emplace. apply map_eq. intros i. rewrite lookup_union.
  destruct (m !! k) as [x|] eqn:Hk.
  - destruct (decide (i = k)) as [->|Hne].
    + by rewrite Hk, lookup_singleton_eq.
    + rewrite lookup_singleton_ne by done. by destruct (m !! i).
  - destruct (decide (i = k)) as [->|Hne].
    + by rewrite lookup_insert_eq, Hk, lookup_singleton_eq.
    + rewrite lookup_insert_ne, lookup_singleton_ne by done. by destruct (m !! i).
Qed.

(** The attribute loop builds the map of the pairs, the first pair of a key
    winning. *)
Lemma foldl_emplace kvs m :
  foldl (λ m kv, emplace kv.1 kv.2 m) m kvs = m ∪ list_to_map kvs.
Proof.
  revert m. induction kvs as [|[k v] kvs IH]; intros m; simpl.
  - by rewrite (right_id_L ∅ (∪)).
  - rewrite IH, emplace_union, <- (assoc_L (∪)).
    by rewrite <- insert_union_singleton_l.
Qed.

Lemma AvcContext_finish_ok (u : Indeterminate) granted0 (ops : gset string)
    m vs vt vc (p : bool) :
  m !! "scontext" = Some vs → m !! "tcontext" = Some vt →
  m !! "tclass" = Some vc →
  m !! "permissive" = Some (if p then "1" else "0") →
  AvcContext_finish u granted0 ops (m, [])
  = ({| granted := granted0; operation := ops;
        scontext := SEContext_ctor vs; tcontext := SEContext_ctor vt;
        tclass := vc;
        misc_attributes :=
          delete "permissive"
            (delete "tclass" (delete "tcontext" (delete "scontext" m)));
        permissive := p; stale := false |}, []).
Proof.
  intros Hs Ht Hc Hp. unfold AvcContext_finish, findOrDie_ctx, findOrDie.
  cbn [fst snd]. rewrite Hs, Hp.
  rewrite (lookup_delete_ne m "scontext" "tcontext"), Ht by done.
  rewrite !lookup_delete_ne, Hc by done.
  by destruct p.
Qed.

Lemma lookup_residual m k v :
  (delete "permissive"
     (delete "tclass" (delete "tcontext" (delete "scontext" m)))) !! k = Some v
  ↔ (k ∉ required_keys) ∧ m !! k = Some v.
Proof.
  unfold required_keys. rewrite !lookup_delete_Some.
  rewrite !not_elem_of_cons. split.
  - intros (H1 & H2 & H3 & H4 & H). split; [|done].
    repeat split; try congruence. apply not_elem_of_nil.
  - intros ((H1 & H2 & H3 & H4 & _) & H). repeat split; congruence.
Qed.

End ParserShape.

(** ** The record parser *)

Section Parser.

(** An operation list with no closing brace behind its first token runs
    the first loop of the constructor off the end of [lines]. *)
Lemma op_loop_unterminated rest ops :
  (∀ t, t ∈ tail rest → t ≠ "}") → op_loop rest ops = OutOfRange.
Proof.
  revert ops. induction rest as [|tok rest IH]; intros ops H; simpl; [done|].
  destruct rest as [|t rest']; [done|].
  destruct (String.eqb t "}") eqn:Ht.
  - apply String.eqb_eq in Ht. exfalso. apply (H t); [left|done].
  - apply IH. intros t' Ht'. apply H. simpl. by right.
Qed.

(** With a known status and no closing brace from the fifth token on, the
    constructor reads beyond [lines.end()]. *)
Lemma unterminated_tokens_out_of_range (u : Indeterminate) t0 status t2 rest :
  String.eqb status "granted" || String.eqb status "denied" = true →
  (∀ t, t ∈ tail rest → t ≠ "}") →
  AvcContext_of_tokens u (t0 :: status :: t2 :: rest) = OutOfRange.
Proof.
  intros Hs Hrest. unfold AvcContext_of_tokens. rewrite Hs.
  by rewrite op_loop_unterminated.
Qed.

Lemma AvcContext_finish_stale_log (u : Indeterminate) granted0 ops st e log :
  AvcContext_finish u granted0 ops st = (e, log) → stale e = true → log ≠ [].
Proof.
  unfold AvcContext_finish, findOrDie_ctx.
  destruct (findOrDie "scontext" st.1) as [[sc m1] d1].
  destruct (findOrDie "tcontext" m1) as [[tc m2] d2].
  destruct (findOrDie "tclass" m2) as [[cl m3] d3].
  destruct (_ && _).
  - destruct (Str.read_int _) as [[|[]|]|]; intros [= <- <-]; simpl; try done;
      intros _ H; by apply app_eq_nil in H as [_ H].
  - intros [= <- <-] _ H. by apply app_eq_nil in H as [_ H].
Qed.

(** Whenever the constructor returns, a record left stale comes with at
    least one diagnostic. *)
Lemma AvcContext_ctor_stale_log (u : Indeterminate) line e log :
  AvcContext_ctor u line = Done (e, log) → stale e = true → log ≠ [].
Proof.
  unfold AvcContext_ctor, AvcContext_of_tokens.
  destruct (Str.find _ _) as [pos|]; [|done].
  destruct (Str.tokens _) as [|t0 [|status it]]; [done..|].
  destruct (_ || _); [|by intros [= <- <-]].
  destruct it as [|t2 it]; [done|].
  destruct (op_loop it ∅) as [[it' ops]| |]; [|done..].
  destruct it' as [|b [|f [|tok rest]]]; simpl; [done..| |].
  - by intros [= <- <-].
  - intros [= H]. by eapply AvcContext_finish_stale_log.
Qed.

End Parser.

(** C1, as stated, fails: on a line whose operation list is cut off before
    the closing brace the constructor does not come back with a parse
    failure; its first loop reads [lines] beyond [lines.end()]. *)
Theorem unterminated_operations_run_off_the_end :
  Str.tokens (Str.drop 17 line_unterminated) = ["avc:"; "denied"; "{"; "read"; "write"]
  ∧ ∀ u, AvcContext_ctor u line_unterminated = OutOfRange.
Proof. split; [|intros u]; vm_compute; reflexivity. Qed.

(** ** A valid line is parsed into its record *)

Section ValidLine.

Implicit Types (ops : list string) (kvs : list (string * string)).

Lemma is_token_attr kv : attr_ok kv → is_token (attr_token kv).
Proof.
  intros [Hs _]. split; [|done]. unfold attr_token.
  destruct (kv.1); by rewrite ?str_app_cons.
Qed.

Lemma denial_tokens_are_tokens granted0 ops kvs :
  Forall (λ op, is_token op ∧ op ≠ "}") ops → Forall attr_ok kvs →
  Forall is_token (denial_tokens granted0 ops kvs).
Proof.
  intros Hops Hkvs. unfold denial_tokens.
  repeat apply Forall_cons_2; [done|by destruct granted0|done|].
  apply Forall_app_2; [by eapply Forall_impl; [exact Hops|intros ? []]|].
  repeat apply Forall_cons_2; [done..|].
  apply Forall_fmap. eapply Forall_impl; [exact Hkvs|]. apply is_token_attr.
Qed.

(** The constructor finds the tokens of the line. *)
Lemma denial_line_tokens prefix granted0 ops kvs :
  Str.find "avc:" (prefix +:+ "avc:") = Some (Str.size prefix) →
  Forall (λ op, is_token op ∧ op ≠ "}") ops → Forall attr_ok kvs →
  Str.find "avc:" (denial_line prefix granted0 ops kvs) = Some (Str.size prefix)
  ∧ Str.tokens (Str.drop (Str.size prefix) (denial_line prefix granted0 ops kvs))
    = denial_tokens granted0 ops kvs.
Proof.
  intros Hfind Hops Hkvs. unfold denial_line. split.
  - change (Str.unwords (denial_tokens granted0 ops kvs))
      with ("avc:" +:+ String " "%char
              (Str.unwords (status_token granted0 :: "{" :: ops
                              ++ "}" :: "for" :: (attr_token <$> kvs)))).
    by apply find_app.
  - rewrite str_drop_app. by apply tokens_unwords, denial_tokens_are_tokens.
Qed.

(** The same for any white space between the tokens and behind them. *)
Lemma denial_line_spaced_tokens prefix granted0 ops kvs seps trail :
  Str.find "avc:" (prefix +:+ "avc:") = Some (Str.size prefix) →
  Forall (λ op, is_token op ∧ op ≠ "}") ops → Forall attr_ok kvs →
  Forall is_blank seps → length seps = 4 + length ops + length kvs →
  Str.forallb Str.isspace trail = true →
  Str.find "avc:" (denial_line_spaced prefix granted0 ops kvs seps trail)
  = Some (Str.size prefix)
  ∧ Str.tokens (Str.drop (Str.size prefix)
                  (denial_line_spaced prefix granted0 ops kvs seps trail))
    = denial_tokens granted0 ops kvs.
Proof.
  intros Hfind Hops Hkvs Hseps Hlen Htrail. unfold denial_line_spaced. split.
  - unfold denial_tokens. destruct (seps ++ [trail]) as [|x xs] eqn:E.
    + by destruct seps.
    + cbn [spaced]. by apply find_app.
  - rewrite str_drop_app. apply tokens_spaced; [|done..|].
    + by apply denial_tokens_are_tokens.
    + unfold denial_tokens. cbn [length].
      rewrite length_app. cbn [length]. rewrite length_fmap. lia.
Qed.

(** The line with single spaces is one of these lines. *)
Lemma denial_line_single_spaces prefix granted0 ops kvs :
  denial_line prefix granted0 ops kvs
  = denial_line_spaced prefix granted0 ops kvs
      (replicate (4 + length ops + length kvs) " ") EmptyString.
Proof.
  unfold denial_line, denial_line_spaced. f_equal.
  rewrite <- spaced_unwords by done. do 2 f_equal.
  unfold denial_tokens. cbn [length]. rewrite length_app. cbn [length].
  rewrite length_fmap. f_equal. lia.
Qed.

Lemma fst_trimmed kvs : (trimmed kvs).*1 = kvs.*1.
Proof. unfold trimmed. rewrite <- list_fmap_compose. done. Qed.

Lemma elem_of_trimmed kvs k raw :
  (k, raw) ∈ kvs → (k, TrimDoubleQuote raw) ∈ trimmed kvs.
Proof.
  intros H. apply list_elem_of_fmap. by exists (k, raw).
Qed.

End ValidLine.

(** C2, as amended: for a line of the documented shape, its tokens set
    apart by any white space, with at least one operation name between the
    braces and pairwise distinct keys, the constructor returns a record that
    is not stale, with no diagnostic, whose [granted], [operation], [tclass]
    and [permissive] are those of the line, whose contexts are the short
    names of the two labels, and whose [misc_attributes] holds exactly the
    pairs of the line other than the four required keys, the values with
    their quotes trimmed. *)
Theorem valid_denial_line_parsed (u : Indeterminate)
    (prefix : string) (granted0 : bool) (ops : list string)
    (kvs : list (string * string)) (seps : list string) (trail : string)
    (vs vt vc : string) (p : bool) (ns nt : string) :
  Str.find "avc:" (prefix +:+ "avc:") = Some (Str.size prefix) →
  ops ≠ [] →
  Forall (λ op, is_token op ∧ op ≠ "}") ops →
  Forall attr_ok kvs →
  Forall is_blank seps →
  length seps = 4 + length ops + length kvs →
  Str.forallb Str.isspace trail = true →
  NoDup kvs.*1 →
  ("scontext", vs) ∈ kvs →
  ("tcontext", vt) ∈ kvs →
  ("tclass", vc) ∈ kvs →
  ("permissive", if p then "1" else "0") ∈ kvs →
  short_name (TrimDoubleQuote vs) ns →
  short_name (TrimDoubleQuote vt) nt →
  ∃ e, AvcContext_ctor u (denial_line_spaced prefix granted0 ops kvs seps trail)
       = Done (e, [])
    ∧ stale e = false
    ∧ granted e = granted0
    ∧ operation e = list_to_set ops
    ∧ scontext e = {| m_context := ns |}
    ∧ tcontext e = {| m_context := nt |}
    ∧ tclass e = TrimDoubleQuote vc
    ∧ permissive e = p
    ∧ ∀ k v, misc_attributes e !! k = Some v
             ↔ (k ∉ required_keys) ∧ (k, v) ∈ trimmed kvs.
Proof.
  intros Hfind Hne Hops Hkvs Hseps Hlen Htrail Hnd Hs Ht Hc Hp Hns Hnt.
  destruct (denial_line_spaced_tokens prefix granted0 ops kvs seps trail
              Hfind Hops Hkvs Hseps Hlen Htrail) as [Hf Htok].
  assert (NoDup (trimmed kvs).*1) as Hnd' by (by rewrite fst_trimmed).
  pose proof (elem_of_list_to_map (M := gmap string) (trimmed kvs)) as Hmap.
  set (m := list_to_map (trimmed kvs) : gmap string string) in *.
  assert (∀ k raw, (k, raw) ∈ kvs → m !! k = Some (TrimDoubleQuote raw)) as Hlook.
  { intros k raw Hin. apply Hmap; [done|]. by apply elem_of_trimmed. }
  eexists. split.
  - unfold AvcContext_ctor. rewrite Hf. cbv zeta. rewrite Htok.
    unfold AvcContext_of_tokens, denial_tokens.
    assert ((String.eqb (status_token granted0) "granted"
             || String.eqb (status_token granted0) "denied") = true) as ->
      by (by destruct granted0).
    assert (String.eqb (status_token granted0) "granted" = granted0) as ->
      by (by destruct granted0).
    rewrite op_loop_ops; [|done|by eapply Forall_impl; [exact Hops|intros ? []]].
    destruct kvs as [|kv kvs']; [by apply elem_of_nil in Hs|].
    rewrite fmap_cons. cbv iota beta.
    rewrite (attr_loop_tokens kvs' kv (∅, []) Hkvs). cbn [fst snd].
    rewrite foldl_emplace, !(left_id_L ∅ (∪)). fold m.
    rewrite (AvcContext_finish_ok u granted0 _ m _ _ _ p
               (Hlook _ _ Hs) (Hlook _ _ Ht) (Hlook _ _ Hc)).
    + reflexivity.
    + rewrite (Hlook _ _ Hp). by destruct p.
  - cbn [stale granted operation scontext tcontext tclass permissive misc_attributes].
    split; [done|]. split; [done|].
    split; [done|].
    split; [by apply SEContext_ctor_short|].
    split; [by apply SEContext_ctor_short|].
    split; [done|]. split; [done|].
    intros k v. rewrite lookup_residual. by rewrite <- Hmap.
Qed.

Lemma valid_denial_line_parsed_witness :
  ∃ e, AvcContext_ctor all_set
         (denial_line_spaced audit_prefix false ["ioctl"] ioctl_pairs ioctl_seps tab)
       = Done (e, [])
    ∧ stale e = false
    ∧ granted e = false
    ∧ operation e = list_to_set ["ioctl"]
    ∧ scontext e = {| m_context := "mydomain" |}
    ∧ tcontext e = {| m_context := "vendor_device" |}
    ∧ tclass e = TrimDoubleQuote "chr_file"
    ∧ permissive e = false
    ∧ ∀ k v, misc_attributes e !! k = Some v
             ↔ (k ∉ required_keys) ∧ (k, v) ∈ trimmed ioctl_pairs.
Proof.
  apply (valid_denial_line_parsed all_set audit_prefix false ["ioctl"] ioctl_pairs
           ioctl_seps tab
           "u:r:mydomain:s0" "u:object_r:vendor_device:s0" "chr_file" false
           "mydomain" "vendor_device").
  - vm_compute. reflexivity.
  - discriminate.
  - repeat constructor; (discriminate || reflexivity).
  - repeat constructor; reflexivity.
  - repeat constructor; (discriminate || reflexivity).
  - reflexivity.
  - reflexivity.
  - apply (bool_decide_unpack _). vm_compute. exact I.
  - apply (bool_decide_unpack _). vm_compute. exact I.
  - apply (bool_decide_unpack _). vm_compute. exact I.
  - apply (bool_decide_unpack _). vm_compute. exact I.
  - apply (bool_decide_unpack _). vm_compute. exact I.
  - apply (short_canonical false "mydomain" EmptyString);
      (discriminate || reflexivity).
  - apply (short_canonical true "vendor_device" EmptyString);
      (discriminate || reflexivity).
Defined.

(** C2, as stated, fails on a line with no operation between the braces:
    the closing brace is taken for an operation and the first loop of the
    constructor runs off the end of [lines], so no record is produced. *)
Lemma no_operation_line_not_parsed :
  Str.tokens (denial_line EmptyString false [] ioctl_pairs)
    = "avc:" :: "denied" :: "{" :: "}" :: "for" :: (attr_token <$> ioctl_pairs)
  ∧ (∀ u, AvcContext_ctor u (denial_line EmptyString false [] ioctl_pairs)
          = OutOfRange)
  ∧ ¬ ∃ u e log, AvcContext_ctor u (denial_line EmptyString false [] ioctl_pairs)
                 = Done (e, log).
Proof.
  split; [vm_compute; reflexivity|].
  assert (∀ u, AvcContext_ctor u (denial_line EmptyString false [] ioctl_pairs)
               = OutOfRange) as H by (intros u; vm_compute; reflexivity).
  split; [done|]. intros (u & e & log & He). by rewrite H in He.
Qed.

(** The line of the second end-to-end scenario and its rule. *)
Example ioctl_line_rule :
  ∃ e, AvcContext_ctor all_set (denial_line audit_prefix false ["ioctl"] ioctl_pairs)
         = Done (e, [])
       ∧ print_AvcContext e = "allow mydomain vendor_device:chr_file ioctl;".
Proof. eexists. split; vm_compute; reflexivity. Qed.

(** ** The pattern of the denial filter guards the constructor *)

Section Soundness.
Import Regex.

Lemma star_loop_consumes {A} (L : string → Prop)
    (body : string → caps → _ → option A) k fuel s c x :
  consumes L body →
  star_loop body k fuel s c = Some x →
  ∃ ms s' c', s = concat_str ms +:+ s' ∧ Forall L ms ∧ k s' c' = Some x.
Proof.
  intros Hbody. revert s c.
  induction fuel as [|fuel IH]; intros s c; simpl.
  { intros H. by exists [], s, c. }
  destruct (body s c _) as [y|] eqn:Hb.
  - intros [= ->]. apply Hbody in Hb as (m & s1 & c1 & -> & Hm & Hk).
    destruct (Str.size s1 <? Str.size (m +:+ s1)); [|done].
    apply IH in Hk as (ms & s2 & c2 & -> & Hms & Hk).
    exists (m :: ms), s2, c2. split; [|by split; [constructor|]].
    simpl. by rewrite str_app_assoc.
  - intros H. by exists [], s, c.
Qed.

Lemma rmatch_sound {A} n r : consumes (lang r) (λ s c k, @rmatch A n r s c k).
Proof.
  induction r as [|a|p|r1 IH1 r2 IH2|r1 IH1|r1 IH1|i r1 IH1| |];
    intros s c k x; simpl.
  - intros H. by exists EmptyString, s, c.
  - destruct s as [|b s']; [done|]. destruct (Ascii.eqb a b) eqn:Hab; [|done].
    apply Ascii.eqb_eq in Hab as ->. intros H.
    by exists (String b EmptyString), s', c.
  - destruct s as [|b s']; [done|]. destruct (p b) eqn:Hp; [|done].
    intros H. exists (String b EmptyString), s', c. split; [done|]. split; [|done].
    by exists b.
  - intros H. apply IH1 in H as (m1 & s1 & c1 & -> & Hm1 & H).
    apply IH2 in H as (m2 & s2 & c2 & -> & Hm2 & H).
    exists (m1 +:+ m2), s2, c2. split; [by rewrite str_app_assoc|].
    split; [|done]. by exists m1, m2.
  - intros H. apply IH1 in H as (m1 & s1 & c1 & -> & Hm1 & H).
    apply (star_loop_consumes (lang r1)) in H as (ms & s2 & c2 & -> & Hms & H).
    + exists (m1 +:+ concat_str ms), s2, c2. split; [by rewrite str_app_assoc|].
      split; [|done]. exists (m1 :: ms). split; [done|]. split; [done|].
      by constructor.
    + intros s0 c0 k0 x0 H0. by apply IH1 in H0.
  - destruct (rmatch n r1 s (reset r1 c) k) as [y|] eqn:H1.
    + intros [= ->]. apply IH1 in H1 as (m1 & s1 & c1 & -> & Hm1 & H1).
      exists m1, s1, c1. split; [done|]. split; [by right|done].
    + intros H. exists EmptyString, s, c. split; [done|]. split; [by left|done].
  - intros H. apply IH1 in H as (m1 & s1 & c1 & -> & Hm1 & H).
    by eexists m1, s1, _.
  - destruct (Str.size s =? n); [|done]. intros H. by exists EmptyString, s, c.
  - destruct s; [|done]. intros H. by exists EmptyString, EmptyString, c.
Qed.

Lemma search_from_sound n r s m :
  search_from n r s = Some m →
  ∃ pre mid post, s = pre +:+ mid +:+ post ∧ lang r mid.
Proof.
  induction s as [|a s IH]; simpl.
  - destruct (rmatch n r _ _ _) as [m'|] eqn:H; [|done]. intros _.
    apply rmatch_sound in H as (mid & post & c1 & Hs & Hmid & _).
    by exists EmptyString, mid, post.
  - destruct (rmatch n r _ _ _) as [m'|] eqn:H.
    + intros _. apply rmatch_sound in H as (mid & post & c1 & Hs & Hmid & _).
      by exists EmptyString, mid, post.
    + intros H'. apply IH in H' as (pre & mid & post & -> & Hmid).
      by exists (String a pre), mid, post.
Qed.

End Soundness.

Section Gate.
Import Regex.

Implicit Types (s t w cur : string) (a : ascii).

Lemma lang_lit l m : lang (lit l) m → m = l.
Proof.
  revert m. induction l as [|a l IH]; intros m; simpl; [done|].
  intros (m1 & m2 & -> & -> & H2). by rewrite (IH _ H2).
Qed.

(** A run of one character class is not empty and starts in the class. *)
Lemma lang_plus_class (p : ascii → bool) m :
  lang (Plus (Class p)) m → ∃ a m', m = String a m' ∧ p a = true.
Proof.
  intros (ms & Hne & -> & Hms).
  destruct Hms as [|m1 ms (a & -> & Ha) Hms]; [done|].
  by exists a, (concat_str ms).
Qed.

Lemma wordchar_no_space a : wordchar a = true → Str.isspace a = false.
Proof.
  destruct a as [[] [] [] [] [] [] [] []]; vm_compute; congruence.
Qed.

(** Splitting the token stream at a white space character. *)
Lemma tokens_go_split cur s a t :
  Str.isspace a = true →
  Str.tokens_go cur (s +:+ String a t)
  = Str.tokens_go cur s ++ Str.tokens_go EmptyString t.
Proof.
  intros Ha. revert cur. induction s as [|b s IH]; intros cur.
  - change (EmptyString +:+ String a t) with (String a t). simpl. rewrite Ha.
    by destruct cur.
  - rewrite str_app_cons. simpl. destruct (Str.isspace b); [|by apply IH].
    destruct cur; by rewrite IH.
Qed.

Lemma tokens_go_cur cur s : cur ≠ EmptyString → Str.tokens_go cur s ≠ [].
Proof.
  revert cur. induction s as [|b s IH]; intros cur Hcur; simpl.
  - by destruct cur.
  - destruct (Str.isspace b); [by destruct cur|].
    apply IH. by destruct cur.
Qed.

(** A string with a character that is not white space has a token. *)
Lemma tokens_go_nonempty cur s a t :
  Str.isspace a = false → Str.tokens_go cur (s +:+ String a t) ≠ [].
Proof.
  intros Ha. revert cur. induction s as [|b s IH]; intros cur.
  - change (EmptyString +:+ String a t) with (String a t). simpl. rewrite Ha.
    apply tokens_go_cur. by destruct cur.
  - rewrite str_app_cons. simpl. destruct (Str.isspace b); [|by apply IH].
    destruct cur; [by apply IH|done].
Qed.

Lemma length_pos {X} (l : list X) : l ≠ [] → 1 ≤ length l.
Proof. destruct l; [done|simpl; lia]. Qed.

(** The first occurrence of the marker is at or before a given one. *)
Lemma find_first needle pre rest :
  ∃ pos, Str.find needle (pre +:+ needle +:+ rest) = Some pos
         ∧ Str.drop pos (pre +:+ needle +:+ rest)
           = Str.drop pos pre +:+ needle +:+ rest.
Proof.
  induction pre as [|a pre (pos & Hf & Hd)].
  - exists 0. change (EmptyString +:+ needle +:+ rest) with (needle +:+ rest).
    by rewrite find_unfold, starts_with_app.
  - rewrite str_app_cons, find_unfold.
    destruct (Str.starts_with _ _); [by exists 0|].
    exists (S pos). by rewrite Hf.
Qed.

Lemma op_loop_found L x (ops : gset string) t L2 :
  ∃ it ops', op_loop (x :: L ++ "}" :: t :: L2) ops = Done ("}" :: it, ops')
             ∧ it ≠ [].
Proof.
  revert x ops. induction L as [|y L IH]; intros x ops.
  - by exists (t :: L2), (op_insert x ops).
  - change (op_loop (x :: (y :: L) ++ "}" :: t :: L2) ops)
      with (if String.eqb y "}"
            then Done (y :: L ++ "}" :: t :: L2, op_insert x ops)
            else op_loop (y :: L ++ "}" :: t :: L2) (op_insert x ops)).
    destruct (String.eqb y "}") eqn:Hy; [|by apply IH].
    apply String.eqb_eq in Hy as ->.
    exists (L ++ "}" :: t :: L2), (op_insert x ops). split; [done|].
    by destruct L.
Qed.

(** On tokens with a closing brace at index four or later and a token behind
    it the constructor stays inside [lines]. *)
Lemma AvcContext_of_tokens_total (u : Indeterminate) L1 t L2 :
  4 ≤ length L1 →
  ∃ e log, AvcContext_of_tokens u (L1 ++ "}" :: t :: L2) = Done (e, log).
Proof.
  intros Hlen. destruct L1 as [|t0 [|status [|t2 [|x L]]]]; simpl in Hlen; try lia.
  unfold AvcContext_of_tokens. cbn [app].
  destruct (_ || _); [|by eauto].
  destruct (op_loop_found L x ∅ t L2) as (it & ops & -> & Hit).
  destruct it as [|f [|tok rest]]; [done|by eauto|].
  destruct (AvcContext_finish _ _ _) as [e log] eqn:He. eauto.
Qed.

Lemma str_app_cons_assoc s a t u :
  (s +:+ String a t) +:+ u = s +:+ String a (t +:+ u).
Proof. by rewrite str_app_assoc, str_app_cons. Qed.

(** The shape of a match of [kAvcMessageRegEX]. *)
Lemma lang_kAvcMessageRegEX mid :
  lang kAvcMessageRegEX mid →
  ∃ a1 w1 a2 w2 a3 a4 G a5 a6 a7,
    mid = "avc:" +:+ String a1
            ((w1 +:+ "denied") +:+ String a2
               ((w2 +:+ "{") +:+ String a3
                  (String a4 G +:+ String a5
                     ("}" +:+ String a6 ("for" +:+ String a7 EmptyString)))))
    ∧ Str.isspace a1 = true ∧ Str.isspace a2 = true ∧ Str.isspace a3 = true
    ∧ Str.isspace a4 = false ∧ Str.isspace a5 = true ∧ Str.isspace a6 = true
    ∧ Str.isspace a7 = true.
Proof.
  intros H. unfold kAvcMessageRegEX, seqs in H. cbn [foldr] in H.
  destruct H as (m1 & r1 & -> & H1 & H). apply lang_lit in H1 as ->.
  destruct H as (m2 & r2 & -> & H2 & H).
  apply (lang_plus_class Str.isspace) in H2 as (a1 & w1 & -> & Ha1).
  destruct H as (m3 & r3 & -> & H3 & H). apply lang_lit in H3 as ->.
  destruct H as (m4 & r4 & -> & H4 & H).
  apply (lang_plus_class Str.isspace) in H4 as (a2 & w2 & -> & Ha2).
  destruct H as (m5 & r5 & -> & -> & H).
  destruct H as (m6 & r6 & -> & H6 & H).
  destruct H6 as (ms & Hne & -> & Hms).
  destruct Hms as [|g ms (sp & wd & -> & (a3 & -> & Ha3) & Hwd) Hms]; [done|].
  apply (lang_plus_class wordchar) in Hwd as (a4 & wd' & -> & Ha4).
  destruct H as (m7 & r7 & -> & (a5 & -> & Ha5) & H).
  destruct H as (m8 & r8 & -> & -> & H).
  destruct H as (m9 & r9 & -> & (a6 & -> & Ha6) & H).
  destruct H as (m10 & r10 & -> & H10 & H). apply lang_lit in H10 as ->.
  destruct H as (m11 & r11 & -> & (a7 & -> & Ha7) & ->).
  exists a1, w1, a2, w2, a3, a4, (wd' +:+ concat_str ms), a5, a6, a7.
  split; [|by rewrite (wordchar_no_space a4)].
  cbn [concat_str]. rewrite ?str_app_cons, ?str_app_assoc, ?str_app_cons. reflexivity.
Qed.

End Gate.

(** Every line the pattern of the denial filter is found in is parsed
    without leaving [lines]. *)
Lemma AvcContext_ctor_total (u : Indeterminate) line :
  is_Some (Regex.regex_search kAvcMessageRegEX line) →
  ∃ e log, AvcContext_ctor u line = Done (e, log).
Proof.
  intros [m Hm]. apply search_from_sound in Hm as (pre & mid & post & -> & Hmid).
  apply lang_kAvcMessageRegEX in Hmid
    as (a1 & w1 & a2 & w2 & a3 & a4 & G & a5 & a6 & a7 & -> & H1 & H2 & H3
        & H4 & H5 & H6 & H7).
  rewrite (str_app_assoc "avc:").
  destruct (find_first "avc:" pre
              (String a1
                 ((w1 +:+ "denied") +:+ String a2
                    ((w2 +:+ "{") +:+ String a3
                       (String a4 G +:+ String a5
                          ("}" +:+ String a6 ("for" +:+ String a7 EmptyString)))))
               +:+ post)) as (pos & Hf & Hd).
  unfold AvcContext_ctor. rewrite Hf. cbv zeta. rewrite Hd.
  set (Y := Str.drop pos pre).
  assert (Y +:+ "avc:" +:+
          String a1
            ((w1 +:+ "denied") +:+
             String a2
               ((w2 +:+ "{") +:+
                String a3
                  (String a4 G +:+
                   String a5
                     ("}" +:+ String a6 ("for" +:+ String a7 EmptyString))))) +:+
          post
          = (Y +:+ "avc:") +:+ String a1
              ((w1 +:+ "denied") +:+ String a2
                 ((w2 +:+ "{") +:+ String a3
                    (String a4 G +:+ String a5
                       ("}" +:+ String a6 ("for" +:+ String a7 post)))))) as ->.
  { rewrite (str_app_assoc Y "avc:"), (str_app_cons a1).
    rewrite (str_app_cons_assoc (w1 +:+ "denied") a2), (str_app_cons_assoc (w2 +:+ "{") a3).
    rewrite (str_app_cons_assoc (String a4 G) a5), (str_app_cons_assoc "}" a6).
    by rewrite (str_app_cons_assoc "for" a7). }
  unfold Str.tokens.
  rewrite (tokens_go_split _ (Y +:+ "avc:") a1) by done.
  rewrite (tokens_go_split _ (w1 +:+ "denied") a2) by done.
  rewrite (tokens_go_split _ (w2 +:+ "{") a3) by done.
  rewrite (tokens_go_split _ (String a4 G) a5) by done.
  rewrite (tokens_go_split _ "}" a6) by done.
  rewrite (tokens_go_split _ "for" a7) by done.
  change (Str.tokens_go EmptyString "}") with ["}"].
  change (Str.tokens_go EmptyString "for") with ["for"].
  rewrite !(assoc_L (++)).
  rewrite <- (assoc_L (++) _ ["for"]), <- (assoc_L (++) _ ["}"]).
  apply AvcContext_of_tokens_total.
  rewrite !length_app.
  pose proof (length_pos _ (tokens_go_nonempty EmptyString Y "a" "vc:" eq_refl)).
  pose proof (length_pos _ (tokens_go_nonempty EmptyString w1 "d" "enied" eq_refl)).
  pose proof (length_pos _ (tokens_go_nonempty EmptyString w2 "{" EmptyString eq_refl)).
  pose proof (length_pos _ (tokens_go_nonempty EmptyString EmptyString a4 G H4)).
  change (EmptyString +:+ String a4 G) with (String a4 G) in *.
  change (Y +:+ String "a" "vc:") with (Y +:+ "avc:") in *.
  change (w1 +:+ String "d" "enied") with (w1 +:+ "denied") in *.
  change (w2 +:+ String "{" EmptyString) with (w2 +:+ "{") in *.
  lia.
Qed.

(** C1, as amended: the constructor returns for every line in which the
    pattern of the denial filter is found, and those are the only lines the
    filter hands to it; the record it returns is either not stale or comes
    with a diagnostic. *)
Theorem matched_line_is_parsed (u : Indeterminate) (line : string) :
  is_Some (Regex.regex_search kAvcMessageRegEX line) →
  ∃ e log, AvcContext_ctor u line = Done (e, log)
           ∧ (stale e = true → log ≠ []).
Proof.
  intros H. destruct (AvcContext_ctor_total u line H) as (e & log & Hctor).
  exists e, log. split; [done|]. by apply (AvcContext_ctor_stale_log u line).
Qed.

Lemma matched_line_is_parsed_witness :
  ∃ e log, AvcContext_ctor all_set line_no_permissive = Done (e, log)
           ∧ (stale e = true → log ≠ []).
Proof.
  apply (matched_line_is_parsed all_set line_no_permissive). vm_compute. eauto.
Defined.

(** A line on which the constructor would read beyond [lines.end()] is not
    matched by the denial filter, which returns [false] and leaves the
    collection as it is. *)
Lemma out_of_range_line_not_matched (u : Indeterminate) line _ctx :
  AvcContext_ctor u line = OutOfRange →
  Regex.regex_search kAvcMessageRegEX line = None
  ∧ AvcFilterContext_filter u line _ctx = Done (false, _ctx).
Proof.
  intros Hctor.
  assert (Regex.regex_search kAvcMessageRegEX line = None) as Hre.
  { destruct (Regex.regex_search kAvcMessageRegEX line) as [m|] eqn:Hm; [|done].
    destruct (AvcContext_ctor_total u line) as (e & log & He); [by rewrite Hm|].
    congruence. }
  split; [done|]. unfold AvcFilterContext_filter. rewrite Hre.
  rewrite bool_decide_eq_false_2 by (by intros [? ?]). by destruct _ctx.
Qed.

(** The filter itself never leaves the defined behaviour. *)
Lemma AvcFilterContext_filter_total (u : Indeterminate) line _ctx :
  ∃ b ctx', AvcFilterContext_filter u line _ctx = Done (b, ctx').
Proof.
  unfold AvcFilterContext_filter. destruct _ctx as [ctx|]; [|by eauto].
  destruct (bool_decide (is_Some _)) eqn:Hre; simpl; [|by eauto].
  destruct (bool_decide (Str.find _ _ = None)); [|by eauto].
  apply bool_decide_eq_true in Hre.
  destruct (AvcContext_ctor_total u line Hre) as (e & log & ->). eauto.
Qed.

(** ** Every label has a short name *)

Section ShortName.

Import Regex.

Lemma concat_class (p : ascii → bool) ms :
  Forall (lang (Class p)) ms → Str.forallb p (concat_str ms) = true.
Proof.
  induction 1 as [|m ms (a & -> & Ha) _ IH]; [done|].
  cbn [concat_str]. rewrite str_forallb_app, IH. simpl. by rewrite Ha.
Qed.

Lemma lang_plus_class_all (p : ascii → bool) m :
  lang (Plus (Class p)) m → m ≠ EmptyString ∧ Str.forallb p m = true.
Proof.
  intros (ms & Hne & -> & Hms). split; [|by apply concat_class].
  destruct Hms as [|m1 ms (a & -> & Ha) Hms]; done.
Qed.

Lemma regex_match_sound r text m :
  regex_match r text = Some m → lang r text.
Proof.
  unfold regex_match. intros H.
  apply rmatch_sound in H as (mid & s' & c' & -> & Hmid & H).
  destruct s'; [|done]. by rewrite str_app_nil_r.
Qed.

(** A label [kSEContextRegex] matches is a canonical label. *)
Lemma lang_kSEContextRegex text :
  lang kSEContextRegex text →
  ∃ o name extra, text = canonical_label o name extra
    ∧ name ≠ EmptyString ∧ Str.forallb name_char name = true
    ∧ Str.forallb is_dot extra = true.
Proof.
  intros H. unfold kSEContextRegex, seqs in H. cbn [foldr] in H.
  destruct H as (m0 & r0 & -> & -> & H).
  destruct H as (m1 & r1 & -> & H1 & H). apply lang_lit in H1 as ->.
  destruct H as (m2 & r2 & -> & H2 & H).
  destruct H as (m3 & r3 & -> & H3 & H). apply lang_lit in H3 as ->.
  destruct H as (m4 & r4 & -> & H4 & H).
  apply (lang_plus_class_all name_char) in H4 as [Hne Hname].
  destruct H as (m5 & r5 & -> & H5 & H). apply lang_lit in H5 as ->.
  destruct H as (m6 & r6 & -> & H6 & H).
  destruct H as (m7 & r7 & -> & -> & ->).
  assert (∃ o : bool, m2 = if o then "object_" else EmptyString) as [o ->].
  { destruct H2 as [-> | H2]; [by exists false|].
    apply lang_lit in H2 as ->. by exists true. }
  exists o, m4, m6. split; [|split; [done|split; [done|]]].
  - unfold canonical_label.
    change (EmptyString +:+ "u:" +:+ ?x) with ("u:" +:+ x).
    by rewrite !str_app_nil_r.
  - destruct H6 as [-> | H6]; [done|].
    by apply (lang_plus_class_all is_dot) in H6 as [_ H6].
Qed.

End ShortName.

(** The relation [short_name] describes the constructor on every label. *)
Lemma short_name_total text : ∃ n, short_name text n.
Proof.
  destruct (Regex.regex_match kSEContextRegex text) as [m|] eqn:Hm.
  - apply regex_match_sound, lang_kSEContextRegex in Hm
      as (o & name & extra & -> & Hne & Hname & Hextra).
    exists name. by constructor.
  - exists text. by constructor.
Qed.

Lemma short_name_SEContext_ctor text n :
  short_name text n ↔ SEContext_ctor text = {| m_context := n |}.
Proof.
  split; [apply SEContext_ctor_short|]. intros H.
  destruct (short_name_total text) as [n' Hn'].
  pose proof (SEContext_ctor_short _ _ Hn') as H'. congruence.
Qed.

(** ** The merge operator *)

Section PlusAssign.

Implicit Types this other : AvcContext.

Lemma mergable_spec this other :
  mergable this other = true ↔ same_rule_key this other.
Proof.
  unfold mergable, same_rule_key.
  rewrite !andb_true_iff, Bool.eqb_true_iff, !bool_decide_eq_true, String.eqb_eq.
  tauto.
Qed.

Lemma plus_assign_live this other :
  stale this = false → stale other = false →
  plus_assign this other =
    if mergable this other then merged_result this other else (this, other).
Proof. intros H1 H2. unfold plus_assign. by rewrite H1, H2. Qed.

Lemma plus_assign_stale this other :
  stale this = true ∨ stale other = true →
  plus_assign this other = (this, other).
Proof.
  intros [H | H]; unfold plus_assign; rewrite H; simpl; [done|].
  by rewrite andb_false_r.
Qed.

End PlusAssign.

(** C8, as amended: for two records that are both not stale, [operator+=]
    merges them exactly when [granted], [scontext], [tcontext] and [tclass]
    are pairwise equal; [misc_attributes] and [permissive] are not looked at.
    On such a pair the operations of the second are united into the first and
    the second is marked stale; any other pair of records that are not stale
    is left as it is. *)
Theorem plus_assign_merges_iff_same_key (this other : AvcContext) :
  stale this = false → stale other = false →
  (same_rule_key this other →
     plus_assign this other = merged_result this other)
  ∧ (¬ same_rule_key this other → plus_assign this other = (this, other))
  ∧ (plus_assign this other = merged_result this other ↔ same_rule_key this other).
Proof.
  intros H1 H2. rewrite (plus_assign_live _ _ H1 H2).
  destruct (mergable this other) eqn:Hm.
  - apply mergable_spec in Hm. split; [done|]. split; [tauto|]. by split.
  - assert (¬ same_rule_key this other) as Hn.
    { rewrite <- mergable_spec. congruence. }
    split; [tauto|]. split; [done|]. split; [|tauto].
    intros Heq. exfalso. unfold merged_result in Heq.
    apply (f_equal (λ p, stale p.2)) in Heq. simpl in Heq. congruence.
Qed.

Lemma plus_assign_merges_iff_same_key_witness :
  (same_rule_key rec_a rec_b → plus_assign rec_a rec_b = merged_result rec_a rec_b)
  ∧ (¬ same_rule_key rec_a rec_b → plus_assign rec_a rec_b = (rec_a, rec_b))
  ∧ (plus_assign rec_a rec_b = merged_result rec_a rec_b ↔ same_rule_key rec_a rec_b).
Proof.
  apply (plus_assign_merges_iff_same_key rec_a rec_b); reflexivity.
Defined.

(** C8, as stated, fails: two records with equal [granted], [scontext],
    [tcontext] and [tclass] are not merged when one of them is stale. *)
Lemma same_key_not_merged_when_stale :
  ¬ (∀ this other : AvcContext,
       plus_assign this other = merged_result this other ↔ same_rule_key this other).
Proof.
  intros H.
  destruct (H (set_stale true rec_a) rec_b) as [_ Hm].
  assert (same_rule_key (set_stale true rec_a) rec_b) as Hk by (by repeat split).
  specialize (Hm Hk).
  apply (f_equal (λ p, stale p.2)) in Hm. vm_compute in Hm. discriminate.
Qed.

(** C10: when at least one of the two records is stale, [operator+=] leaves
    both as they are, so inside the sweep of [main] the vector is not changed
    by a pair that involves a stale record. *)
Theorem plus_assign_stale_frame (this other : AvcContext) :
  stale this = true ∨ stale other = true →
  plus_assign this other = (this, other)
  ∧ ∀ (v : list AvcContext) (i j : nat),
      v !! i = Some this → v !! j = Some other → merge_pair i j v = v.
Proof.
  intros H. split; [by apply plus_assign_stale|].
  intros v i j Hi Hj. unfold merge_pair.
  destruct (decide (i = j)); [done|].
  rewrite Hi, Hj, (plus_assign_stale _ _ H).
  rewrite (list_insert_id v i this Hi). by apply list_insert_id.
Qed.

Lemma plus_assign_stale_frame_witness :
  plus_assign rec_a (set_stale true rec_b) = (rec_a, set_stale true rec_b)
  ∧ ∀ (v : list AvcContext) (i j : nat),
      v !! i = Some rec_a → v !! j = Some (set_stale true rec_b) →
      merge_pair i j v = v.
Proof.
  apply (plus_assign_stale_frame rec_a (set_stale true rec_b)).
  right. reflexivity.
Defined.

(** ** The denial filter *)

(** C5, as amended: when the denial filter matches a line, the filter
    reports a match and appends the record the constructor returns for the
    line to the collection; when parsing failed that record is stale, comes
    with a diagnostic, never takes part in a merge, and nothing is written
    for it by [operator<<]. *)
Theorem failed_parse_appends_stale_record (u : Indeterminate)
    (line : string) (ctx : list AvcContext) :
  is_Some (Regex.regex_search kAvcMessageRegEX line) →
  Str.find "untrusted_app" line = None →
  ∃ e log, AvcContext_ctor u line = Done (e, log)
    ∧ AvcFilterContext_filter u line (Some ctx) = Done (true, Some (ctx ++ [e]))
    ∧ (stale e = true →
         log ≠ [] ∧ print_AvcContext e = EmptyString
         ∧ ∀ e', plus_assign e' e = (e', e) ∧ plus_assign e e' = (e, e')).
Proof.
  intros Hre Hun.
  destruct (AvcContext_ctor_total u line Hre) as (e & log & Hctor).
  exists e, log. split; [done|]. split.
  - unfold AvcFilterContext_filter.
    rewrite (bool_decide_eq_true_2 _ Hre), (bool_decide_eq_true_2 _ Hun), Hctor.
    done.
  - intros Hst. split; [by apply (AvcContext_ctor_stale_log u line e log)|]. split.
    + unfold print_AvcContext. by rewrite Hst.
    + intros e'. split; apply plus_assign_stale; auto.
Qed.

Lemma failed_parse_appends_stale_record_witness :
  ∃ e log, AvcContext_ctor all_set line_no_permissive = Done (e, log)
    ∧ AvcFilterContext_filter all_set line_no_permissive (Some [rec_a])
      = Done (true, Some ([rec_a] ++ [e]))
    ∧ (stale e = true →
         log ≠ [] ∧ print_AvcContext e = EmptyString
         ∧ ∀ e', plus_assign e' e = (e', e) ∧ plus_assign e e' = (e, e')).
Proof.
  apply (failed_parse_appends_stale_record all_set line_no_permissive [rec_a]).
  - vm_compute. eauto.
  - vm_compute. reflexivity.
Defined.

(** C5, as stated, fails: the line matches the filter, the constructor
    leaves its record stale, and the collection has grown by that record,
    for which an empty line is written. *)
Lemma failed_parse_record_is_appended :
  (∀ u, AvcContext_ctor u line_no_permissive
          = Done (rec_no_permissive u, [FailedToParse]))
  ∧ (∀ u, stale (rec_no_permissive u) = true)
  ∧ (∀ u, AvcFilterContext_filter u line_no_permissive (Some [])
          = Done (true, Some [rec_no_permissive u]))
  ∧ (∀ u, AvcFilterContext_filter u line_no_permissive (Some [])
          ≠ Done (true, Some []))
  ∧ (∀ u, print_AvcContexts [rec_no_permissive u] = newline)
  ∧ print_AvcContexts [] = EmptyString.
Proof.
  split; [intros u; vm_compute; reflexivity|]. split; [reflexivity|].
  split; [intros u; vm_compute; reflexivity|].
  split; [intros u; vm_compute; discriminate|].
  split; [intros u|]; vm_compute; reflexivity.
Qed.

(** The line of the first end-to-end scenario is not matched and leaves the
    collection as it is. *)
Example untrusted_app_line_ignored :
  AvcFilterContext_filter all_set line_untrusted (Some []) = Done (false, Some []).
Proof. vm_compute. reflexivity. Qed.

(** ** The merge sweep *)

Section Sweep.

Implicit Types (v w : list AvcContext) (e a b : AvcContext) (i j p : nat).

Lemma rule_key_eq a b : rule_key a = rule_key b ↔ same_rule_key a b.
Proof.
  unfold rule_key, same_rule_key. split.
  - intros [= -> -> -> ->]. done.
  - intros (-> & -> & -> & ->). done.
Qed.

(** The two outcomes of one step of the sweep. *)
Lemma merge_pair_cases i j w :
  merge_pair i j w = w
  ∨ ∃ e1 e2, i ≠ j ∧ w !! i = Some e1 ∧ w !! j = Some e2
      ∧ stale e1 = false ∧ stale e2 = false ∧ rule_key e1 = rule_key e2
      ∧ merge_pair i j w
        = <[j:=set_stale true e2]>
            (<[i:=set_operation (operation e1 ∪ operation e2) e1]> w).
Proof.
  unfold merge_pair. destruct (decide (i = j)) as [|Hij]; [by left|].
  destruct (w !! i) as [e1|] eqn:Hi; [|by left].
  destruct (w !! j) as [e2|] eqn:Hj; [|by left].
  unfold plus_assign.
  destruct (stale e1) eqn:H1; simpl.
  { left. rewrite (list_insert_id w i e1 Hi). by apply list_insert_id. }
  destruct (stale e2) eqn:H2; simpl.
  { left. rewrite (list_insert_id w i e1 Hi). by apply list_insert_id. }
  destruct (mergable e1 e2) eqn:Hm.
  - right. exists e1, e2. apply mergable_spec, rule_key_eq in Hm. done.
  - left. rewrite (list_insert_id w i e1 Hi). by apply list_insert_id.
Qed.

(** What a merging step leaves at each index. *)
Lemma lookup_merged i j w e1 e2 p :
  i ≠ j → w !! i = Some e1 → w !! j = Some e2 →
  <[j:=set_stale true e2]>
    (<[i:=set_operation (operation e1 ∪ operation e2) e1]> w) !! p
  = if decide (p = j) then Some (set_stale true e2)
    else if decide (p = i)
         then Some (set_operation (operation e1 ∪ operation e2) e1)
         else w !! p.
Proof.
  intros Hij Hi Hj.
  apply lookup_lt_Some in Hi. apply lookup_lt_Some in Hj.
  destruct (decide (p = j)) as [->|Hpj].
  { apply list_lookup_insert_eq. by rewrite length_insert. }
  rewrite list_lookup_insert_ne by done.
  destruct (decide (p = i)) as [->|Hpi].
  { by apply list_lookup_insert_eq. }
  by rewrite list_lookup_insert_ne.
Qed.

Lemma evolves_refl w : evolves w w.
Proof. split; [done|]. intros p e' H. by exists e'. Qed.

Lemma evolves_trans w1 w2 w3 : evolves w1 w2 → evolves w2 w3 → evolves w1 w3.
Proof.
  intros [Hl1 H1] [Hl2 H2]. split; [congruence|].
  intros p e3 H3. apply H2 in H3 as (e2 & H3 & Hk2 & Hs2).
  apply H1 in H3 as (e1 & H3 & Hk1 & Hs1).
  exists e1. split; [done|]. split; [congruence|auto].
Qed.

Lemma merge_pair_evolves i j w : evolves w (merge_pair i j w).
Proof.
  destruct (merge_pair_cases i j w)
    as [-> | (e1 & e2 & Hij & Hi & Hj & H1 & H2 & Hk & ->)];
    [apply evolves_refl|].
  split; [by rewrite !length_insert|].
  intros p e'. rewrite (lookup_merged i j w e1 e2 p Hij Hi Hj).
  destruct (decide (p = j)) as [->|]; [|destruct (decide (p = i)) as [->|]].
  - intros [= <-]. exists e2. done.
  - intros [= <-]. exists e1. done.
  - intros H. by exists e'.
Qed.

Lemma settled_evolves i j w w' : evolves w w' → settled i j w → settled i j w'.
Proof.
  intros [_ H] Hs a' b' Ha Hb Hsa Hsb.
  apply H in Ha as (a & Ha & Hka & Hla). apply H in Hb as (b & Hb & Hkb & Hlb).
  rewrite <- Hka, <- Hkb. apply (Hs a b); auto.
Qed.

Lemma merge_pair_settles i j w : i ≠ j → settled i j (merge_pair i j w).
Proof.
  intros Hij.
  destruct (merge_pair_cases i j w)
    as [Heq | (e1 & e2 & _ & Hi & Hj & H1 & H2 & Hk & ->)].
  - rewrite Heq. intros a b Ha Hb Hsa Hsb Hkey.
    revert Heq. unfold merge_pair. rewrite decide_False by done.
    rewrite Ha, Hb. unfold plus_assign. rewrite Hsa, Hsb. simpl.
    apply rule_key_eq, mergable_spec in Hkey. rewrite Hkey.
    intros Heq. apply (f_equal (λ l, stale <$> l !! j)) in Heq.
    rewrite list_lookup_insert_eq in Heq.
    + rewrite Hb in Heq. simpl in Heq. congruence.
    + rewrite length_insert. by eapply lookup_lt_Some.
  - intros a b _. rewrite (lookup_merged i j w e1 e2 j Hij Hi Hj).
    rewrite decide_True by done. by intros [= <-].
Qed.

(** Invariants along a fold of steps. *)
Lemma foldl_evolves {A} (f : list AvcContext → A → list AvcContext) :
  (∀ w x, evolves w (f w x)) → ∀ l w, evolves w (foldl f w l).
Proof.
  intros Hf l. induction l as [|x l IH]; intros w; simpl; [apply evolves_refl|].
  eapply evolves_trans; [apply Hf|apply IH].
Qed.

Lemma foldl_settles {A} (f : list AvcContext → A → list AvcContext) i j x :
  (∀ w y, evolves w (f w y)) → (∀ w, settled i j (f w x)) →
  ∀ l w, x ∈ l → settled i j (foldl f w l).
Proof.
  intros Hf Hx l. induction l as [|y l IH]; intros w Hin; simpl.
  { by apply elem_of_nil in Hin. }
  apply elem_of_cons in Hin as [<- | Hin]; [|by apply IH].
  eapply settled_evolves; [by apply foldl_evolves|apply Hx].
Qed.

Lemma merge_inner_evolves i w : evolves w (merge_inner i w).
Proof. apply foldl_evolves. intros. apply merge_pair_evolves. Qed.

Lemma merge_sweep_evolves w : evolves w (merge_sweep w).
Proof. apply foldl_evolves. intros. apply merge_inner_evolves. Qed.

Lemma settled_out_of_range i j w : length w ≤ j → settled i j w.
Proof. intros H a b _ Hb. apply lookup_lt_Some in Hb. lia. Qed.

Lemma settled_sym i j w : settled i j w → settled j i w.
Proof. intros H a b Ha Hb Hsa Hsb Hk. by apply (H b a). Qed.

Lemma merge_inner_settles i j w : i ≠ j → settled i j (merge_inner i w).
Proof.
  intros Hij. destruct (decide (j < length w)) as [Hj|Hj].
  - apply foldl_settles with (x := j).
    + intros. apply merge_pair_evolves.
    + intros. by apply merge_pair_settles.
    + apply elem_of_seq. lia.
  - apply settled_out_of_range.
    destruct (merge_inner_evolves i w) as [-> _]. lia.
Qed.

(** After the sweep no two live records share a key. *)
Lemma merge_sweep_settles i j w : i ≠ j → settled i j (merge_sweep w).
Proof.
  intros Hij. destruct (decide (i < length w)) as [Hi|Hi].
  - apply foldl_settles with (x := i).
    + intros. apply merge_inner_evolves.
    + intros. by apply merge_inner_settles.
    + apply elem_of_seq. lia.
  - apply settled_sym, settled_out_of_range.
    destruct (merge_sweep_evolves w) as [-> _]. lia.
Qed.

End Sweep.

Section SweepClasses.

Implicit Types (v w : list AvcContext) (e a b : AvcContext) (i j p : nat).
Implicit Types (k : bool * SEContext * SEContext * string) (x : string).

(** One step keeps, for every key, the operations of its live records. *)
Lemma merge_pair_in_class i j w k x :
  in_class k x (merge_pair i j w) ↔ in_class k x w.
Proof.
  destruct (merge_pair_cases i j w)
    as [-> | (e1 & e2 & Hij & Hi & Hj & H1 & H2 & Hk & ->)]; [done|].
  unfold in_class. split.
  - intros (e & He & Hs & Hke & Hx).
    apply list_elem_of_lookup in He as [p Hp].
    rewrite (lookup_merged i j w e1 e2 p Hij Hi Hj) in Hp.
    destruct (decide (p = j)) as [->|]; [|destruct (decide (p = i)) as [->|]].
    + injection Hp as <-. done.
    + injection Hp as <-. simpl in Hx.
      apply elem_of_union in Hx as [Hx | Hx].
      * exists e1. split; [by eapply list_elem_of_lookup_2|done].
      * exists e2. split; [by eapply list_elem_of_lookup_2|].
        split; [done|]. split; [|done]. by rewrite <- Hk.
    + exists e. split; [by eapply list_elem_of_lookup_2|done].
  - intros (e & He & Hs & Hke & Hx).
    apply list_elem_of_lookup in He as [p Hp].
    destruct (decide (p = j)) as [->|Hpj]; [|destruct (decide (p = i)) as [->|Hpi]].
    + assert (e = e2) as -> by congruence.
      exists (set_operation (operation e1 ∪ operation e2) e1).
      split; [|split; [done|split; [by rewrite <- Hke, <- Hk|]]].
      * apply list_elem_of_lookup. exists i.
        rewrite (lookup_merged i j w e1 e2 i Hij Hi Hj).
        rewrite decide_False by done. by rewrite decide_True.
      * simpl. apply elem_of_union. by right.
    + assert (e = e1) as -> by congruence.
      exists (set_operation (operation e1 ∪ operation e2) e1).
      split; [|split; [done|split; [done|]]].
      * apply list_elem_of_lookup. exists i.
        rewrite (lookup_merged i j w e1 e2 i Hij Hi Hj).
        rewrite decide_False by done. by rewrite decide_True.
      * simpl. apply elem_of_union. by left.
    + exists e. split; [|done]. apply list_elem_of_lookup. exists p.
      rewrite (lookup_merged i j w e1 e2 p Hij Hi Hj).
      rewrite decide_False by done. by rewrite decide_False.
Qed.

(** One step keeps the set of keys that have a live record. *)
Lemma merge_pair_live_key i j w k :
  live_key k (merge_pair i j w) ↔ live_key k w.
Proof.
  destruct (merge_pair_cases i j w)
    as [-> | (e1 & e2 & Hij & Hi & Hj & H1 & H2 & Hk & ->)]; [done|].
  unfold live_key. split.
  - intros (e & He & Hs & Hke).
    apply list_elem_of_lookup in He as [p Hp].
    rewrite (lookup_merged i j w e1 e2 p Hij Hi Hj) in Hp.
    destruct (decide (p = j)) as [->|]; [|destruct (decide (p = i)) as [->|]].
    + injection Hp as <-. done.
    + injection Hp as <-. exists e1. split; [by eapply list_elem_of_lookup_2|done].
    + exists e. split; [by eapply list_elem_of_lookup_2|done].
  - intros (e & He & Hs & Hke).
    apply list_elem_of_lookup in He as [p Hp].
    destruct (decide (p = j)) as [->|Hpj]; [|destruct (decide (p = i)) as [->|Hpi]].
    + assert (e = e2) as -> by congruence.
      exists (set_operation (operation e1 ∪ operation e2) e1).
      split; [|split; [done|by rewrite <- Hke, <- Hk]].
      apply list_elem_of_lookup. exists i.
      rewrite (lookup_merged i j w e1 e2 i Hij Hi Hj).
      rewrite decide_False by done. by rewrite decide_True.
    + assert (e = e1) as -> by congruence.
      exists (set_operation (operation e1 ∪ operation e2) e1).
      split; [|done]. apply list_elem_of_lookup. exists i.
      rewrite (lookup_merged i j w e1 e2 i Hij Hi Hj).
      rewrite decide_False by done. by rewrite decide_True.
    + exists e. split; [|done]. apply list_elem_of_lookup. exists p.
      rewrite (lookup_merged i j w e1 e2 p Hij Hi Hj).
      rewrite decide_False by done. by rewrite decide_False.
Qed.

Lemma foldl_iff {A} (f : list AvcContext → A → list AvcContext)
    (P : list AvcContext → Prop) :
  (∀ w y, P (f w y) ↔ P w) → ∀ l w, P (foldl f w l) ↔ P w.
Proof.
  intros Hf l. induction l as [|y l IH]; intros w; simpl; [done|].
  by rewrite IH.
Qed.

Lemma merge_sweep_in_class w k x : in_class k x (merge_sweep w) ↔ in_class k x w.
Proof.
  apply (foldl_iff _ (in_class k x)). intros w' i.
  apply (foldl_iff _ (in_class k x)). intros w'' j. apply merge_pair_in_class.
Qed.

Lemma merge_sweep_live_key w k : live_key k (merge_sweep w) ↔ live_key k w.
Proof.
  apply (foldl_iff _ (live_key k)). intros w' i.
  apply (foldl_iff _ (live_key k)). intros w'' j. apply merge_pair_live_key.
Qed.

Lemma in_class_perm v v' k x : v ≡ₚ v' → in_class k x v ↔ in_class k x v'.
Proof. intros H. unfold in_class. by setoid_rewrite H. Qed.

Lemma live_key_perm v v' k : v ≡ₚ v' → live_key k v ↔ live_key k v'.
Proof. intros H. unfold live_key. by setoid_rewrite H. Qed.

(** A vector where no two live records share a key. *)
Lemma settled_tail e w :
  (∀ i j, i ≠ j → settled i j (e :: w)) → ∀ i j, i ≠ j → settled i j w.
Proof.
  intros H i j Hij a b Ha Hb. apply (H (S i) (S j)); [lia|done..].
Qed.

Lemma settled_unique w a b :
  (∀ i j, i ≠ j → settled i j w) →
  a ∈ w → b ∈ w → stale a = false → stale b = false →
  rule_key a = rule_key b → a = b.
Proof.
  intros H Ha Hb Hsa Hsb Hk.
  apply list_elem_of_lookup in Ha as [i Hi].
  apply list_elem_of_lookup in Hb as [j Hj].
  destruct (decide (i = j)) as [->|Hij]; [congruence|].
  by destruct (H i j Hij a b).
Qed.

Lemma settled_NoDup_keys w :
  (∀ i j, i ≠ j → settled i j w) →
  NoDup (rule_key <$> filter (λ e, stale e = false) w).
Proof.
  induction w as [|e w IH]; intros H; [constructor|].
  rewrite filter_cons. destruct (decide (stale e = false)) as [He|He].
  - rewrite fmap_cons. constructor; [|by eapply IH, settled_tail].
    intros Hin. apply list_elem_of_fmap in Hin as (b & Hk & Hb).
    apply list_elem_of_filter in Hb as [Hsb Hb].
    apply list_elem_of_lookup in Hb as [j Hj].
    by apply (H 0 (S j) ltac:(lia) e b).
  - by eapply IH, settled_tail.
Qed.

(** After the sweep a live record holds all operations of its class. *)
Lemma merge_sweep_operations v e x :
  e ∈ merge_sweep v → stale e = false →
  x ∈ operation e ↔ in_class (rule_key e) x v.
Proof.
  intros He Hs. rewrite <- merge_sweep_in_class. split.
  - intros Hx. by exists e.
  - intros (e' & He' & Hs' & Hk & Hx).
    rewrite <- (settled_unique (merge_sweep v) e' e); auto.
    intros i j Hij. by apply merge_sweep_settles.
Qed.

Lemma print_AvcContext_live e :
  stale e = false → print_AvcContext e = print_live (rule_key e) (operation e).
Proof. intros H. unfold print_live, print_AvcContext. simpl. by rewrite H. Qed.

Lemma surviving_lines_key_ops w :
  surviving_lines w
  = (λ ko, print_live ko.1 ko.2) <$> (key_ops <$> filter (λ e, stale e = false) w).
Proof.
  unfold surviving_lines. rewrite <- list_fmap_compose.
  apply Forall_fmap_ext, Forall_forall. intros e He.
  apply list_elem_of_filter in He as [He _]. by apply print_AvcContext_live.
Qed.

Lemma key_ops_sweep_subset v v' ko :
  v ≡ₚ v' →
  ko ∈ key_ops <$> filter (λ e, stale e = false) (merge_sweep v) →
  ko ∈ key_ops <$> filter (λ e, stale e = false) (merge_sweep v').
Proof.
  intros Hp Hin. apply list_elem_of_fmap in Hin as (e & -> & He).
  apply list_elem_of_filter in He as [Hs He].
  assert (live_key (rule_key e) (merge_sweep v')) as (e' & He' & Hs' & Hk').
  { apply merge_sweep_live_key, (live_key_perm v v'); [done|].
    apply merge_sweep_live_key. by exists e. }
  apply list_elem_of_fmap. exists e'. split.
  - unfold key_ops. f_equal; [done|]. apply set_eq. intros x.
    rewrite (merge_sweep_operations v e x He Hs).
    rewrite (merge_sweep_operations v' e' x He' Hs'), Hk'.
    by apply in_class_perm.
  - by apply list_elem_of_filter.
Qed.

End SweepClasses.

(** Permuting the collection permutes the rule lines that survive. *)
Lemma surviving_lines_perm (v v' : list AvcContext) :
  v ≡ₚ v' →
  surviving_lines (merge_sweep v) ≡ₚ surviving_lines (merge_sweep v').
Proof.
  intros Hp. rewrite !surviving_lines_key_ops. apply fmap_Permutation.
  apply NoDup_Permutation.
  - apply (NoDup_fmap_1 fst). rewrite <- list_fmap_compose.
    apply settled_NoDup_keys. intros i j Hij. by apply merge_sweep_settles.
  - apply (NoDup_fmap_1 fst). rewrite <- list_fmap_compose.
    apply settled_NoDup_keys. intros i j Hij. by apply merge_sweep_settles.
  - intros ko. split; apply key_ops_sweep_subset; [done|by symmetry].
Qed.

(** ** Rule synthesis *)

Section Rules.

Implicit Types (context : list AvcContext) (e : AvcContext) (line : string).

Lemma rules_of_fold context (acc : gset string) line :
  line ∈ foldl (λ rules e, rules ∪ {[ print_AvcContext e +:+ newline ]}) acc context
  ↔ line ∈ acc ∨ ∃ e, e ∈ context ∧ line = print_AvcContext e +:+ newline.
Proof.
  revert acc. induction context as [|e0 context IH]; intros acc; simpl.
  - split; [by left|]. intros [H | (e & He & _)]; [done|]. by apply elem_of_nil in He.
  - rewrite IH, elem_of_union, elem_of_singleton. split.
    + intros [[H | H] | (e & He & Hl)]; [by left| |].
      * right. exists e0. split; [left|done].
      * right. exists e. split; [by right|done].
    + intros [H | (e & He & Hl)]; [by left; left|].
      apply elem_of_cons in He as [-> | He]; [by left; right|].
      right. by exists e.
Qed.

Lemma elem_of_rules_of context line :
  line ∈ rules_of context
  ↔ ∃ e, e ∈ context ∧ line = print_AvcContext e +:+ newline.
Proof.
  unfold rules_of. rewrite rules_of_fold. split; [|by right].
  intros [H | H]; [|done]. by apply not_elem_of_empty in H.
Qed.

Lemma set_iter_perm (X : gset string) : set_iter X ≡ₚ elements X.
Proof. apply merge_sort_Permutation. Qed.

Lemma elem_of_set_iter (X : gset string) x : x ∈ set_iter X ↔ x ∈ X.
Proof. by rewrite set_iter_perm, elem_of_elements. Qed.

Lemma NoDup_set_iter (X : gset string) : NoDup (set_iter X).
Proof. rewrite set_iter_perm. apply NoDup_elements. Qed.

Lemma set_iter_sorted (X : gset string) : StronglySorted String.le (set_iter X).
Proof. apply StronglySorted_merge_sort; apply _. Qed.

Lemma StronglySorted_strict (l : list string) :
  StronglySorted String.le l → NoDup l → StronglySorted str_lt l.
Proof.
  induction 1 as [|x l Hs IH Hx]; intros Hnd; [constructor|].
  apply NoDup_cons in Hnd as [Hx' Hnd]. constructor; [by apply IH|].
  rewrite Forall_forall in Hx |- *. intros y Hy. split; [by apply Hx|].
  intros ->. by apply Hx'.
Qed.

Lemma rules_of_app context1 context2 :
  rules_of (context1 ++ context2) = rules_of context1 ∪ rules_of context2.
Proof.
  apply set_eq. intros line.
  rewrite elem_of_union, !elem_of_rules_of. split.
  - intros (e & He & Hl). apply elem_of_app in He as [He | He]; [left|right]; eauto.
  - intros [(e & He & Hl) | (e & He & Hl)]; exists e; rewrite elem_of_app; eauto.
Qed.

Lemma rules_of_cons e context :
  rules_of (e :: context) = {[ print_AvcContext e +:+ newline ]} ∪ rules_of context.
Proof.
  apply set_eq. intros line.
  rewrite elem_of_union, elem_of_singleton, !elem_of_rules_of. split.
  - intros (e' & He & Hl). apply elem_of_cons in He as [-> | He]; [by left|].
    right. eauto.
  - intros [-> | (e' & He & Hl)]; [exists e; split; [left|done]|].
    exists e'. split; [by right|done].
Qed.

End Rules.

(** C7, as amended: a record with an empty operation set is omitted.
    [operator<<] writes nothing for it, and in the output for a collection
    the record stands for an empty line only. *)
Theorem empty_operation_record_is_omitted (e : AvcContext) :
  operation e = ∅ →
  print_AvcContext e = EmptyString
  ∧ ∀ before after : list AvcContext,
      rules_of (before ++ e :: after) = rules_of (before ++ after) ∪ {[ newline ]}.
Proof.
  intros He.
  assert (print_AvcContext e = EmptyString) as Hp.
  { unfold print_AvcContext. rewrite He, size_empty. simpl. by rewrite orb_true_r. }
  split; [done|]. intros before after.
  rewrite !rules_of_app, rules_of_cons, Hp. simpl.
  by rewrite (comm_L (∪) {[ _ ]}), (assoc_L (∪)).
Qed.

Lemma empty_operation_record_is_omitted_witness :
  print_AvcContext rec_noop = EmptyString
  ∧ ∀ before after : list AvcContext,
      rules_of (before ++ rec_noop :: after)
      = rules_of (before ++ after) ∪ {[ newline ]}.
Proof. apply (empty_operation_record_is_omitted rec_noop). reflexivity. Defined.

(** C7, as stated, fails: a record that is not stale and has no operation is
    not rendered as [allow S T:C ;], nothing is written for it. *)
Lemma empty_operation_record_not_rendered :
  stale rec_noop = false ∧ operation rec_noop = ∅
  ∧ degenerate_rule rec_noop = "allow mydomain vendor_device:chr_file ;"
  ∧ print_AvcContext rec_noop = EmptyString
  ∧ print_AvcContext rec_noop ≠ degenerate_rule rec_noop.
Proof. repeat split. vm_compute. discriminate. Qed.

(** C6: a record whose operation set contains [sys_admin] gets no rule
    line, whatever else is in the set: [operator<<] writes nothing for it,
    and in the output for a collection the record stands for an empty line
    only. *)
Theorem excluded_operation_suppressed (e : AvcContext) :
  "sys_admin" ∈ operation e →
  print_AvcContext e = EmptyString
  ∧ ∀ before after : list AvcContext,
      rules_of (before ++ e :: after) = rules_of (before ++ after) ∪ {[ newline ]}.
Proof.
  intros He.
  assert (print_AvcContext e = EmptyString) as Hp.
  { unfold print_AvcContext. destruct (_ || _); [done|]. by rewrite bool_decide_eq_true_2. }
  split; [done|]. intros before after.
  rewrite !rules_of_app, rules_of_cons, Hp. simpl.
  by rewrite (comm_L (∪) {[ _ ]}), (assoc_L (∪)).
Qed.

Lemma excluded_operation_suppressed_witness :
  print_AvcContext rec_admin = EmptyString
  ∧ ∀ before after : list AvcContext,
      rules_of (before ++ rec_admin :: after)
      = rules_of (before ++ after) ∪ {[ newline ]}.
Proof.
  apply (excluded_operation_suppressed rec_admin). vm_compute. reflexivity.
Defined.

(** C9: the output for a collection is the concatenation of its distinct
    rendered lines, each with its line terminator, every one exactly once
    however many records render to it, in strictly increasing lexicographic
    order. *)
Theorem output_deduplicated_and_sorted (context : list AvcContext) :
  print_AvcContexts context = concat_str (output_lines context)
  ∧ NoDup (output_lines context)
  ∧ StronglySorted str_lt (output_lines context)
  ∧ ∀ line, line ∈ output_lines context
            ↔ ∃ e, e ∈ context ∧ line = print_AvcContext e +:+ newline.
Proof.
  unfold output_lines. split; [done|]. split; [apply NoDup_set_iter|]. split.
  - apply StronglySorted_strict; [apply set_iter_sorted|apply NoDup_set_iter].
  - intros line. by rewrite elem_of_set_iter, elem_of_rules_of.
Qed.

(** ** The text written after the sweep *)

Section Output.

Implicit Types (v w : list AvcContext) (e : AvcContext) (line : string).

Lemma exists_stale_length w :
  (∃ e, e ∈ w ∧ stale e = true)
  ↔ length (filter (λ e, stale e = false) w) < length w.
Proof.
  induction w as [|e w IH].
  - split; [by intros (e & He%elem_of_nil & _)|simpl; lia].
  - rewrite filter_cons. destruct (decide (stale e = false)) as [He|He].
    + simpl. rewrite <- Nat.succ_lt_mono, <- IH. split.
      * intros (e' & [-> | Hin]%elem_of_cons & Hs); [congruence|eauto].
      * intros (e' & Hin & Hs). exists e'. split; [by right|done].
    + split; [|intros _; exists e; split; [left|by destruct (stale e)]].
      intros _. pose proof (length_filter (λ e, stale e = false) w). simpl. lia.
Qed.

Lemma elem_of_rules_of_split w line :
  line ∈ rules_of w
  ↔ (∃ l, l ∈ surviving_lines w ∧ line = l +:+ newline)
    ∨ (line = newline ∧ ∃ e, e ∈ w ∧ stale e = true).
Proof.
  rewrite elem_of_rules_of. unfold surviving_lines. split.
  - intros (e & He & ->). destruct (stale e) eqn:Hs.
    + right. split; [|by eauto]. unfold print_AvcContext. by rewrite Hs.
    + left. exists (print_AvcContext e). split; [|done].
      apply list_elem_of_fmap. exists e. split; [done|]. by apply list_elem_of_filter.
  - intros [(l & Hl & ->) | (-> & e & He & Hs)].
    + apply list_elem_of_fmap in Hl as (e & -> & He).
      apply list_elem_of_filter in He as [_ He]. eauto.
    + exists e. split; [done|]. unfold print_AvcContext. by rewrite Hs.
Qed.

(** The rule file does not depend on the order in which the records were
    collected. *)
Lemma sepolicy_gen_order_independent v v' :
  v ≡ₚ v' → sepolicy_gen v = sepolicy_gen v'.
Proof.
  intros Hp. unfold sepolicy_gen, print_AvcContexts. f_equal. f_equal.
  pose proof (surviving_lines_perm v v' Hp) as Hlines.
  apply set_eq. intros line. rewrite !elem_of_rules_of_split, !exists_stale_length.
  assert (length (filter (λ e, stale e = false) (merge_sweep v))
          = length (filter (λ e, stale e = false) (merge_sweep v'))) as ->.
  { apply Permutation_length in Hlines. unfold surviving_lines in Hlines.
    by rewrite !length_fmap in Hlines. }
  destruct (merge_sweep_evolves v) as [-> _].
  destruct (merge_sweep_evolves v') as [-> _].
  rewrite (Permutation_length Hp). by setoid_rewrite Hlines.
Qed.

End Output.

(** C4: the merge sweep followed by rendering does not depend on the order
    of the collection: for a permutation of the records, the rule lines of
    the records that are live after the sweep are the same multiset, and the
    text written for the collection is the same. *)
Theorem merge_sweep_order_independent (v v' : list AvcContext) :
  v ≡ₚ v' →
  surviving_lines (merge_sweep v) ≡ₚ surviving_lines (merge_sweep v')
  ∧ sepolicy_gen v = sepolicy_gen v'.
Proof.
  intros Hp. split; [by apply surviving_lines_perm|].
  by apply sepolicy_gen_order_independent.
Qed.

Lemma merge_sweep_order_independent_witness :
  surviving_lines (merge_sweep [rec_a; rec_b; rec_admin])
  ≡ₚ surviving_lines (merge_sweep [rec_admin; rec_b; rec_a])
  ∧ sepolicy_gen [rec_a; rec_b; rec_admin] = sepolicy_gen [rec_admin; rec_b; rec_a].
Proof.
  apply (merge_sweep_order_independent [rec_a; rec_b; rec_admin]
           [rec_admin; rec_b; rec_a]).
  apply (Permutation_rev [rec_a; rec_b; rec_admin]).
Defined.

(** Two records that differ in their operations only: one survives, with
    both operations, whichever comes first. *)
Example sweep_ioctl_open :
  surviving_lines (merge_sweep [rec_a; rec_b])
    = ["allow mydomain vendor_device:chr_file { ioctl open };"]
  ∧ surviving_lines (merge_sweep [rec_b; rec_a])
    = ["allow mydomain vendor_device:chr_file { ioctl open };"]
  ∧ print_AvcContexts (merge_sweep [rec_a; rec_b])
    = newline +:+ "allow mydomain vendor_device:chr_file { ioctl open };" +:+ newline.
Proof. repeat split; vm_compute; reflexivity. Qed.

(** * Further properties of the code *)

(** ** Quotes, labels and the marker *)

Section Quotes.

Implicit Types (v s : string).

Lemma inner_quoted s : inner (quoted s) = s.
Proof.
  unfold inner, quoted. cbn [Str.size Str.drop].
  rewrite str_size_app. cbn [Str.size].
  replace (S (Str.size s + 1) - 2) with (Str.size s) by lia. apply str_take_app.
Qed.

End Quotes.

(** X1: [TrimDoubleQuote] removes the two quotes of a string that is a
    non-empty text between double quotes, and returns every other string as
    it is: a lone quote, two quotes with nothing between them, a quote at one
    end only. *)
Theorem TrimDoubleQuote_cases (v : string) :
  (∃ s, s ≠ EmptyString ∧ v = quoted s ∧ TrimDoubleQuote v = s)
  ∨ ((∀ s, s ≠ EmptyString → v ≠ quoted s) ∧ TrimDoubleQuote v = v).
Proof.
  destruct (decide (v = quoted (inner v) ∧ inner v ≠ EmptyString)) as [[Hv Hne]|Hn].
  - left. exists (inner v). split; [done|]. split; [done|].
    rewrite Hv at 1. by apply TrimDoubleQuote_quoted.
  - assert (∀ s, s ≠ EmptyString → v ≠ quoted s) as Hv.
    { intros s Hs ->. apply Hn. by rewrite inner_quoted. }
    right. split; [done|]. by apply TrimDoubleQuote_other.
Qed.

Section CanonicalLabels.

Implicit Types (text name : string).

Lemma canonical_size (o : bool) name extra :
  Str.size name < Str.size (canonical_label o name extra).
Proof.
  unfold canonical_label. rewrite !str_size_app. destruct o; simpl; lia.
Qed.

Lemma canonical_not_name (o : bool) name extra :
  Str.forallb name_char (canonical_label o name extra) = false.
Proof. unfold canonical_label. by destruct o. Qed.

Lemma regex_match_canonical text :
  is_Some (Regex.regex_match kSEContextRegex text) ↔ ∃ name, is_canonical text name.
Proof.
  split.
  - intros [m Hm]. apply regex_match_sound, lang_kSEContextRegex in Hm
      as (o & name & extra & -> & Hne & Hname & Hextra).
    exists name, o, extra. done.
  - intros (name & o & extra & -> & Hne & Hname & Hextra).
    destruct (Regex.regex_match kSEContextRegex (canonical_label o name extra))
      as [m|] eqn:Hm; [by eauto|]. exfalso.
    pose proof (SEContext_ctor_canonical o name extra Hne Hname Hextra) as H.
    unfold SEContext_ctor in H. rewrite Hm in H. injection H as H.
    pose proof (canonical_size o name extra). rewrite H in *. lia.
Qed.

Lemma SEContext_ctor_of_canonical text name :
  is_canonical text name → SEContext_ctor text = {| m_context := name |}.
Proof.
  intros (o & extra & -> & Hne & Hname & Hextra).
  by apply SEContext_ctor_canonical.
Qed.

Lemma SEContext_ctor_of_name name :
  Str.forallb name_char name = true →
  SEContext_ctor name = {| m_context := name |}.
Proof.
  intros Hname. unfold SEContext_ctor.
  destruct (Regex.regex_match kSEContextRegex name) as [m|] eqn:Hm; [|done].
  exfalso. assert (∃ n, is_canonical name n) as (n & o & extra & -> & _).
  { apply regex_match_canonical. by eauto. }
  by rewrite canonical_not_name in Hname.
Qed.

End CanonicalLabels.

(** X2: the [SEContext] constructor keeps the name part of every canonical
    label, with or without [object_] and whatever follows [:s0], and keeps
    every other string whole. *)
Theorem SEContext_ctor_cases (text : string) :
  (∃ name, is_canonical text name ∧ SEContext_ctor text = {| m_context := name |})
  ∨ ((∀ name, ¬ is_canonical text name)
     ∧ SEContext_ctor text = {| m_context := text |}).
Proof.
  destruct (Regex.regex_match kSEContextRegex text) as [m|] eqn:Hm.
  - left. assert (∃ name, is_canonical text name) as [name Hc].
    { apply regex_match_canonical. by eauto. }
    exists name. split; [done|]. by apply SEContext_ctor_of_canonical.
  - right. split.
    + intros name Hc.
      assert (is_Some (Regex.regex_match kSEContextRegex text)) as [m' Hm'].
      { apply regex_match_canonical. by eauto. }
      congruence.
    + unfold SEContext_ctor. by rewrite Hm.
Qed.

(** X3: building an [SEContext] from the text of an [SEContext] changes
    nothing: a name that was extracted once is never taken for a canonical
    label again. *)
Theorem SEContext_ctor_idempotent (text : string) :
  SEContext_ctor (m_context (SEContext_ctor text)) = SEContext_ctor text.
Proof.
  destruct (Regex.regex_match kSEContextRegex text) as [m|] eqn:Hm.
  - assert (∃ name, is_canonical text name) as [name Hc].
    { apply regex_match_canonical. by eauto. }
    rewrite (SEContext_ctor_of_canonical _ _ Hc). simpl.
    destruct Hc as (o & extra & _ & _ & Hname & _).
    by apply SEContext_ctor_of_name.
  - unfold SEContext_ctor at 2. rewrite Hm. simpl.
    unfold SEContext_ctor. by rewrite Hm.
Qed.

(** ** The constructor beyond the documented lines *)

Section Marker.

Lemma starts_with_sound needle s :
  Str.starts_with needle s = true → ∃ post, s = needle +:+ post.
Proof.
  revert s. induction needle as [|a n IH]; intros s H.
  - by exists s.
  - destruct s as [|b s]; [done|]. simpl in H.
    destruct (Ascii.eqb a b) eqn:E; [|done].
    apply Ascii.eqb_eq in E as ->. destruct (IH _ H) as [post ->]. by exists post.
Qed.

Lemma find_sound needle s pos : Str.find needle s = Some pos → contains needle s.
Proof.
  revert pos. induction s as [|a s IH]; intros pos; rewrite find_unfold.
  - destruct (Str.starts_with needle EmptyString) eqn:H; [|done].
    intros _. apply starts_with_sound in H as [post ->]. by exists EmptyString, post.
  - destruct (Str.starts_with needle (String a s)) eqn:H.
    + intros _. apply starts_with_sound in H as [post ->]. by exists EmptyString, post.
    + destruct (Str.find needle s) as [p|] eqn:Hf; [|done]. intros _.
      destruct (IH _ eq_refl) as (pre & post & ->). by exists (String a pre), post.
Qed.

Lemma op_loop_not_thrown rest (ops : gset string) : op_loop rest ops ≠ Thrown.
Proof.
  revert ops. induction rest as [|tok rest IH]; intros ops; simpl; [done|].
  destruct rest as [|t rest']; [done|]. destruct (String.eqb t "}"); [done|].
  apply IH.
Qed.

Lemma AvcContext_of_tokens_not_thrown (u : Indeterminate) lines :
  AvcContext_of_tokens u lines ≠ Thrown.
Proof.
  unfold AvcContext_of_tokens.
  destruct lines as [|t0 [|status it]]; [done..|].
  destruct (_ || _); [|done].
  destruct it as [|t2 it]; [done|].
  pose proof (op_loop_not_thrown it ∅) as Hop.
  destruct (op_loop it ∅) as [[it' ops]| |]; [|done..].
  by destruct it' as [|b [|f [|tok rest]]].
Qed.

End Marker.

(** X4: the constructor throws (the [substr] at [npos]) exactly on the lines
    that do not hold the marker [avc:]; on a line that holds it the
    constructor never throws. *)
Theorem AvcContext_ctor_throws_iff_no_marker (u : Indeterminate) (line : string) :
  AvcContext_ctor u line = Thrown ↔ ¬ contains "avc:" line.
Proof.
  unfold AvcContext_ctor. split.
  - intros H (pre & post & ->).
    destruct (find_first "avc:" pre post) as (pos & Hpos & _).
    rewrite Hpos in H. by apply AvcContext_of_tokens_not_thrown in H.
  - intros H. destruct (Str.find "avc:" line) as [pos|] eqn:Hf; [|done].
    destruct H. by eapply find_sound.
Qed.

Section Shapes.

Implicit Types (ops : list string) (kvs : list (string * string)).

Lemma marker_line_tokens prefix toks :
  Str.find "avc:" (prefix +:+ "avc:") = Some (Str.size prefix) →
  Forall is_token toks →
  Str.find "avc:" (prefix +:+ Str.unwords ("avc:" :: toks)) = Some (Str.size prefix)
  ∧ Str.tokens (Str.drop (Str.size prefix) (prefix +:+ Str.unwords ("avc:" :: toks)))
    = "avc:" :: toks.
Proof.
  intros Hfind Htoks. split.
  - destruct toks as [|t toks].
    + by rewrite <- (str_app_nil_r "avc:") at 1 2; rewrite str_app_nil_r.
    + change (Str.unwords ("avc:" :: t :: toks))
        with ("avc:" +:+ String " "%char (Str.unwords (t :: toks))).
      by apply find_app.
  - rewrite str_drop_app. apply tokens_unwords. by apply Forall_cons_2.
Qed.

Lemma first_value_list_to_map kvs k :
  (list_to_map kvs : gmap string string) !! k = first_value k kvs.
Proof.
  induction kvs as [|[k' v] kvs IH]; simpl; [done|].
  destruct (String.eqb k' k) eqn:E.
  - apply String.eqb_eq in E as ->. by rewrite lookup_insert_eq.
  - apply String.eqb_neq in E. by rewrite lookup_insert_ne.
Qed.

Lemma first_value_trimmed kvs k :
  first_value k (trimmed kvs) = stored_value k kvs.
Proof.
  unfold stored_value. induction kvs as [|[k' v] kvs IH]; simpl; [done|].
  by destruct (String.eqb k' k).
Qed.

Lemma lookup_trimmed kvs k :
  (list_to_map (trimmed kvs) : gmap string string) !! k = stored_value k kvs.
Proof. by rewrite first_value_list_to_map, first_value_trimmed. Qed.

(** On a line of the documented shape with at least one pair the constructor
    comes to its second half with the map of the pairs. *)
Lemma AvcContext_ctor_denial_line (u : Indeterminate) prefix granted0 ops kv kvs :
  Str.find "avc:" (prefix +:+ "avc:") = Some (Str.size prefix) →
  ops ≠ [] →
  Forall (λ op, is_token op ∧ op ≠ "}") ops →
  Forall attr_ok (kv :: kvs) →
  AvcContext_ctor u (denial_line prefix granted0 ops (kv :: kvs))
  = Done (AvcContext_finish u granted0 (list_to_set ops)
            (list_to_map (trimmed (kv :: kvs)), [])).
Proof.
  intros Hfind Hne Hops Hkvs.
  destruct (denial_line_tokens prefix granted0 ops (kv :: kvs) Hfind Hops Hkvs)
    as [Hf Htok].
  unfold AvcContext_ctor. rewrite Hf. cbv zeta. rewrite Htok.
  unfold AvcContext_of_tokens, denial_tokens.
  assert ((String.eqb (status_token granted0) "granted"
           || String.eqb (status_token granted0) "denied") = true) as ->
    by (by destruct granted0).
  assert (String.eqb (status_token granted0) "granted" = granted0) as ->
    by (by destruct granted0).
  rewrite op_loop_ops; [|done|by eapply Forall_impl; [exact Hops|intros ? []]].
  rewrite fmap_cons. cbv iota beta.
  rewrite (attr_loop_tokens kvs kv (∅, []) Hkvs). cbn [fst snd].
  by rewrite foldl_emplace, !(left_id_L ∅ (∪)).
Qed.

Lemma findOrDie_cases key (m : gmap string string) :
  findOrDie key m
  = (m !! key, delete key m,
     match m !! key with Some _ => [] | None => [EmptyValue key] end).
Proof.
  unfold findOrDie. destruct (m !! key) eqn:H; [done|].
  by rewrite delete_id.
Qed.

(** The second half of the constructor, by the pairs found. *)
Lemma AvcContext_finish_cases (u : Indeterminate) granted0 (ops : gset string)
    (m : gmap string string) :
  let rest := delete "tclass" (delete "tcontext" (delete "scontext" m)) in
  let ev k := match m !! k with Some _ => [] | None => [EmptyValue k] end in
  let base st p misc :=
    {| granted := granted0; operation := ops;
       scontext := default (scontext (AvcContext_init u))
                     (SEContext_ctor <$> m !! "scontext");
       tcontext := default (tcontext (AvcContext_init u))
                     (SEContext_ctor <$> m !! "tcontext");
       tclass := default EmptyString (m !! "tclass");
       misc_attributes := misc; permissive := p; stale := st |} in
  AvcContext_finish u granted0 ops (m, [])
  = match m !! "scontext", m !! "tcontext", m !! "tclass", m !! "permissive" with
    | Some _, Some _, Some _, Some v =>
        match permissive_value v with
        | Some p => (base false p (delete "permissive" rest), [])
        | None => (base true (any_permissive u) rest,
                   [InvalidPermissive v; FailedToParse])
        end
    | _, _, _, _ =>
        (base true (any_permissive u) rest,
         ev "scontext" ++ ev "tcontext" ++ ev "tclass" ++ [FailedToParse])
    end.
Proof.
  intros rest ev base. subst rest ev base.
  unfold AvcContext_finish, findOrDie_ctx. cbn [fst snd].
  rewrite !findOrDie_cases. rewrite !lookup_delete_ne by done.
  unfold permissive_value.
  destruct (m !! "scontext") as [vs|], (m !! "tcontext") as [vt|],
    (m !! "tclass") as [vc|], (m !! "permissive") as [vp|]; simpl; try done.
  by destruct (Str.read_int vp) as [[|[]|]|].
Qed.

End Shapes.

Section Attributes.

Implicit Types (ops attrs : list string) (kvs : list (string * string)).

Lemma find_trail needle prefix s :
  Str.find needle (prefix +:+ needle) = Some (Str.size prefix) →
  ∀ a, Str.find needle (prefix +:+ (needle +:+ a) +:+ s) = Some (Str.size prefix).
Proof.
  intros H a. rewrite str_app_assoc. by apply find_app.
Qed.

Lemma attr_loop_foldl tok rest (st : gmap string string * list diag) :
  attr_loop tok rest st = foldl (λ st t, attr_body t st) st (tok :: rest).
Proof.
  revert tok st. induction rest as [|t rest IH]; intros tok st; [done|].
  change (attr_loop tok (t :: rest) st) with (attr_loop t rest (attr_body tok st)).
  by rewrite IH.
Qed.

Lemma foldl_attr_body attrs (m : gmap string string) (log : list diag) :
  foldl (λ st t, attr_body t st) (m, log) attrs
  = (m ∪ list_to_map (trimmed (pairs_of attrs)), log ++ (Unparsable <$> junk_of attrs)).
Proof.
  revert m log. induction attrs as [|t attrs IH]; intros m log.
  - simpl. by rewrite (right_id_L ∅ (∪)), app_nil_r.
  - cbn [foldl]. unfold attr_body at 2. unfold pairs_of, junk_of, split_attr.
    cbn [omap list_omap]. rewrite filter_cons.
    destruct (Str.find_char "="%char t) as [idx|] eqn:Hf; cbn [fst snd fmap option_fmap option_map].
    + rewrite IH. rewrite decide_False by done. f_equal.
      unfold trimmed. rewrite fmap_cons. cbn [fst snd list_to_map foldr].
      rewrite emplace_union, <- (assoc_L (∪)).
      by rewrite <- insert_union_singleton_l.
    + rewrite IH. rewrite decide_True by done.
      by rewrite fmap_cons, <- app_assoc.
Qed.

Lemma AvcContext_finish_log (u : Indeterminate) granted0 (ops : gset string) m log0 :
  AvcContext_finish u granted0 ops (m, log0)
  = ((AvcContext_finish u granted0 ops (m, [])).1,
     log0 ++ (AvcContext_finish u granted0 ops (m, [])).2).
Proof.
  unfold AvcContext_finish, findOrDie_ctx. cbn [fst snd].
  destruct (findOrDie "scontext" m) as [[sc m1] d1].
  destruct (findOrDie "tcontext" m1) as [[tc m2] d2].
  destruct (findOrDie "tclass" m2) as [[cl m3] d3].
  destruct (_ && _).
  - destruct (Str.read_int _) as [[|[]|]|]; cbn [fst snd app];
      by rewrite ?app_assoc.
  - cbn [fst snd app]. by rewrite ?app_assoc.
Qed.

Lemma raw_line_tokens prefix granted0 ops attrs trail :
  Str.find "avc:" (prefix +:+ "avc:") = Some (Str.size prefix) →
  Forall (λ op, is_token op ∧ op ≠ "}") ops → Forall is_token attrs →
  Str.forallb Str.isspace trail = true →
  Str.find "avc:" (raw_line prefix granted0 ops attrs +:+ trail) = Some (Str.size prefix)
  ∧ Str.tokens (Str.drop (Str.size prefix) (raw_line prefix granted0 ops attrs +:+ trail))
    = "avc:" :: status_token granted0 :: "{" :: ops ++ "}" :: "for" :: attrs.
Proof.
  intros Hfind Hops Hattrs Htrail. unfold raw_line.
  assert (Forall is_token
            (status_token granted0 :: "{" :: ops ++ "}" :: "for" :: attrs)) as Htok.
  { repeat apply Forall_cons_2; [by destruct granted0|done|].
    apply Forall_app_2; [by eapply Forall_impl; [exact Hops|intros ? []]|].
    by repeat apply Forall_cons_2. }
  split.
  - change (Str.unwords ("avc:" :: status_token granted0 :: "{" :: ops
                           ++ "}" :: "for" :: attrs))
      with ("avc:" +:+ String " "%char
              (Str.unwords (status_token granted0 :: "{" :: ops
                              ++ "}" :: "for" :: attrs))).
    rewrite !str_app_assoc. by apply find_app.
  - rewrite str_app_assoc, str_drop_app. unfold Str.tokens.
    rewrite tokens_go_trail by done.
    apply tokens_unwords. by apply Forall_cons_2.
Qed.

(** The constructor on a line of the documented shape with any tokens behind
    [for]. *)
Lemma AvcContext_ctor_raw_line (u : Indeterminate) prefix granted0 ops attrs trail :
  Str.find "avc:" (prefix +:+ "avc:") = Some (Str.size prefix) →
  ops ≠ [] →
  Forall (λ op, is_token op ∧ op ≠ "}") ops → Forall is_token attrs →
  Str.forallb Str.isspace trail = true →
  AvcContext_ctor u (raw_line prefix granted0 ops attrs +:+ trail)
  = match attrs with
    | [] => Done (rec_no_attributes u granted0 (list_to_set ops), [InvalidInput])
    | _ :: _ =>
        Done ((AvcContext_finish u granted0 (list_to_set ops)
                 (list_to_map (trimmed (pairs_of attrs)), [])).1,
              (Unparsable <$> junk_of attrs)
              ++ (AvcContext_finish u granted0 (list_to_set ops)
                    (list_to_map (trimmed (pairs_of attrs)), [])).2)
    end.
Proof.
  intros Hfind Hne Hops Hattrs Htrail.
  destruct (raw_line_tokens prefix granted0 ops attrs trail Hfind Hops Hattrs Htrail)
    as [Hf Htok].
  unfold AvcContext_ctor. rewrite Hf. cbv zeta. rewrite Htok.
  unfold AvcContext_of_tokens.
  assert ((String.eqb (status_token granted0) "granted"
           || String.eqb (status_token granted0) "denied") = true) as ->
    by (by destruct granted0).
  assert (String.eqb (status_token granted0) "granted" = granted0) as ->
    by (by destruct granted0).
  rewrite op_loop_ops; [|done|by eapply Forall_impl; [exact Hops|intros ? []]].
  rewrite (left_id_L ∅ (∪)).
  destruct attrs as [|tok rest]; [done|].
  rewrite attr_loop_foldl, foldl_attr_body, AvcContext_finish_log.
  by rewrite (left_id_L ∅ (∪)).
Qed.

Lemma pairs_of_tokens kvs :
  Forall attr_ok kvs → pairs_of (attr_token <$> kvs) = kvs.
Proof.
  induction 1 as [|[k v] kvs [_ Hk] _ IH]; [done|].
  unfold pairs_of. rewrite fmap_cons. cbn [omap list_omap].
  fold (pairs_of (attr_token <$> kvs)). rewrite IH.
  unfold split_attr, attr_token. cbn [fst snd] in *.
  rewrite find_char_attr by done. cbn [fmap option_fmap option_map].
  by rewrite drop_attr, str_take_app.
Qed.

End Attributes.

Section RawLine.

Implicit Types (ops attrs : list string) (kvs : list (string * string)).

Lemma pairs_of_nil_junk attrs :
  pairs_of (pair_tokens attrs) = pairs_of attrs
  ∧ junk_of (pair_tokens attrs) = []
  ∧ (pair_tokens attrs = [] ↔ pairs_of attrs = []).
Proof.
  unfold pairs_of, junk_of, pair_tokens, split_attr.
  induction attrs as [|t attrs (IH1 & IH2 & IH3)]; [done|].
  rewrite filter_cons. cbn [omap list_omap].
  destruct (Str.find_char "="%char t) as [idx|] eqn:Hf.
  - rewrite decide_True by done. cbn [omap list_omap]. rewrite Hf, filter_cons, Hf.
    rewrite decide_False by done. cbn [fmap option_fmap option_map].
    by rewrite IH1, IH2.
  - rewrite decide_False by (by intros []). cbn [fmap option_fmap option_map].
    done.
Qed.

Lemma AvcContext_finish_empty (u : Indeterminate) granted0 (ops : gset string) :
  (AvcContext_finish u granted0 ops (∅, [])).1 = rec_no_attributes u granted0 ops.
Proof.
  pose proof (AvcContext_finish_cases u granted0 ops ∅) as H. cbv zeta in H.
  rewrite H, !lookup_empty. cbn [fst]. by rewrite !delete_empty.
Qed.

End RawLine.

(** X5: a line whose word behind the marker is neither [granted] nor
    [denied] is given up at once, whatever follows on the line: the
    constructor returns a stale record whose operations, contexts, class and
    attributes are empty, with one diagnostic that names the word.  Neither
    [granted] nor [permissive] has been assigned by then, and nothing is said
    of them; the rest does not depend on what the storage held. *)
Theorem unknown_status_initial_record (u : Indeterminate)
    (prefix status : string) (rest : list string) :
  Str.find "avc:" (prefix +:+ "avc:") = Some (Str.size prefix) →
  is_token status → status ≠ "granted" → status ≠ "denied" →
  Forall is_token rest →
  ∃ e, AvcContext_ctor u (prefix +:+ Str.unwords ("avc:" :: status :: rest))
       = Done (e, [UnknownStatus status])
    ∧ stale e = true
    ∧ operation e = ∅
    ∧ scontext e = {| m_context := EmptyString |}
    ∧ tcontext e = {| m_context := EmptyString |}
    ∧ tclass e = EmptyString
    ∧ misc_attributes e = ∅.
Proof.
  intros Hfind Hstatus Hg Hd Hrest.
  destruct (marker_line_tokens prefix (status :: rest) Hfind) as [Hf Htok];
    [by apply Forall_cons_2|].
  unfold AvcContext_ctor. rewrite Hf. cbv zeta. rewrite Htok.
  unfold AvcContext_of_tokens.
  apply String.eqb_neq in Hg, Hd. rewrite Hg, Hd.
  by eexists.
Qed.

Lemma unknown_status_initial_record_witness :
  ∃ e, AvcContext_ctor all_set
         (audit_prefix +:+ Str.unwords ["avc:"; "received"; "policyload"; "notice"])
       = Done (e, [UnknownStatus "received"])
    ∧ stale e = true
    ∧ operation e = ∅
    ∧ scontext e = {| m_context := EmptyString |}
    ∧ tcontext e = {| m_context := EmptyString |}
    ∧ tclass e = EmptyString
    ∧ misc_attributes e = ∅.
Proof.
  apply (unknown_status_initial_record all_set audit_prefix "received"
           ["policyload"; "notice"]).
  - vm_compute. reflexivity.
  - split; [discriminate|reflexivity].
  - discriminate.
  - discriminate.
  - repeat constructor; (discriminate || reflexivity).
Defined.

(** X6: a denial with nothing behind [for] but white space is given up
    after the operations: the record returned is stale, holds the status and
    the operations read so far, its contexts, class and attributes are empty,
    and the only diagnostic is the one for invalid input.  [permissive] has
    not been assigned by then, and nothing is said of it. *)
Theorem no_attribute_invalid_input (u : Indeterminate)
    (prefix : string) (granted0 : bool) (ops : list string) (trail : string) :
  Str.find "avc:" (prefix +:+ "avc:") = Some (Str.size prefix) →
  ops ≠ [] →
  Forall (λ op, is_token op ∧ op ≠ "}") ops →
  Str.forallb Str.isspace trail = true →
  ∃ e, AvcContext_ctor u (raw_line prefix granted0 ops [] +:+ trail)
       = Done (e, [InvalidInput])
    ∧ stale e = true
    ∧ granted e = granted0
    ∧ operation e = list_to_set ops
    ∧ scontext e = {| m_context := EmptyString |}
    ∧ tcontext e = {| m_context := EmptyString |}
    ∧ tclass e = EmptyString
    ∧ misc_attributes e = ∅.
Proof.
  intros Hfind Hne Hops Htrail.
  rewrite (AvcContext_ctor_raw_line u prefix granted0 ops [] trail) by done.
  by eexists.
Qed.

Lemma no_attribute_invalid_input_witness :
  ∃ e, AvcContext_ctor all_set
         (raw_line audit_prefix false ["read"; "write"] [] +:+ " ")
       = Done (e, [InvalidInput])
    ∧ stale e = true
    ∧ granted e = false
    ∧ operation e = list_to_set ["read"; "write"]
    ∧ scontext e = {| m_context := EmptyString |}
    ∧ tcontext e = {| m_context := EmptyString |}
    ∧ tclass e = EmptyString
    ∧ misc_attributes e = ∅.
Proof.
  apply (no_attribute_invalid_input all_set audit_prefix false ["read"; "write"] " ").
  - vm_compute. reflexivity.
  - discriminate.
  - repeat constructor; (discriminate || reflexivity).
  - reflexivity.
Defined.

Section LiveLine.

(** The record of a line with the four required keys. *)
Lemma AvcContext_ctor_live_line (u : Indeterminate)
    (prefix : string) (granted0 : bool) (ops attrs : list string) (trail : string)
    (vs vt vc vp : string) (p : bool) :
  Str.find "avc:" (prefix +:+ "avc:") = Some (Str.size prefix) →
  ops ≠ [] →
  Forall (λ op, is_token op ∧ op ≠ "}") ops →
  Forall is_token attrs →
  Str.forallb Str.isspace trail = true →
  stored_value "scontext" (pairs_of attrs) = Some vs →
  stored_value "tcontext" (pairs_of attrs) = Some vt →
  stored_value "tclass" (pairs_of attrs) = Some vc →
  stored_value "permissive" (pairs_of attrs) = Some vp →
  permissive_value vp = Some p →
  ∃ e, AvcContext_ctor u (raw_line prefix granted0 ops attrs +:+ trail)
         = Done (e, Unparsable <$> junk_of attrs)
    ∧ stale e = false
    ∧ granted e = granted0
    ∧ operation e = list_to_set ops
    ∧ scontext e = SEContext_ctor vs
    ∧ tcontext e = SEContext_ctor vt
    ∧ tclass e = vc
    ∧ permissive e = p
    ∧ ∀ k v, misc_attributes e !! k = Some v
             ↔ (k ∉ required_keys) ∧ stored_value k (pairs_of attrs) = Some v.
Proof.
  intros Hfind Hne Hops Hattrs Htrail Hs Ht Hc Hp Hperm.
  rewrite (AvcContext_ctor_raw_line u prefix granted0 ops attrs trail) by done.
  destruct attrs as [|tok rest]; [done|].
  pose proof (AvcContext_finish_cases u granted0 (list_to_set ops)
                (list_to_map (trimmed (pairs_of (tok :: rest))))) as H.
  cbv zeta in H. rewrite !lookup_trimmed, Hs, Ht, Hc, Hp, Hperm in H.
  rewrite H. cbn [fst snd fmap option_fmap option_map default].
  eexists. split; [by rewrite app_nil_r|].
  cbn [stale granted operation scontext tcontext tclass permissive misc_attributes].
  repeat (split; [done|]).
  intros k v. by rewrite lookup_residual, lookup_trimmed.
Qed.

End LiveLine.

(** X7: whatever tokens follow [for], the record is live as soon as the
    first pair of each of the four required keys is there and the first
    [permissive=] value reads as 0 or 1.  Of a key given twice the first pair
    counts; tokens without [=] are reported and skipped; white space at the
    end of the line is ignored.  The other members are those of the first
    pairs, and [misc_attributes] keeps the first pair of every other key. *)
Theorem first_pair_of_key_wins (u : Indeterminate)
    (prefix : string) (granted0 : bool) (ops attrs : list string) (trail : string)
    (vs vt vc vp : string) (p : bool) :
  Str.find "avc:" (prefix +:+ "avc:") = Some (Str.size prefix) →
  ops ≠ [] →
  Forall (λ op, is_token op ∧ op ≠ "}") ops →
  Forall is_token attrs →
  Str.forallb Str.isspace trail = true →
  stored_value "scontext" (pairs_of attrs) = Some vs →
  stored_value "tcontext" (pairs_of attrs) = Some vt →
  stored_value "tclass" (pairs_of attrs) = Some vc →
  stored_value "permissive" (pairs_of attrs) = Some vp →
  permissive_value vp = Some p →
  ∃ e, AvcContext_ctor u (raw_line prefix granted0 ops attrs +:+ trail)
         = Done (e, Unparsable <$> junk_of attrs)
    ∧ stale e = false
    ∧ granted e = granted0
    ∧ operation e = list_to_set ops
    ∧ scontext e = SEContext_ctor vs
    ∧ tcontext e = SEContext_ctor vt
    ∧ tclass e = vc
    ∧ permissive e = p
    ∧ ∀ k v, misc_attributes e !! k = Some v
             ↔ (k ∉ required_keys) ∧ stored_value k (pairs_of attrs) = Some v.
Proof.
  intros Hfind Hne Hops Hattrs Htrail Hs Ht Hc Hp Hperm.
  by apply (AvcContext_ctor_live_line u prefix granted0 ops attrs trail vs vt vc vp p).
Qed.

Lemma first_pair_of_key_wins_witness :
  ∃ e, AvcContext_ctor all_set (raw_line audit_prefix false ["read"]
                          (attr_token <$> pairs_twice) +:+ EmptyString)
         = Done (e, Unparsable <$> junk_of (attr_token <$> pairs_twice))
    ∧ stale e = false
    ∧ granted e = false
    ∧ operation e = list_to_set ["read"]
    ∧ scontext e = SEContext_ctor "u:r:init:s0"
    ∧ tcontext e = SEContext_ctor "u:object_r:proc:s0"
    ∧ tclass e = "file"
    ∧ permissive e = true
    ∧ ∀ k v, misc_attributes e !! k = Some v
             ↔ (k ∉ required_keys)
               ∧ stored_value k (pairs_of (attr_token <$> pairs_twice)) = Some v.
Proof.
  apply (first_pair_of_key_wins all_set audit_prefix false ["read"]
           (attr_token <$> pairs_twice) EmptyString
           "u:r:init:s0" "u:object_r:proc:s0" "file" "1" true).
  - vm_compute. reflexivity.
  - discriminate.
  - repeat constructor; (discriminate || reflexivity).
  - repeat constructor; (discriminate || reflexivity).
  - reflexivity.
  - vm_compute. reflexivity.
  - vm_compute. reflexivity.
  - vm_compute. reflexivity.
  - vm_compute. reflexivity.
  - vm_compute. reflexivity.
Defined.

(** X8: when one of the four required keys has no pair the record is left
    stale, and the constructor still goes through all of them: every key
    among [scontext], [tcontext] and [tclass] that is missing is reported, in
    this order, then the failure; a missing [permissive] has no diagnostic of
    its own.  The members whose pairs are there are assigned all the same;
    [permissive] is not, and nothing is said of it. *)
Theorem missing_key_diagnostics (u : Indeterminate)
    (prefix : string) (granted0 : bool) (ops attrs : list string) (trail : string) :
  Str.find "avc:" (prefix +:+ "avc:") = Some (Str.size prefix) →
  ops ≠ [] →
  Forall (λ op, is_token op ∧ op ≠ "}") ops →
  Forall is_token attrs →
  Str.forallb Str.isspace trail = true →
  attrs ≠ [] →
  missing_keys (pairs_of attrs) ≠ [] ∨ first_value "permissive" (pairs_of attrs) = None →
  ∃ e, AvcContext_ctor u (raw_line prefix granted0 ops attrs +:+ trail)
         = Done (e, (Unparsable <$> junk_of attrs)
                    ++ (EmptyValue <$> missing_keys (pairs_of attrs))
                    ++ [FailedToParse])
    ∧ stale e = true
    ∧ granted e = granted0
    ∧ operation e = list_to_set ops
    ∧ scontext e = default {| m_context := EmptyString |}
                     (SEContext_ctor <$> stored_value "scontext" (pairs_of attrs))
    ∧ tcontext e = default {| m_context := EmptyString |}
                     (SEContext_ctor <$> stored_value "tcontext" (pairs_of attrs))
    ∧ tclass e = default EmptyString (stored_value "tclass" (pairs_of attrs)).
Proof.
  intros Hfind Hne Hops Hattrs Htrail Hnil Hmiss.
  rewrite (AvcContext_ctor_raw_line u prefix granted0 ops attrs trail) by done.
  destruct attrs as [|tok rest]; [done|].
  pose proof (AvcContext_finish_cases u granted0 (list_to_set ops)
                (list_to_map (trimmed (pairs_of (tok :: rest))))) as H.
  cbv zeta in H. rewrite !lookup_trimmed in H. rewrite H. clear H.
  unfold missing_keys, stored_value in *.
  rewrite !filter_cons, filter_nil in *.
  destruct (first_value "scontext" (pairs_of (tok :: rest))) as [vs|] eqn:Es,
    (first_value "tcontext" (pairs_of (tok :: rest))) as [vt|] eqn:Et,
    (first_value "tclass" (pairs_of (tok :: rest))) as [vc|] eqn:Ec,
    (first_value "permissive" (pairs_of (tok :: rest))) as [vp|] eqn:Ep;
    repeat case_decide; try congruence;
    cbn [fst snd fmap option_fmap option_map default list_fmap app];
    try (by destruct Hmiss);
    (eexists; split; [reflexivity|done]).
Qed.

Lemma missing_key_diagnostics_witness :
  ∃ e, AvcContext_ctor all_set (raw_line audit_prefix false ["read"]
                          (attr_token <$> pairs_source_only) +:+ EmptyString)
         = Done (e, (Unparsable <$> junk_of (attr_token <$> pairs_source_only))
                    ++ (EmptyValue
                          <$> missing_keys (pairs_of (attr_token <$> pairs_source_only)))
                    ++ [FailedToParse])
    ∧ stale e = true
    ∧ granted e = false
    ∧ operation e = list_to_set ["read"]
    ∧ scontext e = default {| m_context := EmptyString |}
                     (SEContext_ctor
                        <$> stored_value "scontext"
                              (pairs_of (attr_token <$> pairs_source_only)))
    ∧ tcontext e = default {| m_context := EmptyString |}
                     (SEContext_ctor
                        <$> stored_value "tcontext"
                              (pairs_of (attr_token <$> pairs_source_only)))
    ∧ tclass e = default EmptyString
                   (stored_value "tclass" (pairs_of (attr_token <$> pairs_source_only))).
Proof.
  apply (missing_key_diagnostics all_set audit_prefix false ["read"]
           (attr_token <$> pairs_source_only) EmptyString).
  - vm_compute. reflexivity.
  - discriminate.
  - repeat constructor; (discriminate || reflexivity).
  - repeat constructor; (discriminate || reflexivity).
  - reflexivity.
  - discriminate.
  - right. vm_compute. reflexivity.
Defined.

(** The diagnostics of a line with the source context only. *)
Example source_only_line_diagnostics :
  ∃ e, AvcContext_ctor all_set (denial_line audit_prefix false ["read"] pairs_source_only)
       = Done (e, [EmptyValue "tcontext"; EmptyValue "tclass"; FailedToParse])
       ∧ scontext e = {| m_context := "init" |} ∧ stale e = true.
Proof. eexists. split; [vm_compute; reflexivity|done]. Qed.

(** X9: when the four required keys are there but the first [permissive=]
    value does not read as 0 or 1, the record is left stale with the two
    diagnostics for the value and for the failure.  The three other keys have
    been moved into their members by then; the [permissive] pair is still in
    [misc_attributes], and the member [permissive] has not been assigned:
    nothing is said of it. *)
Theorem invalid_permissive_keeps_pair (u : Indeterminate)
    (prefix : string) (granted0 : bool) (ops attrs : list string) (trail : string)
    (vs vt vc vp : string) :
  Str.find "avc:" (prefix +:+ "avc:") = Some (Str.size prefix) →
  ops ≠ [] →
  Forall (λ op, is_token op ∧ op ≠ "}") ops →
  Forall is_token attrs →
  Str.forallb Str.isspace trail = true →
  stored_value "scontext" (pairs_of attrs) = Some vs →
  stored_value "tcontext" (pairs_of attrs) = Some vt →
  stored_value "tclass" (pairs_of attrs) = Some vc →
  stored_value "permissive" (pairs_of attrs) = Some vp →
  permissive_value vp = None →
  ∃ e, AvcContext_ctor u (raw_line prefix granted0 ops attrs +:+ trail)
         = Done (e, (Unparsable <$> junk_of attrs)
                    ++ [InvalidPermissive vp; FailedToParse])
    ∧ stale e = true
    ∧ scontext e = SEContext_ctor vs
    ∧ tcontext e = SEContext_ctor vt
    ∧ granted e = granted0
    ∧ operation e = list_to_set ops
    ∧ tclass e = vc
    ∧ misc_attributes e !! "permissive" = Some vp
    ∧ misc_attributes e !! "scontext" = None
    ∧ misc_attributes e !! "tcontext" = None
    ∧ misc_attributes e !! "tclass" = None.
Proof.
  intros Hfind Hne Hops Hattrs Htrail Hs Ht Hc Hp Hperm.
  rewrite (AvcContext_ctor_raw_line u prefix granted0 ops attrs trail) by done.
  destruct attrs as [|tok rest]; [done|].
  pose proof (AvcContext_finish_cases u granted0 (list_to_set ops)
                (list_to_map (trimmed (pairs_of (tok :: rest))))) as H.
  cbv zeta in H. rewrite !lookup_trimmed, Hs, Ht, Hc, Hp, Hperm in H.
  rewrite H. cbn [fst snd fmap option_fmap option_map default].
  eexists. split; [reflexivity|].
  cbn [stale granted operation scontext tcontext tclass permissive misc_attributes].
  repeat (split; [done|]).
  split; [by rewrite !lookup_delete_ne, lookup_trimmed by done|].
  split; [by rewrite !lookup_delete_ne, lookup_delete_eq by done|].
  split; [by rewrite lookup_delete_ne, lookup_delete_eq by done|].
  by rewrite lookup_delete_eq.
Qed.

Lemma invalid_permissive_keeps_pair_witness :
  ∃ e, AvcContext_ctor all_set (raw_line audit_prefix false ["read"]
                          (attr_token <$> pairs_bad_permissive) +:+ EmptyString)
         = Done (e, (Unparsable <$> junk_of (attr_token <$> pairs_bad_permissive))
                    ++ [InvalidPermissive "yes"; FailedToParse])
    ∧ stale e = true
    ∧ scontext e = SEContext_ctor "u:r:init:s0"
    ∧ tcontext e = SEContext_ctor "u:object_r:proc:s0"
    ∧ granted e = false
    ∧ operation e = list_to_set ["read"]
    ∧ tclass e = "file"
    ∧ misc_attributes e !! "permissive" = Some "yes"
    ∧ misc_attributes e !! "scontext" = None
    ∧ misc_attributes e !! "tcontext" = None
    ∧ misc_attributes e !! "tclass" = None.
Proof.
  apply (invalid_permissive_keeps_pair all_set audit_prefix false ["read"]
           (attr_token <$> pairs_bad_permissive) EmptyString
           "u:r:init:s0" "u:object_r:proc:s0" "file" "yes").
  - vm_compute. reflexivity.
  - discriminate.
  - repeat constructor; (discriminate || reflexivity).
  - repeat constructor; (discriminate || reflexivity).
  - reflexivity.
  - vm_compute. reflexivity.
  - vm_compute. reflexivity.
  - vm_compute. reflexivity.
  - vm_compute. reflexivity.
  - vm_compute. reflexivity.
Defined.

(** X10: tokens without [=] behind [for] never change the record: the
    constructor returns the same record for a line and for the line with these
    tokens struck out, and when a pair is left the diagnostics differ by one
    entry for each token struck out, in front. *)
Theorem unparsable_tokens_do_not_change_record (u : Indeterminate)
    (prefix : string) (granted0 : bool) (ops attrs : list string) (trail : string) :
  Str.find "avc:" (prefix +:+ "avc:") = Some (Str.size prefix) →
  ops ≠ [] →
  Forall (λ op, is_token op ∧ op ≠ "}") ops →
  Forall is_token attrs →
  Str.forallb Str.isspace trail = true →
  ∃ e log log',
    AvcContext_ctor u (raw_line prefix granted0 ops attrs +:+ trail) = Done (e, log)
    ∧ AvcContext_ctor u (raw_line prefix granted0 ops (pair_tokens attrs) +:+ trail)
      = Done (e, log')
    ∧ (pairs_of attrs ≠ [] → log = (Unparsable <$> junk_of attrs) ++ log').
Proof.
  intros Hfind Hne Hops Hattrs Htrail.
  assert (Forall is_token (pair_tokens attrs)) as Hattrs'
    by (apply Forall_forall; intros t [_ Ht]%list_elem_of_filter;
        by eapply Forall_forall in Hattrs).
  rewrite (AvcContext_ctor_raw_line u prefix granted0 ops attrs trail) by done.
  rewrite (AvcContext_ctor_raw_line u prefix granted0 ops (pair_tokens attrs) trail)
    by done.
  destruct (pairs_of_nil_junk attrs) as (Hp & Hj & Hn).
  rewrite Hj, Hp.
  destruct attrs as [|tok rest].
  - do 3 eexists. split; [reflexivity|]. split; [reflexivity|]. done.
  - destruct (pair_tokens (tok :: rest)) as [|tok' rest'] eqn:Hpt.
    + rewrite (proj1 Hn eq_refl). cbn [trimmed fmap list_fmap list_to_map foldr].
      rewrite AvcContext_finish_empty.
      do 3 eexists. split; [reflexivity|]. split; [reflexivity|].
      intros Hno. by destruct Hno.
    + do 3 eexists. split; [reflexivity|]. split; [reflexivity|]. done.
Qed.

Lemma unparsable_tokens_do_not_change_record_witness :
  ∃ e log log',
    AvcContext_ctor all_set (raw_line audit_prefix false ["read"] attrs_spaced_name
                       +:+ EmptyString) = Done (e, log)
    ∧ AvcContext_ctor all_set (raw_line audit_prefix false ["read"]
                         (pair_tokens attrs_spaced_name) +:+ EmptyString)
      = Done (e, log')
    ∧ (pairs_of attrs_spaced_name ≠ []
       → log = (Unparsable <$> junk_of attrs_spaced_name) ++ log').
Proof.
  apply (unparsable_tokens_do_not_change_record all_set audit_prefix false ["read"]
           attrs_spaced_name EmptyString).
  - vm_compute. reflexivity.
  - discriminate.
  - repeat constructor; (discriminate || reflexivity).
  - repeat constructor; (discriminate || reflexivity).
  - reflexivity.
Defined.

(** A quoted file name with a space in it: the value is cut at the space,
    the rest of the name is reported, and the record is live. *)
Example spaced_name_line :
  ∃ e, AvcContext_ctor all_set (raw_line audit_prefix false ["read"] attrs_spaced_name)
       = Done (e, [Unparsable ("File" +:+ String dquote EmptyString)])
       ∧ stale e = false
       ∧ misc_attributes e !! "name" = Some (String dquote "My").
Proof. eexists. split; [vm_compute; reflexivity|done]. Qed.

(** ** The denial filter on every line *)

(** X11: the denial filter returns on every line, and its answer does not
    depend on the collection attached to it.  When the answer is true and a
    collection is attached, exactly one record, the one the constructor builds
    from the line, is put at its end; when the answer is false the collection
    is as before.  The records already collected are never touched. *)
Theorem filter_appends_one_record_iff_true (u : Indeterminate)
    (line : string) (ctx : list AvcContext) :
  ∃ b, AvcFilterContext_filter u line None = Done (b, None)
    ∧ ((b = true
        ∧ ∃ e log, AvcContext_ctor u line = Done (e, log)
            ∧ AvcFilterContext_filter u line (Some ctx) = Done (true, Some (ctx ++ [e])))
       ∨ (b = false
          ∧ AvcFilterContext_filter u line (Some ctx) = Done (false, Some ctx))).
Proof.
  unfold AvcFilterContext_filter.
  destruct (bool_decide (is_Some (Regex.regex_search kAvcMessageRegEX line)))
    eqn:Hre; cbn [andb].
  - destruct (bool_decide (Str.find "untrusted_app" line = None)).
    + exists true. split; [done|]. left. split; [done|].
      apply bool_decide_eq_true in Hre.
      destruct (AvcContext_ctor_total u line Hre) as (e & log & He).
      exists e, log. by rewrite He.
    + exists false. split; [done|]. by right.
  - exists false. split; [done|]. by right.
Qed.

(** X12: a line that holds the text [untrusted_app] anywhere, be it in the
    source, in the target, in a longer domain name or in a path, is rejected
    by the denial filter and the collection is left as it is. *)
Theorem untrusted_app_anywhere_is_dropped (u : Indeterminate)
    (line : string) (_ctx : option (list AvcContext)) :
  contains "untrusted_app" line →
  AvcFilterContext_filter u line _ctx = Done (false, _ctx).
Proof.
  intros (pre & post & ->).
  destruct (find_first "untrusted_app" pre post) as (pos & Hpos & _).
  unfold AvcFilterContext_filter. rewrite Hpos.
  rewrite (bool_decide_eq_false_2 (Some pos = None)) by done.
  rewrite andb_false_r. by destruct _ctx.
Qed.

Lemma untrusted_app_anywhere_is_dropped_witness :
  AvcFilterContext_filter all_set line_untrusted_target (Some [rec_a])
  = Done (false, Some [rec_a]).
Proof.
  apply (untrusted_app_anywhere_is_dropped all_set line_untrusted_target (Some [rec_a])).
  exists "avc: denied { sigkill } for scontext=u:r:init:s0 tcontext=u:r:",
    "_29:s0:c1,c2 tclass=process permissive=0".
  reflexivity.
Defined.

(** ** What the sweep leaves *)

Section SweepResult.

Implicit Types (v w : list AvcContext) (k : bool * SEContext * SEContext * string).

Lemma elem_of_class_ops k v x : x ∈ class_ops k v ↔ in_class k x v.
Proof.
  unfold class_ops, in_class. rewrite elem_of_union_list. split.
  - intros (X & HX & Hx). apply list_elem_of_fmap in HX as (e & -> & He).
    apply list_elem_of_filter in He as [[Hs Hk] He]. by exists e.
  - intros (e & He & Hs & Hk & Hx). exists (operation e). split; [|done].
    apply list_elem_of_fmap. exists e. split; [done|]. by apply list_elem_of_filter.
Qed.

(** The live record the sweep leaves for a key. *)
Lemma merge_sweep_survivor v k :
  live_key k v →
  ∃ e, e ∈ merge_sweep v ∧ stale e = false ∧ rule_key e = k
       ∧ operation e = class_ops k v.
Proof.
  intros Hk. apply merge_sweep_live_key in Hk as (e & He & Hs & Hke).
  exists e. repeat (split; [done|]).
  apply set_eq. intros x. rewrite elem_of_class_ops, <- Hke.
  by apply merge_sweep_operations.
Qed.

Lemma merge_sweep_survivor_ops v e :
  e ∈ merge_sweep v → stale e = false →
  live_key (rule_key e) v ∧ operation e = class_ops (rule_key e) v.
Proof.
  intros He Hs. split.
  - apply merge_sweep_live_key. by exists e.
  - apply set_eq. intros x. rewrite elem_of_class_ops.
    by apply merge_sweep_operations.
Qed.

End SweepResult.

(** X13: for every rule key that has a live record before the sweep there
    is exactly one index of the collection that holds a live record with this
    key after it, and the operations of the record there are all the
    operations of the live records of the key. *)
Theorem merge_sweep_one_survivor_per_key
    (v : list AvcContext) (k : bool * SEContext * SEContext * string) :
  live_key k v →
  ∃ p e, merge_sweep v !! p = Some e ∧ stale e = false ∧ rule_key e = k
    ∧ operation e = class_ops k v
    ∧ ∀ q e', merge_sweep v !! q = Some e' → stale e' = false →
        rule_key e' = k → q = p.
Proof.
  intros Hk. destruct (merge_sweep_survivor v k Hk) as (e & He & Hs & Hke & Hops).
  apply list_elem_of_lookup in He as [p Hp].
  exists p, e. repeat (split; [done|]).
  intros q e' Hq Hs' Hke'. destruct (decide (q = p)) as [|Hne]; [done|].
  destruct (merge_sweep_settles p q v (not_eq_sym Hne) e e'); try done.
  congruence.
Qed.

Lemma merge_sweep_one_survivor_per_key_witness :
  ∃ p e, merge_sweep [rec_b; rec_admin; rec_b] !! p = Some e ∧ stale e = false
    ∧ rule_key e = rule_key rec_b
    ∧ operation e = class_ops (rule_key rec_b) [rec_b; rec_admin; rec_b]
    ∧ ∀ q e', merge_sweep [rec_b; rec_admin; rec_b] !! q = Some e' →
        stale e' = false → rule_key e' = rule_key rec_b → q = p.
Proof.
  apply (merge_sweep_one_survivor_per_key [rec_b; rec_admin; rec_b] (rule_key rec_b)).
  exists rec_b. split; [|done]. apply list_elem_of_lookup. by exists 2.
Defined.

(** X14: apart from the lines that are blank, the rule lines written after
    the sweep are exactly these: for every key with a live record in the
    collection, the rule of this key with all the operations of its live
    records. *)
Theorem sepolicy_gen_rule_lines (v : list AvcContext) (line : string) :
  line ≠ newline →
  line ∈ output_lines (merge_sweep v)
  ↔ ∃ k, live_key k v ∧ line = print_live k (class_ops k v) +:+ newline.
Proof.
  intros Hline. unfold output_lines.
  rewrite elem_of_set_iter, elem_of_rules_of_split. split.
  - intros [(l & Hl & ->) | [-> _]]; [|done].
    apply list_elem_of_fmap in Hl as (e & -> & He).
    apply list_elem_of_filter in He as [Hs He].
    destruct (merge_sweep_survivor_ops v e He Hs) as [Hk Hops].
    exists (rule_key e). split; [done|].
    by rewrite <- Hops, <- print_AvcContext_live.
  - intros (k & Hk & ->). left.
    destruct (merge_sweep_survivor v k Hk) as (e & He & Hs & <- & <-).
    exists (print_AvcContext e). split; [|by rewrite <- print_AvcContext_live].
    apply list_elem_of_fmap. exists e. split; [done|]. by apply list_elem_of_filter.
Qed.

Lemma sepolicy_gen_rule_lines_witness :
  "allow mydomain vendor_device:chr_file { ioctl open };" +:+ newline
    ∈ output_lines (merge_sweep [rec_a; rec_admin; rec_b])
  ↔ ∃ k, live_key k [rec_a; rec_admin; rec_b]
      ∧ "allow mydomain vendor_device:chr_file { ioctl open };" +:+ newline
        = print_live k (class_ops k [rec_a; rec_admin; rec_b]) +:+ newline.
Proof.
  apply (sepolicy_gen_rule_lines [rec_a; rec_admin; rec_b]).
  discriminate.
Defined.

Section SweepFrame.

Implicit Types (v w : list AvcContext).

Lemma extends_refl w : extends w w.
Proof. split; [done|]. intros p e' H. by exists e'. Qed.

Lemma extends_trans w1 w2 w3 : extends w1 w2 → extends w2 w3 → extends w1 w3.
Proof.
  intros [Hl1 H1] [Hl2 H2]. split; [congruence|]. intros p e3 H3.
  destruct (H2 p e3 H3) as (e2 & He2 & Hk2 & Hm2 & Hp2 & Ho2 & Hs2).
  destruct (H1 p e2 He2) as (e1 & He1 & Hk1 & Hm1 & Hp1 & Ho1 & Hs1).
  exists e1. split; [done|]. split; [congruence|]. split; [congruence|].
  split; [congruence|]. split; [set_solver|].
  intros Hs. specialize (Hs1 Hs). subst e2. by apply Hs2.
Qed.

Lemma merge_pair_extends i j w : extends w (merge_pair i j w).
Proof.
  destruct (merge_pair_cases i j w)
    as [->|(e1 & e2 & Hij & H1 & H2 & Hs1 & Hs2 & Hk & ->)]; [apply extends_refl|].
  split; [by rewrite !length_insert|]. intros p e'.
  rewrite (lookup_merged i j w e1 e2 p) by done.
  destruct (decide (p = j)) as [->|Hpj]; [|destruct (decide (p = i)) as [->|Hpi]].
  - intros [= <-]. exists e2. repeat (split; [done|]). congruence.
  - intros [= <-]. exists e1. split; [done|]. split; [done|]. split; [done|].
    split; [done|]. split; [simpl; set_solver|]. congruence.
  - intros H. exists e'. by repeat (split; [done|]).
Qed.

Lemma foldl_extends {A} (f : list AvcContext → A → list AvcContext) :
  (∀ w x, extends w (f w x)) → ∀ l w, extends w (foldl f w l).
Proof.
  intros Hf l. induction l as [|x l IH]; intros w; [apply extends_refl|].
  simpl. eapply extends_trans; [apply Hf|apply IH].
Qed.

Lemma merge_sweep_extends v : extends v (merge_sweep v).
Proof.
  apply foldl_extends. intros w i. apply foldl_extends. intros w' j.
  apply merge_pair_extends.
Qed.

(** One step of the sweep keeps the record at [p] live unless it is the
    second operand and the first is live with the same key. *)
Lemma merge_pair_live_at i j w p :
  live_at p w → (j = p → i ≠ p → settled i p w) → live_at p (merge_pair i j w).
Proof.
  intros (e & He & Hs) Hset.
  destruct (merge_pair_cases i j w)
    as [->|(e1 & e2 & Hij & H1 & H2 & Hs1 & Hs2 & Hk & ->)]; [by exists e|].
  unfold live_at. rewrite (lookup_merged i j w e1 e2 p) by done.
  destruct (decide (p = j)) as [->|Hpj]; [|destruct (decide (p = i)) as [->|Hpi]].
  - by destruct (Hset eq_refl Hij e1 e2).
  - by eexists.
  - by exists e.
Qed.

Lemma merge_inner_live_at i w p :
  live_at p w → (i ≠ p → ∀ w', evolves w w' → settled i p w') →
  live_at p (merge_inner i w).
Proof.
  intros Hlive Hset. unfold merge_inner.
  generalize (seq 0 (length w)). intros l.
  assert (evolves w w) as Hev by apply evolves_refl.
  revert Hlive Hev. generalize w at 1 3 4. intros w' Hlive Hev. revert w' Hlive Hev.
  induction l as [|j l IH]; intros w' Hlive Hev; [done|].
  simpl. apply IH.
  - apply merge_pair_live_at; [done|]. intros _ Hi. by apply Hset.
  - eapply evolves_trans; [exact Hev|apply merge_pair_evolves].
Qed.

Lemma foldl_merge_inner_live_at l w p :
  live_at p w →
  (∀ i, i ∈ l → i ≠ p → ∀ w', evolves w w' → settled i p w') →
  live_at p (foldl (λ w i, merge_inner i w) w l).
Proof.
  revert w. induction l as [|i l IH]; intros w Hlive Hset; [done|].
  simpl. apply IH.
  - apply merge_inner_live_at; [done|]. intros Hi. apply Hset; [left|done].
  - intros i' Hi' Hne w' Hev. apply Hset; [by right|done|].
    eapply evolves_trans; [apply merge_inner_evolves|exact Hev].
Qed.

(** The first live record of a key is live after the sweep. *)
Lemma merge_sweep_first_live v p e :
  v !! p = Some e → stale e = false →
  (∀ q e0, q < p → v !! q = Some e0 → stale e0 = false →
     rule_key e0 ≠ rule_key e) →
  live_at p (merge_sweep v).
Proof.
  intros Hp Hs Hfirst. unfold merge_sweep.
  assert (p < length v) as Hlt by (by eapply lookup_lt_Some).
  replace (length v) with (p + S (length v - S p)) by lia.
  rewrite seq_app, foldl_app. cbn [seq foldl plus].
  set (w1 := foldl (λ w i, merge_inner i w) v (seq 0 p)).
  assert (evolves v w1) as Hev1.
  { apply foldl_evolves. intros w i. apply merge_inner_evolves. }
  assert (live_at p w1) as Hl1.
  { apply foldl_merge_inner_live_at; [by exists e|].
    intros i Hi _ w' [_ Hev] a b Ha Hb Hsa Hsb.
    apply elem_of_seq in Hi.
    destruct (Hev i a Ha) as (a0 & Ha0 & Hka & Hla).
    destruct (Hev p b Hb) as (b0 & Hb0 & Hkb & Hlb).
    rewrite Hp in Hb0. injection Hb0 as <-.
    rewrite <- Hka, <- Hkb. apply (Hfirst i); [lia|done|by apply Hla]. }
  assert (live_at p (merge_inner p w1)) as Hl2
    by (by apply merge_inner_live_at).
  apply foldl_merge_inner_live_at; [done|].
  intros i _ Hi w' Hev. apply settled_sym.
  eapply settled_evolves; [exact Hev|]. by apply merge_inner_settles.
Qed.

End SweepFrame.

(** X15: the sweep changes nothing but [operation] and [stale]: the
    collection keeps its length, every record keeps its key, its
    [misc_attributes] and its [permissive], no operation is ever taken out of
    a record, and a record that was stale before is left exactly as it
    was. *)
Theorem merge_sweep_frame (v : list AvcContext) :
  length (merge_sweep v) = length v
  ∧ ∀ p e', merge_sweep v !! p = Some e' →
      ∃ e, v !! p = Some e
        ∧ granted e' = granted e ∧ scontext e' = scontext e
        ∧ tcontext e' = tcontext e ∧ tclass e' = tclass e
        ∧ misc_attributes e' = misc_attributes e
        ∧ permissive e' = permissive e
        ∧ operation e ⊆ operation e'
        ∧ (stale e = true → e' = e).
Proof.
  destruct (merge_sweep_extends v) as [Hlen H]. split; [done|].
  intros p e' He'. destruct (H p e' He') as (e & He & Hk & Hm & Hp & Ho & Hs).
  exists e. split; [done|]. unfold rule_key in Hk. injection Hk as Hg Hsc Htc Htcl.
  by repeat (split; [done|]).
Qed.

(** X16: of the live records of one key the first in the collection is the
    one that survives the sweep.  It stays at its place, keeps its
    [misc_attributes] and its [permissive], and holds all the operations of the
    live records of the key; every other record of the key is stale
    afterwards. *)
Theorem first_live_record_survives
    (v : list AvcContext) (p : nat) (e : AvcContext) :
  v !! p = Some e → stale e = false →
  (∀ q e0, q < p → v !! q = Some e0 → stale e0 = false →
     rule_key e0 ≠ rule_key e) →
  ∃ e', merge_sweep v !! p = Some e'
    ∧ stale e' = false
    ∧ rule_key e' = rule_key e
    ∧ misc_attributes e' = misc_attributes e
    ∧ permissive e' = permissive e
    ∧ operation e' = class_ops (rule_key e) v
    ∧ ∀ q e'', q ≠ p → merge_sweep v !! q = Some e'' →
        rule_key e'' = rule_key e → stale e'' = true.
Proof.
  intros Hp Hs Hfirst.
  destruct (merge_sweep_first_live v p e Hp Hs Hfirst) as (e' & He' & Hs').
  destruct (merge_sweep_extends v) as [_ H].
  destruct (H p e' He') as (e0 & He0 & Hk & Hm & Hperm & _).
  rewrite Hp in He0. injection He0 as <-.
  exists e'. repeat (split; [done|]). split.
  - rewrite <- Hk. apply merge_sweep_survivor_ops; [|done].
    apply list_elem_of_lookup. by exists p.
  - intros q e'' Hq He'' Hk'. destruct (stale e'') eqn:Hs''; [done|].
    destruct (merge_sweep_settles p q v (not_eq_sym Hq) e' e''); try done.
    congruence.
Qed.

Lemma first_live_record_survives_witness :
  ∃ e', merge_sweep [rec_admin; rec_b; rec_a] !! 1 = Some e'
    ∧ stale e' = false
    ∧ rule_key e' = rule_key rec_b
    ∧ misc_attributes e' = misc_attributes rec_b
    ∧ permissive e' = permissive rec_b
    ∧ operation e' = class_ops (rule_key rec_b) [rec_admin; rec_b; rec_a]
    ∧ ∀ q e'', q ≠ 1 → merge_sweep [rec_admin; rec_b; rec_a] !! q = Some e'' →
        rule_key e'' = rule_key rec_b → stale e'' = true.
Proof.
  apply (first_live_record_survives [rec_admin; rec_b; rec_a] 1 rec_b).
  - reflexivity.
  - reflexivity.
  - intros q e0 Hq He0 _. destruct q as [|q]; [|lia].
    injection He0 as <-. discriminate.
Defined.

(** ** The text of one rule *)

Section RuleText.

Lemma length_set_iter (X : gset string) : length (set_iter X) = size X.
Proof. by rewrite (Permutation_length (set_iter_perm X)). Qed.

End RuleText.

(** X17: a live record with at least one operation and without [sys_admin]
    is written as [allow source target:class operations;] where the
    operations are the names of the record in ascending order, each once: a
    single name stands alone, two or more stand between braces, each followed
    by a space. *)
Theorem print_AvcContext_rule (e : AvcContext) :
  stale e = false → operation e ≠ ∅ → "sys_admin" ∉ operation e →
  ∃ names,
    StronglySorted str_lt names
    ∧ (∀ x, x ∈ names ↔ x ∈ operation e)
    ∧ print_AvcContext e
      = "allow " +:+ m_context (scontext e) +:+ " " +:+ m_context (tcontext e)
          +:+ ":" +:+ tclass e +:+ " "
          +:+ match names with
              | [x] => x
              | _ => "{ " +:+ concat_str ((λ op, op +:+ " ") <$> names) +:+ "}"
              end
          +:+ ";".
Proof.
  intros Hs Hne Hadmin. exists (set_iter (operation e)).
  split; [apply StronglySorted_strict; [apply set_iter_sorted|apply NoDup_set_iter]|].
  split; [apply elem_of_set_iter|].
  unfold print_AvcContext. rewrite Hs. cbn [orb].
  pose proof (length_set_iter (operation e)) as Hlen.
  assert (size (operation e) ≠ 0) as Hsize.
  { intros H. apply size_empty_inv in H. by apply leibniz_equiv in H. }
  rewrite (proj2 (Nat.eqb_neq _ _) Hsize).
  rewrite bool_decide_eq_false_2 by done.
  destruct (set_iter (operation e)) as [|x [|y l]]; rewrite <- Hlen; simpl in *;
    [done..].
Qed.

Lemma print_AvcContext_rule_witness :
  ∃ names,
    StronglySorted str_lt names
    ∧ (∀ x, x ∈ names ↔ x ∈ operation rec_b)
    ∧ print_AvcContext rec_b
      = "allow " +:+ m_context (scontext rec_b) +:+ " " +:+ m_context (tcontext rec_b)
          +:+ ":" +:+ tclass rec_b +:+ " "
          +:+ match names with
              | [x] => x
              | _ => "{ " +:+ concat_str ((λ op, op +:+ " ") <$> names) +:+ "}"
              end
          +:+ ";".
Proof.
  apply (print_AvcContext_rule rec_b).
  - reflexivity.
  - apply (bool_decide_unpack _). vm_compute. exact I.
  - apply (bool_decide_unpack _). vm_compute. exact I.
Defined.

(** ** The kernel configuration and the decision in [main] *)

Section KernelConfig.

Import Regex.

Lemma amatch_sound {A} n r : consumes (alang r) (λ s c k, @amatch A n r s c k).
Proof.
  induction r as [r0|r1 IH1 r2 IH2|r1 IH1 r2 IH2|i r1 IH]; intros s c k x H; simpl in H.
  - by apply (rmatch_sound n r0) in H.
  - apply IH1 in H as (m1 & s1 & c1 & -> & Hm1 & H).
    apply IH2 in H as (m2 & s2 & c2 & -> & Hm2 & H).
    exists (m1 +:+ m2), s2, c2. split; [by rewrite str_app_assoc|].
    split; [by exists m1, m2|done].
  - destruct (amatch n r1 s c k) as [y|] eqn:H1.
    + apply IH1 in H1 as (m & s' & c' & -> & Hm & H1).
      exists m, s', c'. split; [done|]. split; [by left|congruence].
    + apply IH2 in H as (m & s' & c' & -> & Hm & H).
      exists m, s', c'. split; [done|]. split; [by right|done].
  - apply IH in H as (m & s' & c' & -> & Hm & H).
    exists m, s'. eexists. split; [done|]. split; [done|]. exact H.
Qed.

Lemma aregex_match_sound r line : aregex_match r line = true → alang r line.
Proof.
  unfold aregex_match. intros [x H]%bool_decide_eq_true.
  apply amatch_sound in H as (m & s' & c' & -> & Hm & H).
  destruct s'; [|done]. by rewrite str_app_nil_r.
Qed.

Lemma rmatch_opt_is_Some {A} n r s c (k : string → caps → option A) :
  is_Some (k s c) → is_Some (rmatch n (Opt r) s c k).
Proof. intros [x Hx]. simpl. destruct (rmatch n r s (reset r c) k); by eauto. Qed.

Lemma rmatch_plus_class_is_Some {A} n (p : ascii → bool) w s c
    (k : string → caps → option A) :
  w ≠ EmptyString → Str.forallb p w = true →
  match s with EmptyString => True | String b _ => p b = false end →
  is_Some (k s c) →
  is_Some (rmatch n (Plus (Class p)) (w +:+ s) c k).
Proof. intros Hw Hp Hs [x Hx]. exists x. by apply rmatch_plus_class. Qed.

(** The third alternative of [kEnabledConfig] takes any value. *)
Lemma rmatch_any_value {A} n value c (k : string → caps → option A) :
  Str.forallb is_dot value = true →
  (∀ c', is_Some (k EmptyString c')) →
  is_Some (rmatch n (seqs [ Opt (Group 2 (Lit dquote));
                            Opt (Group 3 (Plus anychar));
                            Opt (Group 4 (Lit dquote)) ]) value c k).
Proof.
  intros Hv Hk. unfold seqs. cbn [foldr].
  assert (∀ v c, Str.forallb is_dot v = true →
            is_Some (rmatch n (Seq (Opt (Group 3 (Plus anychar)))
                                 (Seq (Opt (Group 4 (Lit dquote))) Eps)) v c k))
    as Hrest.
  { intros v c0 Hdots. rewrite rmatch_Seq. destruct v as [|a v].
    - apply rmatch_opt_is_Some. rewrite rmatch_Seq. apply rmatch_opt_is_Some.
      apply Hk.
    - destruct (rmatch_plus_class_is_Some n is_dot (String a v) EmptyString
                  (reset (Group 3 (Plus anychar)) c0)
                  (λ s' c',
                     rmatch n (Seq (Opt (Group 4 (Lit dquote))) Eps) s'
                       (<[3:=Some (Str.take (Str.size (String a v) - Str.size s')
                                     (String a v))]> c') k)) as [x Hx];
        [done|done|done| |].
      + rewrite rmatch_Seq. apply rmatch_opt_is_Some. apply Hk.
      + exists x. apply rmatch_opt_take. rewrite rmatch_Group.
        by rewrite str_app_nil_r in Hx. }
  rewrite rmatch_Seq.
  apply (rmatch_opt_is_Some n (Group 2 (Lit dquote)) value c
           (λ s' c', rmatch n (Seq (Opt (Group 3 (Plus anychar)))
                                 (Seq (Opt (Group 4 (Lit dquote))) Eps)) s' c' k)).
  by apply Hrest.
Qed.

Lemma forallb_find_char (p : ascii → bool) c s :
  Str.forallb p s = true → p c = false → Str.find_char c s = None.
Proof.
  intros Hs Hc. induction s as [|a s IH]; [done|]. simpl in *.
  apply andb_true_iff in Hs as [Ha Hs]. rewrite (IH Hs).
  destruct (Ascii.eqb a c) eqn:E; [|done]. apply Ascii.eqb_eq in E. congruence.
Qed.

Lemma find_char_app c k v :
  Str.find_char c k = None →
  Str.find_char c (k +:+ String c v) = Some (Str.size k).
Proof.
  intros H. induction k as [|a k IH].
  - simpl. by rewrite ascii_eqb_refl.
  - rewrite str_app_cons. simpl in *. destruct (Ascii.eqb a c); [done|].
    destruct (Str.find_char c k); [done|]. by rewrite IH.
Qed.

Lemma get_app k i s : String.get (Str.size k + i) (k +:+ s) = String.get i s.
Proof. induction k as [|a k IH]; [done|]. by rewrite str_app_cons. Qed.

Lemma is_word_find_char name c :
  is_word name → wordchar c = false →
  Str.find_char c ("CONFIG_" +:+ name) = None.
Proof.
  intros [_ Hname] Hc. apply (forallb_find_char wordchar); [|done].
  by rewrite str_forallb_app, Hname.
Qed.

(** The pattern for a set option matches the lines of this form. *)
Lemma kEnabledConfig_complete name value :
  is_word name → Str.forallb is_dot value = true →
  aregex_match kEnabledConfig (enabled_line name value) = true.
Proof.
  intros [Hne Hname] Hvalue. unfold aregex_match. apply bool_decide_eq_true.
  set (final := λ (s' : string) (_ : caps),
                  match s' with EmptyString => Some () | _ => None end).
  unfold kEnabledConfig, enabled_line.
  cbn [amatch]. unfold seqs at 1. cbn [foldr].
  rewrite rmatch_Seq, rmatch_Bol, rmatch_Seq, rmatch_lit, rmatch_Seq.
  apply rmatch_plus_class_is_Some; [done..|].
  cbn [rmatch]. rewrite ascii_eqb_refl.
  match goal with
  | |- is_Some (match ?t with _ => _ end) => destruct t as [x|]; [by eauto|]
  end.
  match goal with
  | |- is_Some (match ?t with _ => _ end) => destruct t as [x|]; [by eauto|]
  end.
  apply rmatch_any_value; [done|]. intros c'. by eexists.
Qed.

(** The lines the pattern for a set option matches are of this form. *)
Lemma kEnabledConfig_sound line :
  aregex_match kEnabledConfig line = true → is_enabled_line line.
Proof.
  intros H%aregex_match_sound. unfold kEnabledConfig in H. cbn [alang] in H.
  destruct H as (m1 & m2 & -> & H1 & m3 & m4 & -> & H3 & ->).
  unfold seqs in H1. cbn [foldr] in H1.
  destruct H1 as (b0 & r0 & -> & -> & H1).
  destruct H1 as (b1 & r1 & -> & Hb1 & H1). apply lang_lit in Hb1 as ->.
  destruct H1 as (name & r2 & -> & Hname & H1).
  apply (lang_plus_class_all wordchar) in Hname as [Hne Hname].
  destruct H1 as (b3 & r3 & -> & -> & ->).
  exists name, m3. split; [|split; [done|]].
  - unfold enabled_line. rewrite !str_app_nil_r.
    change (EmptyString +:+ ?x) with x. by rewrite !str_app_assoc.
  - destruct H3 as [->|[->|H3]]; [done..|].
    unfold seqs in H3. cbn [foldr] in H3.
    destruct H3 as (q1 & r4 & -> & Hq1 & x & r5 & -> & Hx & q2 & r6 & -> & Hq2 & ->).
    rewrite !str_forallb_app.
    assert (∀ q, lang (Opt (Group 2 (Lit dquote))) q → Str.forallb is_dot q = true)
      as Hq by (by intros q [->| ->]).
    rewrite (Hq q1 Hq1), (Hq q2 Hq2).
    destruct Hx as [->|Hx]; [done|].
    by apply (lang_plus_class_all is_dot) in Hx as [_ ->].
Qed.

Lemma kDisabledConfig_sound line m :
  regex_match kDisabledConfig line = Some m →
  ∃ a name, line = disabled_line a name ∧ Str.isspace a = true ∧ is_word name.
Proof.
  intros H%regex_match_sound. unfold kDisabledConfig, seqs in H. cbn [foldr] in H.
  destruct H as (b0 & r0 & -> & -> & H).
  destruct H as (b1 & r1 & -> & -> & H).
  destruct H as (b2 & r2 & -> & (a & -> & Ha) & H).
  destruct H as (b3 & r3 & -> & Hb3 & H). apply lang_lit in Hb3 as ->.
  destruct H as (name & r4 & -> & Hname & H).
  apply (lang_plus_class_all wordchar) in Hname.
  destruct H as (b5 & r5 & -> & Hb5 & H). apply lang_lit in Hb5 as ->.
  destruct H as (b6 & r6 & -> & -> & ->).
  exists a, name. split; [|done]. unfold disabled_line.
  change (EmptyString +:+ ?x) with x. by rewrite !str_app_nil_r.
Qed.

Lemma kDisabledConfig_complete a name :
  Str.isspace a = true → is_word name →
  is_Some (regex_match kDisabledConfig (disabled_line a name)).
Proof.
  intros Ha [Hne Hname]. unfold regex_match, kDisabledConfig, seqs. cbn [foldr].
  rewrite rmatch_Seq, rmatch_Bol. unfold disabled_line.
  cbn [rmatch]. rewrite ascii_eqb_refl. unfold space. cbn [rmatch]. rewrite Ha.
  fold (rmatch (A:=smatch)). 
  rewrite rmatch_lit.
  apply rmatch_plus_class_is_Some; [done..|].
  rewrite <- (str_app_nil_r " is not set"). rewrite rmatch_lit.
  by eexists.
Qed.

End KernelConfig.

Section ConfigLines.

Import Regex.

Lemma enabled_line_assoc name value :
  enabled_line name value = ("CONFIG_" +:+ name) +:+ String "="%char value.
Proof. unfold enabled_line. by rewrite str_app_assoc. Qed.

Lemma parse_enabled_line name value out :
  is_word name → Str.forallb is_dot value = true →
  parseOneConfigLine (enabled_line name value) out
  = Done (match value_of_char (char_at 0 value) with
          | Some v => (true, config_emplace ("CONFIG_" +:+ name) v out, [])
          | None => (true, out, [UnknownConfigValue (char_at 0 value)])
          end).
Proof.
  intros Hname Hvalue. unfold parseOneConfigLine.
  rewrite kEnabledConfig_complete by done.
  unfold upto. rewrite enabled_line_assoc.
  rewrite find_char_app by (by apply is_word_find_char).
  unfold char_at. rewrite get_app, str_take_app. cbn [String.get Nat.add].
  by destruct (value_of_char _).
Qed.

Lemma enabled_line_cons name value :
  enabled_line name value = String "C" ("ONFIG_" +:+ name +:+ String "="%char value).
Proof. unfold enabled_line. by rewrite <- str_app_cons. Qed.

Lemma disabled_not_enabled a name :
  aregex_match kEnabledConfig (disabled_line a name) = false.
Proof.
  destruct (aregex_match kEnabledConfig (disabled_line a name)) eqn:H; [|done].
  apply kEnabledConfig_sound in H as (n & v & H & _).
  by rewrite enabled_line_cons in H.
Qed.

Lemma parse_disabled_line a name out :
  Str.isspace a = true → is_word name →
  parseOneConfigLine (disabled_line a name) out
  = Done (true, config_emplace ("CONFIG_" +:+ name) UNSET out, []).
Proof.
  intros Ha Hname. unfold parseOneConfigLine.
  rewrite disabled_not_enabled.
  rewrite bool_decide_eq_true_2 by (by apply kDisabledConfig_complete).
  unfold disabled_line. cbn [Str.size Str.drop Nat.ltb Nat.leb].
  unfold upto.
  change ("CONFIG_" +:+ name +:+ " is not set")
    with ("CONFIG_" +:+ name +:+ String " " "is not set").
  rewrite <- str_app_assoc.
  rewrite find_char_app by (by apply is_word_find_char).
  by rewrite str_take_app.
Qed.

(** What a line does to the map. *)
Lemma parse_line_cases line out :
  (∃ ret log, parseOneConfigLine line out = Done (ret, out, log)
      ∧ (ret = false ↔ rejected line)
      ∧ (ret = false → log = [UnparsableLine line]))
  ∨ (∃ name value v, line = enabled_line name value ∧ is_word name
       ∧ Str.forallb is_dot value = true
       ∧ value_of_char (char_at 0 value) = Some v
       ∧ parseOneConfigLine line out
         = Done (true, config_emplace ("CONFIG_" +:+ name) v out, []))
  ∨ (∃ a name, line = disabled_line a name ∧ Str.isspace a = true ∧ is_word name
       ∧ parseOneConfigLine line out
         = Done (true, config_emplace ("CONFIG_" +:+ name) UNSET out, [])).
Proof.
  destruct (aregex_match kEnabledConfig line) eqn:He.
  - destruct (kEnabledConfig_sound line He) as (name & value & -> & Hname & Hvalue).
    pose proof (parse_enabled_line name value out Hname Hvalue) as Hp.
    destruct (value_of_char (char_at 0 value)) as [v|] eqn:Hv.
    + right. left. by exists name, value, v.
    + left. exists true, [UnknownConfigValue (char_at 0 value)].
      split; [done|]. split; [|done].
      split; [done|]. intros (_ & _ & []). by exists name, value.
  - destruct (regex_match kDisabledConfig line) as [m|] eqn:Hd.
    + destruct (kDisabledConfig_sound line m Hd) as (a & name & -> & Ha & Hname).
      right. right. exists a, name. repeat (split; [done|]).
      by apply parse_disabled_line.
    + left. unfold parseOneConfigLine. rewrite He, Hd.
      rewrite bool_decide_eq_false_2 by (by intros [? ?]).
      assert (¬ is_enabled_line line) as Hne.
      { intros (n & v & -> & Hn & Hv).
        by rewrite kEnabledConfig_complete in He. }
      destruct line as [|c line].
      * exists true, []. split; [done|]. split; [|done].
        split; [done|]. by intros ([] & _).
      * unfold rejected. cbn [Str.starts_with].
        rewrite (Ascii.eqb_sym "#" c).
        destruct (Ascii.eqb c "#").
        -- exists true, []. split; [done|]. split; [|done].
           split; [done|]. by intros (_ & ? & _).
        -- exists false, [UnparsableLine (String c line)]. split; [done|].
           split; [|done]. split; [done|]. done.
Qed.

Lemma disabled_not_rejected a name : ¬ rejected (disabled_line a name).
Proof. by intros (_ & ? & _). Qed.

(** The value returned says whether the line is rejected. *)
Lemma parse_line_ret line out :
  ∃ ret out' log, parseOneConfigLine line out = Done (ret, out', log)
    ∧ (ret = false ↔ rejected line)
    ∧ (∀ k v, out !! k = Some v → out' !! k = Some v)
    ∧ (∀ k, ¬ mentions line k → out' !! k = out !! k).
Proof.
  assert (∀ key v (m : gmap string ConfigValue) k x,
            m !! k = Some x → config_emplace key v m !! k = Some x) as Hkeep.
  { intros key v m k x Hk. unfold config_emplace.
    destruct (m !! key) eqn:E; [done|].
    rewrite lookup_insert_ne; [done|]. congruence. }
  assert (∀ key v (m : gmap string ConfigValue) k,
            k ≠ key → config_emplace key v m !! k = m !! k) as Hother.
  { intros key v m k Hk. unfold config_emplace.
    destruct (m !! key) eqn:E; [done|]. by rewrite lookup_insert_ne. }
  destruct (parse_line_cases line out)
    as [(ret & log & -> & Hret & _)
       |[(name & value & v & -> & Hname & Hvalue & Hv & ->)
        |(a & name & -> & Ha & Hname & ->)]].
  - exists ret, out, log. by repeat (split; [done|]).
  - eexists _, _, _. split; [done|]. split; [|split].
    + split; [done|]. intros (_ & _ & []). by exists name, value.
    + intros k x. apply Hkeep.
    + intros k Hk. apply Hother. intros ->. apply Hk. exists name.
      split; [done|]. split; [done|]. left. by exists value.
  - eexists _, _, _. split; [done|]. split; [|split].
    + split; [done|]. intros H. by apply disabled_not_rejected in H.
    + intros k x. apply Hkeep.
    + intros k Hk. apply Hother. intros ->. apply Hk. exists name.
      split; [done|]. split; [done|]. right. by exists a.
Qed.

(** The loop over the lines: the value returned and the map. *)
Lemma parse_config_lines_spec lines rc out log :
  ∃ rc' out' log', parse_config_lines lines rc out log = Done (rc', out', log')
    ∧ ((rc' = rc ∧ Forall (λ l, ¬ rejected l) lines)
       ∨ (rc' = Z.lor rc 1 ∧ Exists rejected lines))
    ∧ (∀ k v, out !! k = Some v → out' !! k = Some v)
    ∧ (∀ k, Forall (λ l, ¬ mentions l k) lines → out' !! k = out !! k).
Proof.
  revert rc out log. induction lines as [|line lines IH]; intros rc out log.
  - exists rc, out, log. split; [done|]. split; [by left|]. done.
  - cbn [parse_config_lines].
    destruct (parse_line_ret line out) as (ret & out1 & d & -> & Hret & Hkeep & Hother).
    destruct (IH (Z.lor rc (if ret then 0 else 1))%Z out1 (log ++ d))
      as (rc' & out' & log' & -> & Hrc & Hkeep' & Hother').
    exists rc', out', log'. split; [done|]. split; [|split].
    + destruct ret.
      * rewrite Z.lor_0_r in Hrc. destruct Hrc as [[-> H]|[-> H]].
        -- left. split; [done|]. apply Forall_cons_2; [|done].
           intros Hr. by apply Hret in Hr.
        -- right. split; [done|]. by apply Exists_cons_tl.
      * right. split.
        -- destruct Hrc as [[-> _]|[-> _]]; [done|].
           by rewrite <- Z.lor_assoc, Z.lor_diag.
        -- apply Exists_cons_hd. by apply Hret.
    + intros k v Hk. by apply Hkeep', Hkeep.
    + intros k [Hl Hls]%Forall_cons. rewrite Hother' by done. by apply Hother.
Qed.

Lemma parse_defining_line line key v out :
  defines line key v → out !! key = None →
  ∃ out', parseOneConfigLine line out = Done (true, out', [])
          ∧ out' !! key = Some v.
Proof.
  intros (name & Hname & -> & [(value & -> & Hvalue & Hv)|(a & Ha & -> & ->)]) Hout.
  - rewrite parse_enabled_line, Hv by done. eexists. split; [done|].
    unfold config_emplace. by rewrite Hout, lookup_insert_eq.
  - rewrite parse_disabled_line by done. eexists. split; [done|].
    unfold config_emplace. by rewrite Hout, lookup_insert_eq.
Qed.

Lemma parse_config_lines_app l1 l2 rc out log :
  parse_config_lines (l1 ++ l2) rc out log
  = match parse_config_lines l1 rc out log with
    | Done (rc1, out1, log1) => parse_config_lines l2 rc1 out1 log1
    | OutOfRange => OutOfRange
    | Thrown => Thrown
    end.
Proof.
  revert rc out log. induction l1 as [|l l1 IH]; intros rc out log; [done|].
  cbn [app parse_config_lines].
  destruct (parseOneConfigLine l out) as [[[ret out'] d]| |]; [|done..].
  apply IH.
Qed.

(** The first line that defines an option decides its value. *)
Lemma parse_config_lines_first l1 line l2 key v rc log :
  Forall (λ l, ¬ mentions l key) l1 → defines line key v →
  ∃ rc' out' log', parse_config_lines (l1 ++ line :: l2) rc ∅ log
                   = Done (rc', out', log')
    ∧ out' !! key = Some v.
Proof.
  intros Hl1 Hline. rewrite parse_config_lines_app.
  destruct (parse_config_lines_spec l1 rc ∅ log)
    as (rc1 & out1 & log1 & -> & _ & _ & Hother).
  cbn [parse_config_lines].
  destruct (parse_defining_line line key v out1 Hline) as (out2 & -> & Hout2).
  { by rewrite Hother. }
  destruct (parse_config_lines_spec l2 (Z.lor rc1 0) out2 (log1 ++ []))
    as (rc' & out' & log' & -> & _ & Hkeep & _).
  exists rc', out', log'. split; [done|]. by apply Hkeep.
Qed.

End ConfigLines.

(** X18: a line [CONFIG_<name>=<value>] is always accepted, and the kind
    recorded for the option is decided by the first character of the value
    alone: [y] built in, [m] module, a double quote string, [-] or a digit
    integer, whatever follows it.  With any other first character, and with an
    empty value, the line is accepted with a warning and nothing is
    recorded.  The key is the text before the [=], and an option that is in
    the map already keeps its kind. *)
Theorem set_option_kind_by_first_character
    (name value : string) (out : gmap string ConfigValue) :
  is_word name → Str.forallb Regex.is_dot value = true →
  parseOneConfigLine (enabled_line name value) out
  = Done (match value_of_char (char_at 0 value) with
          | Some v => (true, config_emplace ("CONFIG_" +:+ name) v out, [])
          | None => (true, out, [UnknownConfigValue (char_at 0 value)])
          end).
Proof. intros Hname Hvalue. by apply parse_enabled_line. Qed.

Lemma set_option_kind_by_first_character_witness :
  parseOneConfigLine (enabled_line "CMDLINE" "yes") ∅
  = Done (match value_of_char (char_at 0 "yes") with
          | Some v => (true, config_emplace ("CONFIG_" +:+ "CMDLINE") v ∅, [])
          | None => (true, ∅, [UnknownConfigValue (char_at 0 "yes")])
          end).
Proof.
  apply (set_option_kind_by_first_character "CMDLINE" "yes" ∅).
  - split; [discriminate|reflexivity].
  - reflexivity.
Defined.

(** X19: a line [# CONFIG_<name> is not set] records the option as unset,
    unless the option is in the map already. *)
Theorem unset_option_recorded
    (a : ascii) (name : string) (out : gmap string ConfigValue) :
  Str.isspace a = true → is_word name →
  parseOneConfigLine (disabled_line a name) out
  = Done (true, config_emplace ("CONFIG_" +:+ name) UNSET out, []).
Proof. intros Ha Hname. by apply parse_disabled_line. Qed.

Lemma unset_option_recorded_witness :
  parseOneConfigLine (disabled_line " " "AUDIT") ∅
  = Done (true, config_emplace ("CONFIG_" +:+ "AUDIT") UNSET ∅, []).
Proof.
  apply (unset_option_recorded " " "AUDIT" ∅).
  - reflexivity.
  - split; [discriminate|reflexivity].
Defined.

(** X20: [parseOneConfigLine] returns on every line and never throws.  It
    returns false exactly on the lines that are not empty, do not begin with
    [#] and are not of the form [CONFIG_<name>=<value>]; on these the map is
    left as it is and the line is reported.  On no line does it change or
    remove an entry of the map. *)
Theorem config_line_rejected_iff (line : string) (out : gmap string ConfigValue) :
  ∃ ret out' log, parseOneConfigLine line out = Done (ret, out', log)
    ∧ (ret = false ↔ rejected line)
    ∧ (ret = false → out' = out ∧ log = [UnparsableLine line])
    ∧ (∀ k v, out !! k = Some v → out' !! k = Some v).
Proof.
  destruct (parse_line_ret line out) as (ret & out' & log & Hp & Hret & Hkeep & _).
  exists ret, out', log. split; [done|]. split; [done|]. split; [|done].
  intros ->.
  destruct (parse_line_cases line out)
    as [(ret & log0 & Hp' & _ & Hlog)|[(? & ? & ? & _ & _ & _ & _ & Hp')
                                     |(? & ? & _ & _ & _ & Hp')]];
    rewrite Hp in Hp'; [|discriminate..].
  injection Hp' as <- <- <-. split; [done|]. by apply Hlog.
Qed.

Section ReadConfig.

Lemma str_take_all c : Str.take (Str.size c) c = c.
Proof.
  pose proof (str_take_app c EmptyString) as H. by rewrite str_app_nil_r in H.
Qed.

Lemma to_size_t_chunk c :
  Str.size c ≤ BUF_SIZE → to_size_t (Z.of_nat (Str.size c)) = Z.of_nat (Str.size c).
Proof.
  intros Hc. unfold to_size_t. apply Z.mod_small. unfold BUF_SIZE in Hc.
  split; [lia|]. apply Z.lt_le_trans with 4097%Z; [lia|done].
Qed.

(** The pieces that fit the buffer are put behind one another. *)
Lemma ReadConfigGz_loop_chunks e chunks rest out :
  Forall (λ c, 0 < Str.size c ≤ BUF_SIZE) chunks →
  ReadConfigGz_loop e ((read_of <$> chunks) ++ rest) out
  = ReadConfigGz_loop e rest (out +:+ concat_str chunks).
Proof.
  intros Hchunks. revert out.
  induction Hchunks as [|c chunks [Hpos Hfit] _ IH]; intros out.
  - by rewrite str_app_nil_r.
  - rewrite fmap_cons. cbn [app ReadConfigGz_loop read_of]. cbv zeta.
    rewrite to_size_t_chunk by done.
    rewrite (proj2 (Z.eqb_neq _ _)) by lia.
    rewrite (proj2 (Z.leb_gt _ _))
      by (unfold BUF_SIZE in Hfit; apply Z.le_lt_trans with 4096%Z; [lia|done]).
    rewrite (proj2 (Z.leb_le _ _)) by lia.
    rewrite Nat2Z.id, str_take_all, IH. cbn [concat_str].
    by rewrite str_app_assoc.
Qed.

Lemma ReadConfigGz_loop_rc e reads out rc text :
  ReadConfigGz_loop e reads out = Done (rc, text) → rc = 0%Z.
Proof.
  revert out. induction reads as [|[r buf] reads IH]; intros out.
  - by intros [= <- _].
  - cbn [ReadConfigGz_loop]. cbv zeta.
    destruct (to_size_t r =? 0)%Z eqn:E.
    + apply Z.eqb_eq in E. rewrite E. by intros [= <- _].
    + destruct (2 ^ 63 <=? to_size_t r)%Z; [done|].
      destruct (to_size_t r <=? Z.of_nat BUF_SIZE)%Z; [apply IH|done].
Qed.

(** What a negative [int] becomes in a [size_t]. *)
Lemma to_size_t_negative r :
  (- 2 ^ 31 ≤ r < 0)%Z → (to_size_t r = 2 ^ 64 + r)%Z.
Proof.
  intros Hr. unfold to_size_t.
  rewrite <- (Z.mod_add r 1 (2 ^ 64)) by done.
  rewrite Z.mul_1_l, Z.add_comm. apply Z.mod_small.
  change (2 ^ 64)%Z with 18446744073709551616%Z.
  change (2 ^ 31)%Z with 2147483648%Z in Hr. lia.
Qed.

(** A read that fails ends the loop by the exception of [append]. *)
Lemma ReadConfigGz_loop_failed e chunks r buf rest out :
  Forall (λ c, 0 < Str.size c ≤ BUF_SIZE) chunks →
  (- 2 ^ 31 ≤ r < 0)%Z →
  ReadConfigGz_loop e ((read_of <$> chunks) ++ (r, buf) :: rest) out = Thrown.
Proof.
  intros Hchunks Hr. rewrite ReadConfigGz_loop_chunks by done.
  cbn [ReadConfigGz_loop]. cbv zeta. rewrite (to_size_t_negative r Hr).
  change (2 ^ 64)%Z with 18446744073709551616%Z.
  change (2 ^ 63)%Z with 9223372036854775808%Z.
  change (2 ^ 31)%Z with 2147483648%Z in Hr.
  rewrite (proj2 (Z.eqb_neq _ _)) by lia.
  by rewrite (proj2 (Z.leb_le _ _)) by lia.
Qed.

Lemma ReadKernelConfig_ok io text out :
  io_ok io text →
  ReadKernelConfig io out = parse_config_lines (getlines text) 0%Z ∅ [].
Proof.
  intros (Hstat & Hopen & chunks & Hchunks & Hreads & ->).
  unfold ReadKernelConfig, ReadConfigGz. rewrite Hstat, Hopen, Hreads.
  cbn [Z.ltb Z.compare].
  rewrite <- (app_nil_r (read_of <$> chunks)).
  by rewrite ReadConfigGz_loop_chunks.
Qed.

Lemma io_of_ok text :
  0 < Str.size text ≤ BUF_SIZE → io_ok (io_of text) text.
Proof.
  intros Hsize. split; [done|]. split; [done|]. exists [text].
  split; [by apply Forall_cons_2|]. split; [done|].
  cbn [concat_str]. by rewrite str_app_nil_r.
Qed.

End ReadConfig.

(** X21: when [stat], [gzopen] and the reads have succeeded,
    [ReadKernelConfig] returns 0 if no line of the text is rejected and 1 if
    one at least is, never anything else; it never throws. *)
Theorem ReadKernelConfig_returns_0_or_1
    (io : config_io) (text : string) (out : gmap string ConfigValue) :
  io_ok io text →
  ∃ rc out' log, ReadKernelConfig io out = Done (rc, out', log)
    ∧ ((rc = 0%Z ∧ Forall (λ l, ¬ rejected l) (getlines text))
       ∨ (rc = 1%Z ∧ Exists rejected (getlines text))).
Proof.
  intros Hio. rewrite (ReadKernelConfig_ok io text out Hio).
  destruct (parse_config_lines_spec (getlines text) 0%Z ∅ [])
    as (rc & out' & log & -> & Hrc & _).
  by exists rc, out', log.
Qed.

Lemma ReadKernelConfig_returns_0_or_1_witness :
  ∃ rc out' log, ReadKernelConfig (io_of config_text_broken) ∅ = Done (rc, out', log)
    ∧ ((rc = 0%Z ∧ Forall (λ l, ¬ rejected l) (getlines config_text_broken))
       ∨ (rc = 1%Z ∧ Exists rejected (getlines config_text_broken))).
Proof.
  apply (ReadKernelConfig_returns_0_or_1 (io_of config_text_broken)
           config_text_broken ∅).
  apply io_of_ok. split; [apply Nat.ltb_lt|apply Nat.leb_le]; vm_compute; reflexivity.
Defined.

(** X22: the first line that is about an option decides: when it defines
    the option, the kind it gives is the one in the map at the end, whatever
    later lines say. *)
Theorem first_definition_wins
    (io : config_io) (text : string) (out : gmap string ConfigValue)
    (l1 l2 : list string) (line key : string) (v : ConfigValue) :
  io_ok io text →
  getlines text = l1 ++ line :: l2 →
  Forall (λ l, ¬ mentions l key) l1 →
  defines line key v →
  ∃ rc out' log, ReadKernelConfig io out = Done (rc, out', log)
    ∧ out' !! key = Some v.
Proof.
  intros Hio Hlines Hl1 Hline.
  rewrite (ReadKernelConfig_ok io text out Hio), Hlines.
  by apply parse_config_lines_first.
Qed.

Lemma first_definition_wins_witness :
  ∃ rc out' log, ReadKernelConfig (io_of config_text_audit) ∅ = Done (rc, out', log)
    ∧ out' !! "CONFIG_AUDIT" = Some BUILT_IN.
Proof.
  apply (first_definition_wins (io_of config_text_audit) config_text_audit ∅
           ["# Automatically generated"; EmptyString]
           ["# CONFIG_MODULES is not set"; "CONFIG_AUDIT=m"]
           "CONFIG_AUDIT=y" "CONFIG_AUDIT" BUILT_IN).
  - apply io_of_ok.
    split; [apply Nat.ltb_lt|apply Nat.leb_le]; vm_compute; reflexivity.
  - vm_compute. reflexivity.
  - repeat constructor;
      intros (name & _ & _ & [[value H]|(a & _ & H)]);
      first [ by rewrite enabled_line_cons in H
            | discriminate H
            | injection H as _ H; by rewrite str_app_cons in H ].
  - exists "AUDIT". split; [split; [discriminate|reflexivity]|].
    split; [reflexivity|]. left. exists "y". by repeat split.
Defined.

(** X23: one rejected line anywhere in the configuration keeps the denial
    filter on, whatever the configuration says about [CONFIG_AUDIT]: [main]
    looks at the option only when [ReadKernelConfig] has returned 0. *)
Theorem rejected_line_keeps_avc_filter (io : config_io) (text : string) :
  io_ok io text →
  Exists rejected (getlines text) →
  avc_filter_kept io = Done true.
Proof.
  intros Hio Hrej. unfold avc_filter_kept.
  rewrite (ReadKernelConfig_ok io text ∅ Hio).
  destruct (parse_config_lines_spec (getlines text) 0%Z ∅ [])
    as (rc & out' & log & -> & [[_ Hall]|[-> _]] & _); [|done].
  apply Exists_exists in Hrej as (l & Hl & Hr).
  by eapply Forall_forall in Hall.
Qed.

Lemma rejected_line_keeps_avc_filter_witness :
  avc_filter_kept (io_of config_text_broken) = Done true.
Proof.
  apply (rejected_line_keeps_avc_filter (io_of config_text_broken) config_text_broken).
  - apply io_of_ok.
    split; [apply Nat.ltb_lt|apply Nat.leb_le]; vm_compute; reflexivity.
  - apply Exists_exists. exists "Linux/arm64 5.10 Kernel Configuration". split.
    + apply (bool_decide_unpack _). vm_compute. exact I.
    + split; [discriminate|]. split; [reflexivity|].
      intros (n & v & H & _). by rewrite enabled_line_cons in H.
Defined.

(** X24: when no line is rejected, the denial filter is kept exactly when
    the first line about [CONFIG_AUDIT] gives it the kind built in. *)
Theorem avc_filter_follows_first_definition
    (io : config_io) (text : string)
    (l1 l2 : list string) (line : string) (v : ConfigValue) :
  io_ok io text →
  Forall (λ l, ¬ rejected l) (getlines text) →
  getlines text = l1 ++ line :: l2 →
  Forall (λ l, ¬ mentions l "CONFIG_AUDIT") l1 →
  defines line "CONFIG_AUDIT" v →
  avc_filter_kept io = Done (bool_decide (v = BUILT_IN)).
Proof.
  intros Hio Hall Hlines Hl1 Hline. unfold avc_filter_kept.
  rewrite (ReadKernelConfig_ok io text ∅ Hio), Hlines. rewrite Hlines in Hall.
  destruct (parse_config_lines_first l1 line l2 "CONFIG_AUDIT" v 0%Z [] Hl1 Hline)
    as (rc' & out'' & log' & Hp' & Hout).
  destruct (parse_config_lines_spec (l1 ++ line :: l2) 0%Z ∅ [])
    as (rc & out' & log & Hp & [[-> _]|[_ Hex]] & _).
  - rewrite Hp in Hp'. injection Hp' as <- <- <-. rewrite Hp. by rewrite Hout.
  - apply Exists_exists in Hex as (l & Hl & Hr).
    by eapply Forall_forall in Hall.
Qed.

Lemma avc_filter_follows_first_definition_witness :
  avc_filter_kept (io_of config_text_audit) = Done (bool_decide (BUILT_IN = BUILT_IN)).
Proof.
  apply (avc_filter_follows_first_definition (io_of config_text_audit)
           config_text_audit
           ["# Automatically generated"; EmptyString]
           ["# CONFIG_MODULES is not set"; "CONFIG_AUDIT=m"]
           "CONFIG_AUDIT=y" BUILT_IN).
  - apply io_of_ok.
    split; [apply Nat.ltb_lt|apply Nat.leb_le]; vm_compute; reflexivity.
  - replace (getlines config_text_audit)
      with [ "# Automatically generated"; EmptyString; enabled_line "AUDIT" "y";
             "# CONFIG_MODULES is not set"; enabled_line "AUDIT" "m" ]
      by (vm_compute; reflexivity).
    repeat constructor; intros (Hne & Hs & Hen);
      first [ done | discriminate Hs | idtac ].
    + apply Hen. exists "AUDIT", "y". by repeat split.
    + apply Hen. exists "AUDIT", "m". by repeat split.
  - vm_compute. reflexivity.
  - repeat constructor;
      intros (name & _ & _ & [[value H]|(a & _ & H)]);
      first [ by rewrite enabled_line_cons in H
            | discriminate H
            | injection H as _ H; by rewrite str_app_cons in H ].
  - exists "AUDIT". split; [split; [discriminate|reflexivity]|].
    split; [reflexivity|]. left. exists "y". by repeat split.
Defined.

(** X29: [ReadConfigGz] keeps what [gzread] returns in a [size_t].  The
    negative value of a read that fails is therefore taken for a length of
    2^64 - 2^31 or more, and [append], asked for that many characters, throws
    [std::length_error]: the exception leaves [ReadConfigGz] and
    [ReadKernelConfig], whatever was read before.  The test [len < 0] behind
    the loop is never true, so that once the file is open no call that
    returns gives anything but 0. *)
Theorem failed_read_is_not_reported
    (io : config_io) (chunks : list string) (r : Z) (buf : string)
    (rest : list (Z * string)) (out : string) (kConfig : gmap string ConfigValue) :
  Forall (λ c, 0 < Str.size c ≤ BUF_SIZE) chunks →
  (- 2 ^ 31 ≤ r < 0)%Z →
  (0 ≤ stat_rc io)%Z → gzopen_errno io = None →
  gz_reads io = (read_of <$> chunks) ++ (r, buf) :: rest →
  ReadConfigGz_loop (gz_error io) (gz_reads io) out = Thrown
  ∧ ReadConfigGz io out = Thrown
  ∧ ReadKernelConfig io kConfig = Thrown
  ∧ ∀ e reads out' rc text,
      ReadConfigGz_loop e reads out' = Done (rc, text) → rc = 0%Z.
Proof.
  intros Hchunks Hr Hstat Hopen Hreads.
  assert (∀ out', ReadConfigGz_loop (gz_error io) (gz_reads io) out' = Thrown) as H
    by (intros out'; rewrite Hreads; by apply ReadConfigGz_loop_failed).
  split; [done|]. split; [|split].
  - unfold ReadConfigGz. by rewrite Hopen.
  - unfold ReadKernelConfig, ReadConfigGz.
    rewrite (proj2 (Z.ltb_ge _ _) Hstat), Hopen. by rewrite H.
  - intros e reads out' rc text. apply ReadConfigGz_loop_rc.
Qed.

Lemma failed_read_is_not_reported_witness :
  ReadConfigGz_loop (gz_error io_failed_read) (gz_reads io_failed_read) EmptyString
  = Thrown
  ∧ ReadConfigGz io_failed_read EmptyString = Thrown
  ∧ ReadKernelConfig io_failed_read ∅ = Thrown
  ∧ ∀ e reads out' rc text,
      ReadConfigGz_loop e reads out' = Done (rc, text) → rc = 0%Z.
Proof.
  apply (failed_read_is_not_reported io_failed_read ["CONFIG_AUDIT=y"] (-1)%Z
           EmptyString [] EmptyString ∅).
  - repeat constructor; simpl; unfold BUF_SIZE; lia.
  - split; [by vm_compute|reflexivity].
  - by vm_compute.
  - reflexivity.
  - reflexivity.
Defined.

(** ** The reading loop and the output files *)

Section ReadingLoop.

Context {St : Type} (handle : string → St → St).

Lemma unlines_cons l ls : unlines (l :: ls) = l +:+ newline +:+ unlines ls.
Proof. unfold unlines. rewrite fmap_cons. cbn [concat_str]. by rewrite str_app_assoc. Qed.

Lemma plain_cons a l :
  plain (String a l) ↔ a ≠ "010"%char ∧ a ≠ "000"%char ∧ plain l.
Proof.
  unfold plain. cbn [Str.forallb]. rewrite !andb_true_iff, !negb_true_iff.
  rewrite <- !not_true_iff_false, !Ascii.eqb_eq. tauto.
Qed.

Lemma fgets_go_line l room rest :
  Str.size l < room → plain l →
  fgets_go room (l +:+ String "010" rest) = (l +:+ newline, rest).
Proof.
  revert room. induction l as [|a l IH]; intros room Hroom Hl.
  - destruct room; [simpl in Hroom; lia|]. done.
  - apply plain_cons in Hl as (Hn & _ & Hl).
    destruct room as [|room]; [simpl in Hroom; lia|].
    rewrite !str_app_cons. cbn [fgets_go].
    rewrite (proj2 (Ascii.eqb_neq _ _) Hn), IH; [done| |done].
    simpl in Hroom. lia.
Qed.

Lemma fgets_go_full room l rest :
  room ≤ Str.size l → plain l →
  fgets_go room (l +:+ rest) = (Str.take room l, Str.drop room l +:+ rest).
Proof.
  revert l. induction room as [|room IH]; intros l Hroom Hl.
  - by destruct l.
  - destruct l as [|a l]; [simpl in Hroom; lia|].
    apply plain_cons in Hl as (Hn & _ & Hl).
    rewrite str_app_cons. cbn [fgets_go Str.take Str.drop].
    rewrite (proj2 (Ascii.eqb_neq _ _) Hn), IH; [done| |done].
    simpl in Hroom. lia.
Qed.

Lemma c_str_plain l rest :
  plain l → c_str (l +:+ rest) = l +:+ c_str rest.
Proof.
  induction l as [|a l IH]; intros Hl; [done|].
  apply plain_cons in Hl as (_ & Hz & Hl).
  rewrite !str_app_cons. cbn [c_str].
  by rewrite (proj2 (Ascii.eqb_neq _ _) Hz), IH.
Qed.

Lemma getlines_go_plain cur l rest :
  plain l → getlines_go cur (l +:+ rest) = getlines_go (cur +:+ l) rest.
Proof.
  revert cur. induction l as [|a l IH]; intros cur Hl.
  - by rewrite str_app_nil_r.
  - apply plain_cons in Hl as (Hn & _ & Hl).
    rewrite str_app_cons. cbn [getlines_go].
    rewrite (proj2 (Ascii.eqb_neq _ _) Hn), IH by done.
    by rewrite str_app_cons_assoc.
Qed.

Lemma getlines_line l : plain l → getlines (c_str (l +:+ newline)) = [l].
Proof.
  intros Hl. rewrite c_str_plain by done. unfold getlines.
  by rewrite getlines_go_plain.
Qed.

Lemma getlines_piece l :
  plain l → l ≠ EmptyString → getlines (c_str l) = [l].
Proof.
  intros Hl Hne. rewrite <- (str_app_nil_r l) at 1.
  rewrite c_str_plain by done. unfold getlines.
  rewrite getlines_go_plain by done. cbn [c_str getlines_go].
  change (EmptyString +:+ l) with l. by destruct l.
Qed.

Lemma startLogger_loop_eof runs st :
  startLogger_loop handle runs EmptyString st = (EmptyString, st).
Proof. induction runs as [|runs IH]; [done|]. apply IH. Qed.

Lemma plain_take n l : plain l → plain (Str.take n l).
Proof.
  revert l. induction n as [|n IH]; intros l Hl; [done|].
  destruct l as [|a l]; [done|]. apply plain_cons in Hl as (Hn & Hz & Hl).
  cbn [Str.take]. apply plain_cons. by repeat split; [..|apply IH].
Qed.

(** One turn of the loop on a line that fits the buffer. *)
Lemma startLogger_loop_line runs l rest st :
  Str.size l ≤ 510 → plain l →
  startLogger_loop handle (S runs) (l +:+ newline +:+ rest) st
  = startLogger_loop handle runs rest (handle l st).
Proof.
  intros Hsize Hl. cbn [startLogger_loop].
  change (l +:+ newline +:+ rest) with (l +:+ String "010" rest).
  assert (fgets 512 (l +:+ String "010" rest) = Some (l +:+ newline, rest)) as ->.
  { unfold fgets. destruct l as [|a l].
    - done.
    - rewrite str_app_cons. rewrite <- str_app_cons.
      rewrite fgets_go_line; [done| |done]. cbn [Nat.sub]. lia. }
  by rewrite getlines_line.
Qed.

(** One turn of the loop on a line that does not fit the buffer. *)
Lemma startLogger_loop_cut runs l rest st :
  510 < Str.size l → plain l →
  startLogger_loop handle (S runs) (l +:+ rest) st
  = startLogger_loop handle runs (Str.drop 511 l +:+ rest)
      (handle (Str.take 511 l) st).
Proof.
  intros Hsize Hl. cbn [startLogger_loop].
  assert (fgets 512 (l +:+ rest) = Some (Str.take 511 l, Str.drop 511 l +:+ rest))
    as ->.
  { unfold fgets. destruct l as [|a l]; [simpl in Hsize; lia|].
    rewrite str_app_cons. rewrite <- str_app_cons.
    rewrite fgets_go_full; [done| |done]. cbn [Nat.sub]. lia. }
  rewrite getlines_piece; [done|by apply plain_take|].
  destruct l; [simpl in Hsize; lia|done].
Qed.

End ReadingLoop.

(** The loop on a stream of lines that fit the buffer. *)
Lemma startLogger_loop_unlines
    {St : Type} (handle : string → St → St)
    (ls : list string) (runs : nat) (st : St) :
  Forall (λ l, Str.size l ≤ 510 ∧ plain l) ls →
  length ls ≤ runs →
  startLogger_loop handle runs (unlines ls) st
  = (EmptyString, foldl (λ st l, handle l st) st ls).
Proof.
  intros Hls. revert runs st.
  induction Hls as [|l ls [Hsize Hl] _ IH]; intros runs st Hruns.
  - apply startLogger_loop_eof.
  - destruct runs as [|runs]; [simpl in Hruns; lia|].
    rewrite unlines_cons, startLogger_loop_line by done.
    apply IH. simpl in Hruns. lia.
Qed.

(** X25: on a stream of lines that end in a newline, are at most 510
    characters long and hold no null character, the loop runs its body once for
    every line, in the order of the stream, with the line without its newline;
    once the stream is at its end further turns change nothing. *)
Theorem startLogger_handles_every_line
    {St : Type} (handle : string → St → St)
    (ls : list string) (runs : nat) (st : St) :
  Forall (λ l, Str.size l ≤ 510 ∧ plain l) ls →
  length ls ≤ runs →
  startLogger_loop handle runs (unlines ls) st
  = (EmptyString, foldl (λ st l, handle l st) st ls).
Proof. intros Hls Hruns. by apply startLogger_loop_unlines. Qed.

(** X26: a line of more than 510 characters does not reach the body of the
    loop in one piece: the body is run on its first 511 characters as if they
    were a line, and the loop goes on with the rest of the line as the next
    one. *)
Theorem startLogger_cuts_long_line
    {St : Type} (handle : string → St → St)
    (l rest : string) (runs : nat) (st : St) :
  510 < Str.size l → plain l →
  startLogger_loop handle (S runs) (l +:+ newline +:+ rest) st
  = startLogger_loop handle runs (Str.drop 511 l +:+ newline +:+ rest)
      (handle (Str.take 511 l) st).
Proof. intros Hsize Hl. by apply startLogger_loop_cut. Qed.

Lemma startLogger_handles_every_line_witness :
  startLogger_loop (λ line acc, acc ++ [line]) 5
    (unlines ["avc: denied"; EmptyString; "libc"]) []
  = (EmptyString,
     foldl (λ acc l, acc ++ [l]) [] ["avc: denied"; EmptyString; "libc"]).
Proof.
  apply (startLogger_handles_every_line (λ line acc, acc ++ [line])
           ["avc: denied"; EmptyString; "libc"] 5 []).
  - repeat constructor; simpl; lia.
  - simpl. lia.
Defined.

Lemma startLogger_cuts_long_line_witness :
  startLogger_loop (λ line acc, acc ++ [line]) 3 (long_line +:+ newline +:+ EmptyString) []
  = startLogger_loop (λ line acc, acc ++ [line]) 2
      (Str.drop 511 long_line +:+ newline +:+ EmptyString)
      ((λ line acc, acc ++ [line]) (Str.take 511 long_line) []).
Proof.
  apply (startLogger_cuts_long_line (λ line acc, acc ++ [line])
           long_line EmptyString 2 []).
  - apply Nat.ltb_lt. vm_compute. reflexivity.
  - vm_compute. reflexivity.
Defined.

Section OutputFile.

Implicit Types (o : OutputContext) (ws : list (string * nat)).

Lemma str_take_drop n s : Str.take n s +:+ Str.drop n s = s.
Proof.
  revert s. induction n as [|n IH]; intros s; [done|].
  destruct s as [|a s]; [done|]. cbn [Str.take Str.drop].
  by rewrite str_app_cons, IH.
Qed.

Lemma str_take_nil n s :
  Str.take n s = EmptyString → s ≠ EmptyString → Str.drop n s = s.
Proof. destruct n, s; done. Qed.

Lemma str_app_not_nil s t : t ≠ EmptyString → s +:+ t ≠ EmptyString.
Proof. intros Ht. destruct s; [done|]. by rewrite str_app_cons. Qed.

Lemma str_app_nil_l s : EmptyString +:+ s = s.
Proof. done. Qed.

Lemma line_not_nil s : s +:+ newline ≠ EmptyString.
Proof. by apply str_app_not_nil. Qed.

Lemma str_app_not_nil_l s t : s ≠ EmptyString → s +:+ t ≠ EmptyString.
Proof. intros Hs. destruct s; [done|]. by rewrite str_app_cons. Qed.

Lemma OutputContext_writes_cons d n ws o :
  OutputContext_writes ((d, n) :: ws) o
  = OutputContext_writes ws (OutputContext_write d n o).
Proof. done. Qed.

Lemma payload_cons d n ws : payload ((d, n) :: ws) = Str.size d + payload ws.
Proof. done. Qed.

(** Whatever the library does, the file and the stream together hold what
    was written, and [len] stays within [BUF_SIZE]. *)
Lemma OutputContext_write_content data spill o :
  on_disk (OutputContext_write data spill o)
    +:+ pending (OutputContext_write data spill o)
  = (on_disk o +:+ pending o) +:+ data +:+ newline
  ∧ len (OutputContext_write data spill o) ≤ BUF_SIZE.
Proof.
  unfold OutputContext_write.
  destruct (BUF_SIZE <? len o + Str.size data) eqn:E; cbn [on_disk pending len].
  - split; [|lia]. by rewrite str_app_assoc, str_take_drop, !str_app_assoc.
  - split; [|by apply Nat.ltb_ge in E].
    by rewrite str_app_assoc, str_take_drop, !str_app_assoc.
Qed.

Lemma OutputContext_writes_content ws o :
  on_disk (OutputContext_writes ws o) +:+ pending (OutputContext_writes ws o)
  = (on_disk o +:+ pending o) +:+ unlines ws.*1.
Proof.
  revert o. induction ws as [|[d s] ws IH]; intros o.
  - by rewrite str_app_nil_r.
  - rewrite OutputContext_writes_cons, IH.
    destruct (OutputContext_write_content d s o) as [-> _].
    rewrite fmap_cons. cbn [fst]. rewrite unlines_cons.
    by rewrite !str_app_assoc.
Qed.

(** As long as the library writes nothing on its own and the counter does
    not pass [BUF_SIZE], nothing reaches the file. *)
Lemma OutputContext_writes_held ws o :
  Forall (λ w, w.2 = 0) ws → len o + payload ws ≤ BUF_SIZE →
  on_disk (OutputContext_writes ws o) = on_disk o.
Proof.
  intros Hws. revert o. induction Hws as [|[d s] ws Hs _ IH]; intros o Hlen; [done|].
  rewrite OutputContext_writes_cons. rewrite payload_cons in Hlen.
  simpl in Hs. subst s. rewrite IH.
  - unfold OutputContext_write.
    rewrite (proj2 (Nat.ltb_ge _ _)) by lia. cbn [on_disk Str.take].
    by rewrite str_app_nil_r.
  - unfold OutputContext_write.
    rewrite (proj2 (Nat.ltb_ge _ _)) by lia. cbn [len]. lia.
Qed.

(** Once characters are in the file, or are held while the counter is still
    to pass [BUF_SIZE], the file is not empty at the end. *)
Lemma OutputContext_writes_reach_disk ws o :
  len o ≤ BUF_SIZE →
  on_disk o ≠ EmptyString
  ∨ (pending o ≠ EmptyString ∧ BUF_SIZE < len o + payload ws) →
  on_disk (OutputContext_writes ws o) ≠ EmptyString.
Proof.
  revert o. induction ws as [|[d s] ws IH]; intros o Hlen H.
  - destruct H as [H|[_ H]]; [done|]. cbn [payload foldr] in H. lia.
  - rewrite OutputContext_writes_cons. rewrite payload_cons in H.
    apply IH; [apply OutputContext_write_content|].
    unfold OutputContext_write.
    destruct (BUF_SIZE <? len o + Str.size d) eqn:E; cbn [on_disk pending len].
    + left. destruct H as [H|[H _]].
      * by apply str_app_not_nil_l, str_app_not_nil_l.
      * by apply str_app_not_nil_l, str_app_not_nil.
    + destruct H as [H|[H Hpay]]; [left; by apply str_app_not_nil_l|].
      destruct (Str.take s (pending o +:+ d +:+ newline)) eqn:Et.
      * right. rewrite str_take_nil; [|done|by apply str_app_not_nil_l].
        split; [by apply str_app_not_nil_l|]. lia.
      * left. by apply str_app_not_nil.
Qed.

End OutputFile.

(** X27: the destructor looks at the size of the file while the stream is
    still open.  When the library has written nothing on its own and the
    characters handed over are at most [BUF_SIZE], so that [operator<<] never
    flushed, the file is found empty and removed, although everything
    written is still waiting in the stream. *)
Theorem small_output_is_removed (ws : list (string * nat)) :
  Forall (λ w, w.2 = 0) ws → payload ws ≤ BUF_SIZE →
  OutputContext_dtor (OutputContext_writes ws OutputContext_init) = None
  ∧ pending (OutputContext_writes ws OutputContext_init) = unlines ws.*1.
Proof.
  intros Hws Hpay.
  pose proof (OutputContext_writes_held ws OutputContext_init Hws Hpay) as Hdisk.
  pose proof (OutputContext_writes_content ws OutputContext_init) as Hall.
  rewrite Hdisk in Hall. cbn [on_disk pending OutputContext_init] in *.
  split; [|done]. unfold OutputContext_dtor. by rewrite Hdisk.
Qed.

Lemma small_output_is_removed_witness :
  OutputContext_dtor
    (OutputContext_writes [("allow init proc:file read;", 0)] OutputContext_init)
  = None
  ∧ pending
      (OutputContext_writes [("allow init proc:file read;", 0)] OutputContext_init)
    = unlines [("allow init proc:file read;", 0)].*1.
Proof.
  apply (small_output_is_removed [("allow init proc:file read;", 0)]).
  - repeat constructor.
  - apply Nat.leb_le. vm_compute. reflexivity.
Defined.

(** X28: when more than [BUF_SIZE] characters are handed over in all and
    the first piece alone is within [BUF_SIZE], the file is kept, whatever the
    library does, and at the end it holds every piece followed by a
    newline, in the order written. *)
Theorem large_output_is_kept
    (data : string) (spill : nat) (ws : list (string * nat)) :
  Str.size data ≤ BUF_SIZE →
  BUF_SIZE < payload ((data, spill) :: ws) →
  OutputContext_dtor (OutputContext_writes ((data, spill) :: ws) OutputContext_init)
  = Some (unlines ((data, spill) :: ws).*1).
Proof.
  intros Hfirst Hpay.
  pose proof (OutputContext_writes_content ((data, spill) :: ws) OutputContext_init)
    as Hall.
  cbn [on_disk pending OutputContext_init] in Hall.
  rewrite !str_app_nil_l in Hall.
  unfold OutputContext_dtor. rewrite Hall.
  assert (on_disk (OutputContext_writes ((data, spill) :: ws) OutputContext_init)
          ≠ EmptyString) as Hdisk.
  { rewrite OutputContext_writes_cons. rewrite payload_cons in Hpay.
    apply OutputContext_writes_reach_disk; [apply OutputContext_write_content|].
    unfold OutputContext_write. cbn [len OutputContext_init Nat.add].
    rewrite (proj2 (Nat.ltb_ge _ _)) by lia. cbn [on_disk pending len].
    rewrite !str_app_nil_l.
    destruct (Str.take spill (data +:+ newline)) eqn:Et.
    - right. rewrite str_take_nil; [|done|apply line_not_nil].
      split; [apply line_not_nil|]. lia.
    - by left. }
  destruct (on_disk _); done.
Qed.

Lemma large_output_is_kept_witness :
  OutputContext_dtor
    (OutputContext_writes (("allow init proc:file read;", 0) :: [(big_text, 0)])
       OutputContext_init)
  = Some (unlines (("allow init proc:file read;", 0) :: [(big_text, 0)]).*1).
Proof.
  apply (large_output_is_kept "allow init proc:file read;" 0 [(big_text, 0)]).
  - apply Nat.leb_le. vm_compute. reflexivity.
  - apply Nat.ltb_lt. vm_compute. reflexivity.
Defined.

(** ** From the stream to the rule file *)

Section DenialPattern.

Import Regex.

Lemma rmatch_Lit {A} n a s c (k : string → caps → option A) :
  rmatch n (Lit a) (String a s) c k = k s c.
Proof. simpl. by rewrite ascii_eqb_refl. Qed.

Lemma rmatch_Class {A} n (p : ascii → bool) a s c (k : string → caps → option A) :
  p a = true → rmatch n (Class p) (String a s) c k = k s c.
Proof. intros Ha. simpl. by rewrite Ha. Qed.

Lemma unwords_cons w l :
  l ≠ [] → Str.unwords (w :: l) = w +:+ String " " (Str.unwords l).
Proof. by destruct l. Qed.

Lemma unwords_ops w ops rest :
  rest ≠ [] →
  Str.unwords (w :: ops ++ rest)
  = w +:+ ops_text ops +:+ String " " (Str.unwords rest).
Proof.
  intros Hrest. revert w. induction ops as [|op ops IH]; intros w.
  - by rewrite unwords_cons.
  - cbn [app]. rewrite unwords_cons by done. rewrite IH. cbn [ops_text].
    by rewrite !str_app_cons, !str_app_assoc.
Qed.

Lemma word_not_space_first (op s : string) :
  is_word op → match op +:+ s with
               | EmptyString => False
               | String b _ => Str.isspace b = false
               end.
Proof.
  intros [Hne Hop]. destruct op as [|a op]; [done|]. rewrite str_app_cons.
  simpl in Hop. apply andb_true_iff in Hop as [Ha _]. by apply wordchar_no_space.
Qed.

(** The repetition [(\s\w+)+] goes through the operation names. *)
Lemma star_ops {A} n (k : string → caps → option A) ops T fuel c :
  Forall is_word ops → length ops ≤ fuel →
  match T with EmptyString => True | String b _ => wordchar b = false end →
  (∀ c', is_Some (k T c')) →
  is_Some (star_loop (λ s c k', rmatch n (Seq space (Plus word)) s
                                  (reset (Seq space (Plus word)) c) k')
             k fuel (ops_text ops +:+ T) c).
Proof.
  intros Hops. revert fuel c.
  induction Hops as [|op ops [Hne Hop] Hops IH]; intros fuel c Hfuel HT Hk.
  - change (ops_text [] +:+ T) with T. destruct fuel as [|fuel]; [apply Hk|].
    cbn [star_loop].
    match goal with |- is_Some (match ?t with _ => _ end) => destruct t end;
      [by eauto|apply Hk].
  - destruct fuel as [|fuel]; [simpl in Hfuel; lia|].
    cbn [ops_text]. rewrite str_app_cons. cbn [star_loop].
    match goal with
    | |- is_Some (match ?t with _ => _ end) =>
        assert (is_Some t) as [x ->]; [|by eauto]
    end.
    change (reset (Seq space (Plus word)) c) with c.
    rewrite rmatch_Seq. unfold space at 1. rewrite rmatch_Class by done.
    rewrite str_app_assoc.
    apply rmatch_plus_class_is_Some; [done..| |].
    + destruct ops as [|op' ops']; [done|]. done.
    + rewrite (proj2 (Nat.ltb_lt _ _)).
      * apply IH; [simpl in Hfuel; lia|done..].
      * cbn [Str.size]. rewrite !str_size_app. lia.
Qed.

Lemma plus_ops {A} n (k : string → caps → option A) ops T c :
  ops ≠ [] → Forall is_word ops →
  match T with EmptyString => True | String b _ => wordchar b = false end →
  (∀ c', is_Some (k T c')) →
  is_Some (rmatch n (Plus (Seq space (Plus word))) (ops_text ops +:+ T) c k).
Proof.
  intros Hne Hops HT Hk. destruct Hops as [|op ops [Hne' Hop] Hops]; [done|].
  cbn [rmatch ops_text]. rewrite str_app_cons.
  change (reset (Seq space (Plus word)) c) with c.
  unfold space at 1. cbn [Str.isspace]. rewrite str_app_assoc.
  apply rmatch_plus_class_is_Some; [done..| |].
  - destruct ops as [|op' ops']; [done|]. done.
  - apply (star_ops n k ops T); [done| |done..].
    clear. induction ops as [|op ops IH]; [simpl; lia|].
    cbn [ops_text length]. rewrite str_app_cons. cbn [Str.size].
    rewrite !str_size_app. rewrite str_size_app in IH. lia.
Qed.

Lemma search_from_app n r pre s :
  is_Some (rmatch n r s (init r) (whole s)) →
  is_Some (search_from n r (pre +:+ s)).
Proof.
  intros Hs. induction pre as [|a pre IH].
  - change (EmptyString +:+ s) with s. destruct s; simpl;
      match goal with |- is_Some (match ?t with _ => _ end) => by destruct t end.
  - rewrite str_app_cons. cbn [search_from].
    match goal with |- is_Some (match ?t with _ => _ end) => destruct t end;
      [by eauto|done].
Qed.

(** The pattern of the denial filter is found in every denial of the
    documented shape whose operation names are words and which has a token
    behind [for]. *)
Lemma kAvcMessageRegEX_raw_line prefix ops attrs :
  ops ≠ [] → Forall is_word ops → attrs ≠ [] →
  is_Some (regex_search kAvcMessageRegEX (raw_line prefix false ops attrs)).
Proof.
  intros Hne Hops Hattrs. unfold regex_search, raw_line.
  apply search_from_app.
  generalize (Str.size (prefix +:+ Str.unwords
                ("avc:" :: status_token false :: "{" :: ops ++ "}" :: "for" :: attrs))).
  intros n.
  rewrite unwords_cons by done. cbn [status_token].
  rewrite unwords_cons by done.
  rewrite (unwords_ops "{" ops ("}" :: "for" :: attrs)) by done.
  rewrite unwords_cons by done. rewrite unwords_cons by done.
  set (R := Str.unwords attrs).
  set (S0 := "avc:" +:+ _).
  generalize (init kAvcMessageRegEX). intros c.
  unfold kAvcMessageRegEX, seqs. cbn [foldr].
  subst S0.
  rewrite rmatch_Seq, rmatch_lit, rmatch_Seq.
  apply (rmatch_plus_class_is_Some _ Str.isspace " "); [done..|].
  rewrite rmatch_Seq, rmatch_lit, rmatch_Seq.
  apply (rmatch_plus_class_is_Some _ Str.isspace " "); [done..|].
  rewrite str_app_cons. change (EmptyString +:+ ?x) with x.
  rewrite rmatch_Seq, rmatch_Lit, rmatch_Seq, rmatch_Group.
  apply plus_ops; [done..|].
  intros c'.
  rewrite rmatch_Seq. unfold space. rewrite rmatch_Class by done.
  rewrite rmatch_Seq. rewrite str_app_cons. change (EmptyString +:+ ?x) with x.
  rewrite rmatch_Lit, rmatch_Seq, rmatch_Class by done.
  rewrite rmatch_Seq, rmatch_lit, rmatch_Seq, rmatch_Class by done.
  by eexists.
Qed.

End DenialPattern.

Section Pipeline.

Lemma is_word_token op : is_word op → is_token op ∧ op ≠ "}".
Proof.
  intros [Hne Hop]. split; [split; [done|]|].
  - unfold no_space. clear Hne. induction op as [|a op IH]; [done|].
    simpl in *. apply andb_true_iff in Hop as [Ha Hop].
    by rewrite (wordchar_no_space a Ha), IH.
  - by intros ->.
Qed.

(** The filter over the lines: the collection grows by the records of the
    lines it accepts, and by nothing else. *)
Lemma foldl_handle_avc any lines ctx :
  ∃ ctx', foldl (λ st l, handle_avc any l st) (Done (Some ctx)) lines
          = Done (Some ctx')
    ∧ (∀ e, e ∈ ctx → e ∈ ctx')
    ∧ (∀ l, l ∈ lines →
         is_Some (Regex.regex_search kAvcMessageRegEX l) →
         Str.find "untrusted_app" l = None →
         ∃ u e log, AvcContext_ctor u l = Done (e, log) ∧ e ∈ ctx')
    ∧ (∀ e, e ∈ ctx' →
         e ∈ ctx ∨ ∃ l u log, l ∈ lines ∧ AvcContext_ctor u l = Done (e, log)).
Proof.
  revert ctx. induction lines as [|l lines IH]; intros ctx.
  - exists ctx. split; [done|]. split; [done|]. split; [|by left].
    intros l Hl. by apply elem_of_nil in Hl.
  - cbn [foldl handle_avc]. unfold AvcFilterContext_filter.
    destruct (bool_decide (is_Some (Regex.regex_search kAvcMessageRegEX l))) eqn:Hre;
      [destruct (bool_decide (Str.find "untrusted_app" l = None)) eqn:Hun|];
      cbn [andb].
    + apply bool_decide_eq_true in Hre, Hun.
      destruct (AvcContext_ctor_total (any (Some ctx)) l Hre) as (e0 & log0 & He0).
      rewrite He0.
      destruct (IH (ctx ++ [e0])) as (ctx' & -> & Hkeep & Hnew & Hold).
      exists ctx'. split; [done|]. split; [|split].
      * intros e He. apply Hkeep, elem_of_app. by left.
      * intros l' [->|Hl']%elem_of_cons Hre' Hun'; [|by eapply Hnew].
        exists (any (Some ctx)), e0, log0. split; [done|].
        apply Hkeep, elem_of_app. right. by apply list_elem_of_singleton.
      * intros e [[He|He]%elem_of_app|(l' & u & log & Hl' & He)]%Hold.
        -- by left.
        -- apply list_elem_of_singleton in He as ->. right.
           exists l, (any (Some ctx)), log0. split; [apply elem_of_cons; by left|done].
        -- right. exists l', u, log. split; [apply elem_of_cons; by right|done].
    + apply bool_decide_eq_false in Hun.
      destruct (IH ctx) as (ctx' & -> & Hkeep & Hnew & Hold).
      exists ctx'. split; [done|]. split; [done|]. split.
      * intros l' [->|Hl']%elem_of_cons Hre' Hun'; [done|by eapply Hnew].
      * intros e [He|(l' & u & log & Hl' & He)]%Hold; [by left|].
        right. exists l', u, log. split; [apply elem_of_cons; by right|done].
    + apply bool_decide_eq_false in Hre.
      destruct (IH ctx) as (ctx' & -> & Hkeep & Hnew & Hold).
      exists ctx'. split; [done|]. split; [done|]. split.
      * intros l' [->|Hl']%elem_of_cons Hre' Hun'; [done|by eapply Hnew].
      * intros e [He|(l' & u & log & Hl' & He)]%Hold; [by left|].
        right. exists l', u, log. split; [apply elem_of_cons; by right|done].
Qed.

(** Every token is a piece of the text read. *)
Lemma tokens_go_contains cur s t :
  t ∈ Str.tokens_go cur s → contains t (cur +:+ s).
Proof.
  revert cur. induction s as [|a s IH]; intros cur.
  - cbn [Str.tokens_go]. destruct cur as [|b cur].
    + intros H. by apply elem_of_nil in H.
    + intros ->%list_elem_of_singleton. exists EmptyString, EmptyString.
      by rewrite !str_app_nil_r.
  - cbn [Str.tokens_go]. destruct (Str.isspace a).
    + destruct cur as [|b cur].
      * intros (pre & post & H)%IH. exists (String a pre), post.
        rewrite !str_app_nil_l in *. rewrite str_app_cons. by f_equal.
      * intros [-> |(pre & post & H)%IH]%elem_of_cons.
        -- exists EmptyString, (String a s). by rewrite str_app_nil_l.
        -- rewrite str_app_nil_l in H.
           exists (String b cur +:+ String a pre), post.
           rewrite str_app_assoc. f_equal. rewrite str_app_cons. by f_equal.
    + intros (pre & post & H)%IH. exists pre, post.
      rewrite <- H, str_app_assoc. done.
Qed.

Lemma contains_drop needle n s : contains needle (Str.drop n s) → contains needle s.
Proof.
  intros (pre & post & H). exists (Str.take n s +:+ pre), post.
  by rewrite str_app_assoc, <- H, str_take_drop.
Qed.

(** The first loop of the constructor inserts tokens of the line only. *)
Lemma op_loop_elem rest (ops : gset string) rest' ops' x :
  op_loop rest ops = Done (rest', ops') → x ∈ ops' → x ∈ ops ∨ x ∈ rest.
Proof.
  revert ops. induction rest as [|tok rest IH]; intros ops; [done|].
  cbn [op_loop]. cbv zeta. destruct rest as [|t rest0]; [done|].
  destruct (String.eqb t "}").
  - intros H. injection H as <- <-. unfold op_insert.
    intros [?| ->%elem_of_singleton]%elem_of_union; [by left|].
    right. apply elem_of_cons. by left.
  - intros H Hx. destruct (IH _ H Hx) as [Hin|Hin].
    + unfold op_insert in Hin.
      apply elem_of_union in Hin as [?| ->%elem_of_singleton]; [by left|].
      right. apply elem_of_cons. by left.
    + right. apply elem_of_cons. by right.
Qed.

Lemma AvcContext_finish_operation u granted0 (ops : gset string) st :
  operation (AvcContext_finish u granted0 ops st).1 = ops.
Proof.
  unfold AvcContext_finish.
  destruct (findOrDie_ctx "scontext" st.1) as [[sc m1] d1].
  destruct (findOrDie_ctx "tcontext" m1) as [[tc m2] d2].
  destruct (findOrDie "tclass" m2) as [[cl m3] d3].
  destruct (_ && _); [|done].
  by destruct (Str.read_int _) as [[|[]|]|].
Qed.

Lemma AvcContext_of_tokens_operation u toks e log x :
  AvcContext_of_tokens u toks = Done (e, log) → x ∈ operation e → x ∈ toks.
Proof.
  unfold AvcContext_of_tokens.
  destruct toks as [|t0 [|status it]]; [done..|].
  destruct (_ || _).
  - destruct it as [|t2 it]; [done|].
    destruct (op_loop it ∅) as [[it' ops]| |] eqn:Hloop; [|done..].
    assert (x ∈ ops → x ∈ t0 :: status :: t2 :: it) as Hin.
    { intros Hx. destruct (op_loop_elem _ _ _ _ x Hloop Hx) as [H|H].
      - by apply elem_of_empty in H.
      - by do 3 (apply elem_of_cons; right). }
    destruct it' as [|a [|b [|tok rest]]]; [done..| |].
    + intros [= <- _]. exact Hin.
    + intros [= H]. intros Hx. apply Hin.
      destruct (AvcContext_finish _ _ _ _) as [e' log'] eqn:Hfin.
      injection H as <- _.
      pose proof (AvcContext_finish_operation u (String.eqb status "granted") ops
                    (attr_loop tok rest (∅, []))) as Ho.
      rewrite Hfin in Ho. simpl in Ho. by rewrite <- Ho.
  - intros [= <- _]. intros Hx. by apply elem_of_empty in Hx.
Qed.

(** Every operation of the record is a piece of the line. *)
Lemma AvcContext_ctor_operation u l e log x :
  AvcContext_ctor u l = Done (e, log) → x ∈ operation e → contains x l.
Proof.
  unfold AvcContext_ctor. destruct (Str.find "avc:" l) as [pos|]; [|done].
  cbv zeta. intros H Hx.
  apply (contains_drop x pos). unfold Str.tokens in H.
  apply (tokens_go_contains EmptyString).
  by eapply AvcContext_of_tokens_operation.
Qed.

Lemma find_none_not_contains needle l :
  Str.find needle l = None → ¬ contains needle l.
Proof.
  intros H (pre & post & ->).
  destruct (find_first needle pre post) as (pos & Hpos & _). congruence.
Qed.

(** The rule a key and its operations are written as. *)
Lemma print_live_rule_text k (ops : gset string) :
  ops ≠ ∅ → "sys_admin" ∉ ops → print_live k ops = rule_text k (set_iter ops).
Proof.
  intros Hne Hadmin. unfold print_live, print_AvcContext, rule_text.
  cbn [stale operation scontext tcontext tclass orb].
  pose proof (length_set_iter ops) as Hlen.
  assert (size ops ≠ 0) as Hsize.
  { intros H. apply size_empty_inv in H. by apply leibniz_equiv in H. }
  rewrite (proj2 (Nat.eqb_neq _ _) Hsize).
  rewrite bool_decide_eq_false_2 by done.
  destruct (set_iter ops) as [|x [|y l]]; rewrite <- Hlen; simpl in *; [done..].
Qed.

End Pipeline.

(** X30: from the stream to the rule file.  When no line of the stream
    holds the text [sys_admin], all lines are within the buffer, and a denial
    of the documented shape (operation names that are words, the four
    required keys among the tokens behind [for], no [untrusted_app] in it) is
    one of them, then the loop of [startLogger] collects a live record for
    it, and the text written after the sweep has the line
    [allow source target:class operations;] of its key, with all the
    operations the collection holds for this key in ascending order, those of
    the line among them. *)
Theorem denial_reaches_rule_file
    (any : option (list AvcContext) → Indeterminate)
    (lines : list string) (runs : nat)
    (prefix : string) (ops attrs : list string) (vs vt vc vp : string) (p : bool) :
  Forall (λ l, Str.size l ≤ 510 ∧ plain l) lines →
  length lines ≤ runs →
  Forall (λ l, Str.find "sys_admin" l = None) lines →
  raw_line prefix false ops attrs ∈ lines →
  Str.find "avc:" (prefix +:+ "avc:") = Some (Str.size prefix) →
  ops ≠ [] → Forall is_word ops → Forall is_token attrs →
  stored_value "scontext" (pairs_of attrs) = Some vs →
  stored_value "tcontext" (pairs_of attrs) = Some vt →
  stored_value "tclass" (pairs_of attrs) = Some vc →
  stored_value "permissive" (pairs_of attrs) = Some vp →
  permissive_value vp = Some p →
  Str.find "untrusted_app" (raw_line prefix false ops attrs) = None →
  ∃ collected e,
    startLogger_loop (handle_avc any) runs (unlines lines) (Done (Some []))
    = (EmptyString, Done (Some collected))
    ∧ e ∈ collected ∧ stale e = false
    ∧ rule_key e = (false, SEContext_ctor vs, SEContext_ctor vt, vc)
    ∧ list_to_set ops ⊆ class_ops (rule_key e) collected
    ∧ ("sys_admin" ∉ class_ops (rule_key e) collected)
    ∧ (rule_text (rule_key e) (set_iter (class_ops (rule_key e) collected))
         +:+ newline)
      ∈ output_lines (merge_sweep collected).
Proof.
  intros Hlines Hruns Hadmin Hin Hfind Hne Hops Hattrs Hs Ht Hc Hp Hperm Hun.
  rewrite startLogger_loop_unlines by done.
  destruct (foldl_handle_avc any lines []) as (collected & -> & _ & Hnew & Hold).
  assert (Forall (λ op, is_token op ∧ op ≠ "}") ops) as Hops'
    by (eapply Forall_impl; [exact Hops|apply is_word_token]).
  destruct (Hnew _ Hin) as (u & e & log & He & Hcol); [|done|].
  { apply kAvcMessageRegEX_raw_line; [done..|]. by destruct attrs. }
  destruct (AvcContext_ctor_live_line u prefix false ops attrs EmptyString
              vs vt vc vp p) as (e' & He' & Hstale & Hg & Ho & Hsc & Htc & Hcl & _);
    [done..|].
  rewrite str_app_nil_r, He in He'. injection He' as <- _.
  exists collected, e. split; [done|]. split; [done|]. split; [done|].
  split; [unfold rule_key; by rewrite Hg, Hsc, Htc, Hcl|].
  assert (live_key (rule_key e) collected) as Hlive by (by exists e).
  assert (list_to_set ops ⊆ class_ops (rule_key e) collected) as Hsub.
  { intros x Hx. apply elem_of_class_ops. exists e. by rewrite Ho. }
  assert ("sys_admin" ∉ class_ops (rule_key e) collected) as Hno.
  { intros (e1 & He1 & _ & _ & Hx)%elem_of_class_ops.
    destruct (Hold e1 He1) as [H|(l & u1 & log1 & Hl & Hctor)];
      [by apply elem_of_nil in H|].
    eapply Forall_forall in Hadmin; [|exact Hl].
    apply (find_none_not_contains _ _ Hadmin).
    by eapply AvcContext_ctor_operation. }
  split; [done|]. split; [done|].
  rewrite <- print_live_rule_text; [|intros Hnil|done].
  - unfold output_lines. rewrite elem_of_set_iter, elem_of_rules_of_split. left.
    destruct (merge_sweep_survivor collected (rule_key e) Hlive)
      as (e2 & He2 & Hs2 & Hk2 & Hops2).
    exists (print_AvcContext e2). split.
    + apply list_elem_of_fmap. exists e2. split; [done|]. by apply list_elem_of_filter.
    + by rewrite (print_AvcContext_live e2 Hs2), Hk2, Hops2.
  - destruct ops as [|op ops]; [done|].
    assert (op ∈ class_ops (rule_key e) collected) as Hop
      by (apply Hsub, elem_of_list_to_set, elem_of_cons; by left).
    rewrite Hnil in Hop. by apply elem_of_empty in Hop.
Qed.

Lemma denial_reaches_rule_file_witness :
  ∃ collected e,
    startLogger_loop (handle_avc (λ _, all_set)) 4 (unlines stream_two_denials)
      (Done (Some []))
    = (EmptyString, Done (Some collected))
    ∧ e ∈ collected ∧ stale e = false
    ∧ rule_key e = (false, SEContext_ctor "u:r:init:s0",
                    SEContext_ctor "u:object_r:proc:s0", "file")
    ∧ list_to_set ["write"] ⊆ class_ops (rule_key e) collected
    ∧ ("sys_admin" ∉ class_ops (rule_key e) collected)
    ∧ (rule_text (rule_key e) (set_iter (class_ops (rule_key e) collected))
         +:+ newline)
      ∈ output_lines (merge_sweep collected).
Proof.
  apply (denial_reaches_rule_file (λ _, all_set) stream_two_denials 4 audit_prefix
           ["write"] attrs_init_proc "u:r:init:s0" "u:object_r:proc:s0" "file" "0"
           false).
  - repeat constructor; first [ apply Nat.leb_le | idtac ]; vm_compute; reflexivity.
  - simpl. lia.
  - repeat constructor; vm_compute; reflexivity.
  - apply (bool_decide_unpack _). vm_compute. exact I.
  - vm_compute. reflexivity.
  - discriminate.
  - repeat constructor; (discriminate || reflexivity).
  - repeat constructor; (discriminate || reflexivity).
  - vm_compute. reflexivity.
  - vm_compute. reflexivity.
  - vm_compute. reflexivity.
  - vm_compute. reflexivity.
  - vm_compute. reflexivity.
  - vm_compute. reflexivity.
Defined.

(** The two denials of the stream end in one rule. *)
Example two_denials_one_rule :
  (startLogger_loop (handle_avc (λ _, all_set)) 4 (unlines stream_two_denials)
     (Done (Some []))).2
  = Done (Some [ {| granted := false; operation := {["read"]};
                    scontext := {| m_context := "init" |};
                    tcontext := {| m_context := "proc" |};
                    tclass := "file"; misc_attributes := ∅;
                    permissive := false; stale := false |};
                 {| granted := false; operation := {["write"]};
                    scontext := {| m_context := "init" |};
                    tcontext := {| m_context := "proc" |};
                    tclass := "file"; misc_attributes := ∅;
                    permissive := false; stale := false |} ])
  ∧ sepolicy_gen
      [ {| granted := false; operation := {["read"]};
           scontext := {| m_context := "init" |};
           tcontext := {| m_context := "proc" |};
           tclass := "file"; misc_attributes := ∅;
           permissive := false; stale := false |};
        {| granted := false; operation := {["write"]};
           scontext := {| m_context := "init" |};
           tcontext := {| m_context := "proc" |};
           tclass := "file"; misc_attributes := ∅;
           permissive := false; stale := false |} ]
    = newline +:+ "allow init proc:file { read write };" +:+ newline.
Proof. split; vm_compute; reflexivity. Qed.
